(** * Nexus Engine: ring buffer, dispatch loop, order book and portfolio ledger

    A shallow embedding of the four core subsystems of the engine
    (backend/cpp/core/disruptor_queue.h, src/cpp/core/backtest_engine.cpp,
    backend/cpp/execution/price_level.h and lock_free_order_book.cpp,
    backend/cpp/position/position.h and position_manager.cpp) and of the
    two execution paths of src/cpp/execution/execution_simulator.cpp,
    followed by the properties of the specification that were checked
    against them and by further properties read off the code.

    Modelling conventions.
    - A C++ [double] is an exact rational ([Q]); equality of amounts is
      [Qeq].  Rounding error of the binary format is outside the model, the
      comparisons and tolerances ([1e-8]) of the source are kept literally.
    - [int64_t] and [size_t] are integers in [Z] with the wrap-around written
      out ([wrap_int64], [wrap_uint64]).
    - An atomic variable is a record field; a method runs as one atomic
      step, so a compare-and-swap that has just read the variable succeeds.
      Where the overlap of two calls matters, [try_publish] is taken in its
      two halves, the claim of the sequence and the store of the event.
      Memory orderings are not modelled.
    - Clocks, logging and the latency statistics are left out. *)

From Stdlib Require Import ZArith QArith Qabs Qround Lia Lqa Bool.
From stdpp Require Import gmap strings list.

(** ** Numbers *)

Module Num.

Local Open Scope Q_scope.

(** [a < b] on doubles. *)
Definition Qltb (a b : Q) : bool := negb (Qle_bool b a).

(** [a != b] on doubles. *)
Definition Qneqb (a b : Q) : bool := negb (Qeq_bool a b).

(** [std::min(a, b)]: [(b < a) ? b : a]. *)
Definition std_min (a b : Q) : Q := if Qltb b a then b else a.

(** [std::round]: nearest integer, halves away from zero. *)
Definition std_round (x : Q) : Z :=
  if Qle_bool 0 x then Qfloor (x + (1 # 2)) else Qceiling (x - (1 # 2)).

(** The literal [1e-8]. *)
Definition eps : Q := 1 # 100000000.

Local Open Scope Z_scope.

Definition wrap_uint64 (z : Z) : Z := z mod 2 ^ 64.

Definition wrap_int64 (z : Z) : Z := (z + 2 ^ 63) mod 2 ^ 64 - 2 ^ 63.

End Num.

(** ** Events (core/event_types.h) *)

Module Events.

(** Modelled from the spec: core/event_types.h is not part of the sources;
    the three event variants carry the fields the spec lists in its data
    model (MarketBar, Signal, Fill) under the names the callers use. *)
Inductive EventType := MARKET_DATA | TRADING_SIGNAL | TRADE_EXECUTION.

Record MarketDataEvent := {
  md_symbol : string;
  md_open : Q;
  md_high : Q;
  md_low : Q;
  md_close : Q;
  md_volume : Q
}.

Inductive SignalType := BUY | SELL | HOLD | EXIT.

Record TradingSignalEvent := {
  sig_strategy_id : string;
  sig_symbol : string;
  sig_signal : SignalType;
  sig_confidence : Q;
  sig_suggested_quantity : Q
}.

Record TradeExecutionEvent := {
  te_symbol : string;
  te_quantity : Q;
  te_price : Q;
  te_commission : Q;
  te_is_buy : bool
}.

Inductive Event :=
| EvMarketData (e : MarketDataEvent)
| EvTradingSignal (e : TradingSignalEvent)
| EvTradeExecution (e : TradeExecutionEvent).

Definition get_type (e : Event) : EventType :=
  match e with
  | EvMarketData _ => MARKET_DATA
  | EvTradingSignal _ => TRADING_SIGNAL
  | EvTradeExecution _ => TRADE_EXECUTION
  end.

End Events.

(** ** Positions (position/position.h) *)

Module Position.

Import Num.
Local Open Scope Q_scope.

Record Position := {
  symbol_ : string;
  quantity_ : Q;
  entry_price_ : Q;
  current_price_ : Q;
  unrealized_pnl_ : Q;
  realized_pnl_ : Q
}.

(** [Position(symbol, initial_quantity, initial_price)]. *)
Definition make (symbol : string) (initial_quantity initial_price : Q) : Position :=
  {| symbol_ := symbol;
     quantity_ := initial_quantity;
     entry_price_ := initial_price;
     current_price_ := initial_price;
     unrealized_pnl_ := 0;
     realized_pnl_ := 0 |}.

Definition is_long (p : Position) : bool := Qltb 0 (quantity_ p).
Definition is_short (p : Position) : bool := Qltb (quantity_ p) 0.
Definition is_flat (p : Position) : bool := Qltb (Qabs (quantity_ p)) eps.

Definition get_market_value (p : Position) : Q :=
  Qabs (quantity_ p * current_price_ p).

Definition get_notional_value (p : Position) : Q :=
  quantity_ p * current_price_ p.

Definition update_pnl (p : Position) (latest_price : Q) : Position :=
  let qty := quantity_ p in
  let entry := entry_price_ p in
  {| symbol_ := symbol_ p;
     quantity_ := qty;
     entry_price_ := entry;
     current_price_ := latest_price;
     unrealized_pnl_ :=
       if Qltb eps (Qabs qty) then (latest_price - entry) * qty else 0;
     realized_pnl_ := realized_pnl_ p |}.

(** [adjust_position]: the realized P&L of the trade and the position after
    it.  The retry loop around the quantity re-reads the value it has just
    read, so in one atomic step it stores [current_qty + quantity_delta]. *)
Definition adjust_position (p : Position) (quantity_delta trade_price : Q)
  : Q * Position :=
  let current_qty := quantity_ p in
  let current_entry := entry_price_ p in
  let new_qty := current_qty + quantity_delta in
  let same_direction := Qle_bool 0 (current_qty * quantity_delta) in
  let position_closure :=
    Qneqb current_qty 0 &&
    ((Qltb 0 current_qty && Qltb quantity_delta 0) ||
     (Qltb current_qty 0 && Qltb 0 quantity_delta)) in
  let realized_pnl_from_trade :=
    if position_closure then
      let closed_quantity := std_min (Qabs quantity_delta) (Qabs current_qty) in
      (trade_price - current_entry) * closed_quantity *
      (if Qltb 0 current_qty then 1 else -(1))
    else 0 in
  let realized' :=
    if position_closure then realized_pnl_ p + realized_pnl_from_trade
    else realized_pnl_ p in
  if Qltb eps (Qabs new_qty) then
    let new_entry :=
      if same_direction && Qltb (Qabs current_qty) (Qabs new_qty) then
        let current_value := current_qty * current_entry in
        let new_value := quantity_delta * trade_price in
        (current_value + new_value) / new_qty
      else current_entry in
    let stored := {| symbol_ := symbol_ p;
                     quantity_ := new_qty;
                     entry_price_ := new_entry;
                     current_price_ := current_price_ p;
                     unrealized_pnl_ := unrealized_pnl_ p;
                     realized_pnl_ := realized' |} in
    (realized_pnl_from_trade, update_pnl stored (current_price_ p))
  else
    (realized_pnl_from_trade,
     {| symbol_ := symbol_ p;
        quantity_ := 0;
        entry_price_ := current_entry;
        current_price_ := current_price_ p;
        unrealized_pnl_ := 0;
        realized_pnl_ := realized' |}).

(** The stored unrealized P&L agrees with quantity, entry price and mark. *)
Definition pnl_consistent (p : Position) : Prop :=
  unrealized_pnl_ p ==
  if Qltb eps (Qabs (quantity_ p))
  then (current_price_ p - entry_price_ p) * quantity_ p else 0.

(** The quantity is exactly zero or above the tolerance. *)
Definition no_dust (p : Position) : Prop :=
  quantity_ p = 0 \/ eps < Qabs (quantity_ p).

End Position.

(** ** Portfolio ledger (position/position_manager.h, position_manager.cpp) *)

Module PositionManager.

Import Num Events.
Local Open Scope Q_scope.

Record PortfolioStatistics := {
  total_equity : Q;
  available_cash : Q;
  total_market_value : Q;
  total_unrealized_pnl : Q;
  total_realized_pnl : Q;
  total_pnl : Q;
  total_positions : Z;
  long_positions : Z;
  short_positions : Z
}.

Record PositionManager := {
  initial_capital_ : Q;
  portfolio_stats_ : PortfolioStatistics;
  positions_ : gmap string Position.Position;
  trade_history_ : list TradeExecutionEvent;
  equity_curve_ : list Q;
  cached_total_equity_ : Q;
  equity_cache_valid_ : bool
}.

(** Field updates of the statistics block. *)
Definition add_total_equity (v : Q) (s : PortfolioStatistics) :=
  {| total_equity := total_equity s + v;
     available_cash := available_cash s;
     total_market_value := total_market_value s;
     total_unrealized_pnl := total_unrealized_pnl s;
     total_realized_pnl := total_realized_pnl s;
     total_pnl := total_pnl s;
     total_positions := total_positions s;
     long_positions := long_positions s;
     short_positions := short_positions s |}.

Definition add_available_cash (v : Q) (s : PortfolioStatistics) :=
  {| total_equity := total_equity s;
     available_cash := available_cash s + v;
     total_market_value := total_market_value s;
     total_unrealized_pnl := total_unrealized_pnl s;
     total_realized_pnl := total_realized_pnl s;
     total_pnl := total_pnl s;
     total_positions := total_positions s;
     long_positions := long_positions s;
     short_positions := short_positions s |}.

Definition add_total_market_value (v : Q) (s : PortfolioStatistics) :=
  {| total_equity := total_equity s;
     available_cash := available_cash s;
     total_market_value := total_market_value s + v;
     total_unrealized_pnl := total_unrealized_pnl s;
     total_realized_pnl := total_realized_pnl s;
     total_pnl := total_pnl s;
     total_positions := total_positions s;
     long_positions := long_positions s;
     short_positions := short_positions s |}.

Definition add_total_unrealized_pnl (v : Q) (s : PortfolioStatistics) :=
  {| total_equity := total_equity s;
     available_cash := available_cash s;
     total_market_value := total_market_value s;
     total_unrealized_pnl := total_unrealized_pnl s + v;
     total_realized_pnl := total_realized_pnl s;
     total_pnl := total_pnl s;
     total_positions := total_positions s;
     long_positions := long_positions s;
     short_positions := short_positions s |}.

Definition add_total_realized_pnl (v : Q) (s : PortfolioStatistics) :=
  {| total_equity := total_equity s;
     available_cash := available_cash s;
     total_market_value := total_market_value s;
     total_unrealized_pnl := total_unrealized_pnl s;
     total_realized_pnl := total_realized_pnl s + v;
     total_pnl := total_pnl s;
     total_positions := total_positions s;
     long_positions := long_positions s;
     short_positions := short_positions s |}.

(** [fetch_add] / [fetch_sub] on the three [size_t] counters. *)
Definition add_counts (dt dl ds : Z) (s : PortfolioStatistics) :=
  {| total_equity := total_equity s;
     available_cash := available_cash s;
     total_market_value := total_market_value s;
     total_unrealized_pnl := total_unrealized_pnl s;
     total_realized_pnl := total_realized_pnl s;
     total_pnl := total_pnl s;
     total_positions := wrap_uint64 (total_positions s + dt);
     long_positions := wrap_uint64 (long_positions s + dl);
     short_positions := wrap_uint64 (short_positions s + ds) |}.

Definition with_stats (f : PortfolioStatistics -> PortfolioStatistics)
  (pm : PositionManager) : PositionManager :=
  {| initial_capital_ := initial_capital_ pm;
     portfolio_stats_ := f (portfolio_stats_ pm);
     positions_ := positions_ pm;
     trade_history_ := trade_history_ pm;
     equity_curve_ := equity_curve_ pm;
     cached_total_equity_ := cached_total_equity_ pm;
     equity_cache_valid_ := equity_cache_valid_ pm |}.

Definition with_positions
  (f : gmap string Position.Position -> gmap string Position.Position)
  (pm : PositionManager) : PositionManager :=
  {| initial_capital_ := initial_capital_ pm;
     portfolio_stats_ := portfolio_stats_ pm;
     positions_ := f (positions_ pm);
     trade_history_ := trade_history_ pm;
     equity_curve_ := equity_curve_ pm;
     cached_total_equity_ := cached_total_equity_ pm;
     equity_cache_valid_ := equity_cache_valid_ pm |}.

Definition with_cache (cached : Q) (valid : bool) (pm : PositionManager)
  : PositionManager :=
  {| initial_capital_ := initial_capital_ pm;
     portfolio_stats_ := portfolio_stats_ pm;
     positions_ := positions_ pm;
     trade_history_ := trade_history_ pm;
     equity_curve_ := equity_curve_ pm;
     cached_total_equity_ := cached;
     equity_cache_valid_ := valid |}.

Definition invalidate_cache (pm : PositionManager) : PositionManager :=
  with_cache (cached_total_equity_ pm) false pm.

Definition push_equity (v : Q) (pm : PositionManager) : PositionManager :=
  {| initial_capital_ := initial_capital_ pm;
     portfolio_stats_ := portfolio_stats_ pm;
     positions_ := positions_ pm;
     trade_history_ := trade_history_ pm;
     equity_curve_ := equity_curve_ pm ++ [v];
     cached_total_equity_ := cached_total_equity_ pm;
     equity_cache_valid_ := equity_cache_valid_ pm |}.

Definition push_trade (e : TradeExecutionEvent) (pm : PositionManager)
  : PositionManager :=
  {| initial_capital_ := initial_capital_ pm;
     portfolio_stats_ := portfolio_stats_ pm;
     positions_ := positions_ pm;
     trade_history_ := trade_history_ pm ++ [e];
     equity_curve_ := equity_curve_ pm;
     cached_total_equity_ := cached_total_equity_ pm;
     equity_cache_valid_ := equity_cache_valid_ pm |}.

(** [PositionManager(initial_capital)]. *)
Definition make (initial_capital : Q) : PositionManager :=
  {| initial_capital_ := initial_capital;
     portfolio_stats_ :=
       {| total_equity := initial_capital;
          available_cash := initial_capital;
          total_market_value := 0;
          total_unrealized_pnl := 0;
          total_realized_pnl := 0;
          total_pnl := 0;
          total_positions := 0;
          long_positions := 0;
          short_positions := 0 |};
     positions_ := ∅;
     trade_history_ := [];
     equity_curve_ := [initial_capital];
     cached_total_equity_ := initial_capital;
     equity_cache_valid_ := true |}.

Definition get_available_cash (pm : PositionManager) : Q :=
  available_cash (portfolio_stats_ pm).

Definition get_total_realized_pnl (pm : PositionManager) : Q :=
  total_realized_pnl (portfolio_stats_ pm).

Definition get_total_unrealized_pnl (pm : PositionManager) : Q :=
  total_unrealized_pnl (portfolio_stats_ pm).

Definition get_total_market_value (pm : PositionManager) : Q :=
  total_market_value (portfolio_stats_ pm).

(** [get_total_equity] answers from the cache when it is valid and refills
    the (mutable) cache otherwise. *)
Definition get_total_equity (pm : PositionManager) : Q * PositionManager :=
  if equity_cache_valid_ pm then (cached_total_equity_ pm, pm)
  else
    let total := total_equity (portfolio_stats_ pm) in
    (total, with_cache total true pm).

(** [get_position_snapshot]: [None] stands for [std::out_of_range]. *)
Definition get_position_snapshot (pm : PositionManager) (symbol : string)
  : option Position.Position := positions_ pm !! symbol.

Definition has_position (pm : PositionManager) (symbol : string) : bool :=
  match positions_ pm !! symbol with
  | Some p => negb (Position.is_flat p)
  | None => false
  end.

(** Sum of [get_market_value] over the position map. *)
Definition sum_market_values (pm : PositionManager) : Q :=
  map_fold (fun _ p acc => Position.get_market_value p + acc) 0 (positions_ pm).

Definition on_market_data (pm : PositionManager) (event : MarketDataEvent)
  : PositionManager :=
  match positions_ pm !! md_symbol event with
  | Some p =>
      let old_market_value := Position.get_market_value p in
      let p' := Position.update_pnl p (md_close event) in
      let new_market_value := Position.get_market_value p' in
      let pm1 := with_positions (insert (md_symbol event) p') pm in
      let pm2 :=
        if Qltb eps (Qabs (new_market_value - old_market_value)) then
          let market_value_change := new_market_value - old_market_value in
          invalidate_cache
            (with_stats (add_total_equity market_value_change)
               (with_stats (add_total_market_value market_value_change) pm1))
        else pm1 in
      let '(current_equity, pm3) := get_total_equity pm2 in
      push_equity current_equity pm3
  | None => pm
  end.

Definition get_or_create_position (pm : PositionManager) (symbol : string)
  : Position.Position * PositionManager :=
  match positions_ pm !! symbol with
  | Some p => (p, pm)
  | None =>
      let p := Position.make symbol 0 0 in
      (p, with_positions (insert symbol p) pm)
  end.

Definition remove_flat_position (pm : PositionManager) (symbol : string)
  : PositionManager :=
  match positions_ pm !! symbol with
  | Some p =>
      if Position.is_flat p then with_positions (delete symbol) pm else pm
  | None => pm
  end.

Definition update_portfolio_statistics (pm : PositionManager)
  (old_position_value new_position_value realized_pnl_change : Q)
  : PositionManager :=
  let market_value_change := new_position_value - old_position_value in
  let pm1 :=
    if Qltb eps (Qabs market_value_change)
    then with_stats (add_total_market_value market_value_change) pm else pm in
  let pm2 :=
    if Qltb eps (Qabs realized_pnl_change)
    then with_stats (add_total_realized_pnl realized_pnl_change) pm1 else pm1 in
  invalidate_cache pm2.

Definition update_position_on_fill_lockfree (pm : PositionManager)
  (event : TradeExecutionEvent) : PositionManager :=
  let direction : Q := if te_is_buy event then 1 else -(1) in
  let trade_quantity := te_quantity event * direction in
  let old := positions_ pm !! te_symbol event in
  let position_existed := match old with Some _ => true | None => false end in
  let old_market_value :=
    match old with Some p => Position.get_market_value p | None => 0 end in
  let old_unrealized_pnl :=
    match old with Some p => Position.unrealized_pnl_ p | None => 0 end in
  let old_realized_pnl :=
    match old with Some p => Position.realized_pnl_ p | None => 0 end in
  let was_long :=
    match old with Some p => Position.is_long p | None => false end in
  let was_short :=
    match old with Some p => Position.is_short p | None => false end in
  let '(position0, pm0) := get_or_create_position pm (te_symbol event) in
  let '(realized_pnl_from_trade, position) :=
    Position.adjust_position position0 trade_quantity (te_price event) in
  let pm1 := with_positions (insert (te_symbol event) position) pm0 in
  let new_market_value := Position.get_market_value position in
  let new_unrealized_pnl := Position.unrealized_pnl_ position in
  let new_realized_pnl := Position.realized_pnl_ position in
  let is_now_long := Position.is_long position in
  let is_now_short := Position.is_short position in
  let is_now_flat := Position.is_flat position in
  let pm2 :=
    update_portfolio_statistics pm1 old_market_value new_market_value
      realized_pnl_from_trade in
  let pm3 :=
    if negb position_existed && negb is_now_flat then
      with_stats
        (add_counts 1 (if is_now_long then 1 else 0)
           (if is_now_long then 0 else if is_now_short then 1 else 0))%Z pm2
    else if position_existed && is_now_flat then
      remove_flat_position
        (with_stats
           (add_counts (-1) (if was_long then -1 else 0)
              (if was_long then 0 else if was_short then -1 else 0))%Z pm2)
        (te_symbol event)
    else if position_existed then
      if was_long && is_now_short then with_stats (add_counts 0 (-1) 1)%Z pm2
      else if was_short && is_now_long then with_stats (add_counts 0 1 (-1))%Z pm2
      else pm2
    else pm2 in
  let unrealized_pnl_change := new_unrealized_pnl - old_unrealized_pnl in
  let realized_pnl_change := new_realized_pnl - old_realized_pnl in
  let pm4 :=
    if Qltb eps (Qabs unrealized_pnl_change)
    then with_stats (add_total_unrealized_pnl unrealized_pnl_change) pm3
    else pm3 in
  let pm5 :=
    if Qltb eps (Qabs realized_pnl_change)
    then with_stats (add_total_realized_pnl realized_pnl_change) pm4
    else pm4 in
  let market_value_change := new_market_value - old_market_value in
  if Qltb eps (Qabs market_value_change) then
    invalidate_cache (with_stats (add_total_equity market_value_change) pm5)
  else pm5.

Definition on_trade_execution (pm : PositionManager)
  (event : TradeExecutionEvent) : PositionManager :=
  let pm1 := push_trade event pm in
  let direction : Q := if te_is_buy event then -(1) else 1 in
  let trade_value := te_quantity event * te_price event in
  let cash_change := direction * trade_value - te_commission event in
  let pm2 := with_stats (add_available_cash cash_change) pm1 in
  update_position_on_fill_lockfree pm2 event.

(** [recalculate_portfolio_totals]: the full recomputation from the map. *)
Definition recalculate_portfolio_totals (pm : PositionManager)
  : PositionManager :=
  let live (p : Position.Position) := negb (Position.is_flat p) in
  let sum (f : Position.Position -> Q) :=
    map_fold (fun _ p acc => if live p then acc + f p else acc) 0
      (positions_ pm) in
  let count (f : Position.Position -> bool) :=
    map_fold (fun _ p acc => if live p && f p then (acc + 1)%Z else acc) 0%Z
      (positions_ pm) in
  let tmv := sum Position.get_market_value in
  let tu := sum Position.unrealized_pnl_ in
  let tr := sum Position.realized_pnl_ in
  let cash := available_cash (portfolio_stats_ pm) in
  let equity := cash + tmv in
  with_cache equity true
    (with_stats
       (fun _ =>
          {| total_equity := equity;
             available_cash := cash;
             total_market_value := tmv;
             total_unrealized_pnl := tu;
             total_realized_pnl := tr;
             total_pnl := tr + tu;
             total_positions := count (fun _ => true);
             long_positions := count Position.is_long;
             short_positions :=
               count (fun p => negb (Position.is_long p) && Position.is_short p)
          |}) pm).

(** A run of the ledger: bars and fills in the order the dispatch loop
    hands them over. *)
Inductive ledger_op :=
| OnBar (e : MarketDataEvent)
| OnFill (e : TradeExecutionEvent).

Definition op_symbol (op : ledger_op) : string :=
  match op with
  | OnBar e => md_symbol e
  | OnFill e => te_symbol e
  end.

Definition is_bar_for (symbol : string) (op : ledger_op) : bool :=
  match op with
  | OnBar e => String.eqb (md_symbol e) symbol
  | OnFill _ => false
  end.

Definition apply_op (pm : PositionManager) (op : ledger_op) : PositionManager :=
  match op with
  | OnBar e => on_market_data pm e
  | OnFill e => on_trade_execution pm e
  end.

Definition run_ops (pm : PositionManager) (ops : list ledger_op)
  : PositionManager := fold_left apply_op ops pm.

(** The signed quantity of a fill: positive for a buy, negative for a sell. *)
Definition signed_quantity (e : TradeExecutionEvent) : Q :=
  te_quantity e * (if te_is_buy e then 1 else -(1)).

(** The position of [symbol], if there is one, has never been marked. *)
Definition mark_is_zero (symbol : string) (pm : PositionManager) : Prop :=
  forall p, positions_ pm !! symbol = Some p -> Position.current_price_ p = 0.

Definition get_total_pnl (pm : PositionManager) : Q :=
  total_pnl (portfolio_stats_ pm).

Definition get_trade_history (pm : PositionManager)
  : list TradeExecutionEvent := trade_history_ pm.

Definition get_equity_curve (pm : PositionManager) : list Q :=
  equity_curve_ pm.

(** [get_portfolio_statistics]: the snapshot of the statistics block with
    [total_pnl] recomputed from the two P&L totals. *)
Definition get_portfolio_statistics (pm : PositionManager)
  : PortfolioStatistics :=
  let snapshot := portfolio_stats_ pm in
  {| total_equity := total_equity snapshot;
     available_cash := available_cash snapshot;
     total_market_value := total_market_value snapshot;
     total_unrealized_pnl := total_unrealized_pnl snapshot;
     total_realized_pnl := total_realized_pnl snapshot;
     total_pnl := total_realized_pnl snapshot + total_unrealized_pnl snapshot;
     total_positions := total_positions snapshot;
     long_positions := long_positions snapshot;
     short_positions := short_positions snapshot |}.

(** The fills of a run, in order, and the cash each one moves: the trade
    value, paid by a buy and received by a sell, less the commission. *)
Definition fills_of (ops : list ledger_op) : list TradeExecutionEvent :=
  flat_map (fun op => match op with OnFill e => [e] | OnBar _ => [] end) ops.

Definition cash_flow (e : TradeExecutionEvent) : Q :=
  (if te_is_buy e then -(1) else 1) * (te_quantity e * te_price e)
  - te_commission e.

Definition total_cash_flow (fills : list TradeExecutionEvent) : Q :=
  fold_left (fun acc e => acc + cash_flow e) fills 0.

(** The equity cache, when valid, holds the value of the statistics block. *)
Definition cache_coherent (pm : PositionManager) : Prop :=
  equity_cache_valid_ pm = true ->
  cached_total_equity_ pm = total_equity (portfolio_stats_ pm).

End PositionManager.

(** ** Sequences and the ring buffer (core/atomic_sequence.h,
       core/disruptor_queue.h) *)

Module Disruptor.

Import Num.
Local Open Scope Z_scope.

Inductive WaitStrategyType := BUSY_SPIN | YIELDING | SLEEPING | BLOCKING.

Record Config := {
  buffer_size : Z;
  wait_strategy : WaitStrategyType;
  multi_producer : bool;
  multi_consumer : bool
}.

(** [Config{}] with the given size. *)
Definition config_of_size (n : Z) : Config :=
  {| buffer_size := n; wait_strategy := YIELDING;
     multi_producer := true; multi_consumer := true |}.

Definition default_config : Config := config_of_size (1024 * 1024).

(** The loop [while (next_power < buffer_size) next_power <<= 1] on a
    [size_t].  After 64 shifts [next_power] is 0 and stays 0, so running out
    of the fuel given by [validate] means that the loop never ends. *)
Fixpoint next_power_loop (fuel : nat) (next_power size : Z) : option Z :=
  if next_power <? size then
    match fuel with
    | O => None
    | S fuel' =>
        next_power_loop fuel' (wrap_uint64 (Z.shiftl next_power 1)) size
    end
  else Some next_power.

Definition with_buffer_size (n : Z) (c : Config) : Config :=
  {| buffer_size := n; wait_strategy := wait_strategy c;
     multi_producer := multi_producer c; multi_consumer := multi_consumer c |}.

(** [Config::validate]; [None] when the rounding loop does not terminate. *)
Definition validate (c : Config) : option Config :=
  let rounded :=
    if negb (Z.land (buffer_size c) (wrap_uint64 (buffer_size c - 1)) =? 0)
    then next_power_loop 65 1 (buffer_size c)
    else Some (buffer_size c) in
  match rounded with
  | Some n => Some (with_buffer_size (if n <? 2 then 2 else n) c)
  | None => None
  end.

(** [SequenceBarrier::get_minimum_sequence_of_dependencies]. *)
Definition get_minimum_sequence_of_dependencies
  (dependency_sequences : list Z) (available_sequence : Z) : Z :=
  fold_left (fun minimum dependency_sequence =>
               if dependency_sequence <? minimum then dependency_sequence
               else minimum)
    dependency_sequences available_sequence.

(** [SequenceBarrier::try_wait_for]. *)
Definition try_wait_for (producer_sequence : Z) (dependency_sequences : list Z)
  (sequence : Z) : Z :=
  let available_sequence := producer_sequence in
  if available_sequence <? sequence then -1
  else get_minimum_sequence_of_dependencies dependency_sequences
         available_sequence.

Section Queue.

(** [T] is a pointer type: [None] is [nullptr], [Some e] points to [e]. *)
Context {E : Type}.

Record DisruptorQueue := {
  config_ : Config;
  buffer_mask_ : Z;
  buffer_ : list (option E);
  cursor_ : Z;
  consumer_sequence_ : Z;
  barrier_dependencies_ : list Z
}.

(** The constructor.  The member initialisers run first, on the
    configuration as passed in; [config_.validate()] runs in the body. *)
Definition new (config : Config) : option DisruptorQueue :=
  let buffer_mask := wrap_uint64 (buffer_size config - 1) in
  let buffer := replicate (Z.to_nat (buffer_size config)) (@None E) in
  match validate config with
  | Some config' =>
      Some {| config_ := config';
              buffer_mask_ := buffer_mask;
              buffer_ := buffer;
              cursor_ := -1;
              consumer_sequence_ := -1;
              barrier_dependencies_ := [] |}
  | None => None
  end.

Definition capacity (q : DisruptorQueue) : Z := buffer_size (config_ q).

Definition empty (q : DisruptorQueue) : bool :=
  consumer_sequence_ q >=? cursor_ q.

Definition size (q : DisruptorQueue) : Z :=
  Z.max 0 (wrap_int64 (cursor_ q - consumer_sequence_ q)).

Definition set_cursor (v : Z) (q : DisruptorQueue) : DisruptorQueue :=
  {| config_ := config_ q; buffer_mask_ := buffer_mask_ q;
     buffer_ := buffer_ q; cursor_ := v;
     consumer_sequence_ := consumer_sequence_ q;
     barrier_dependencies_ := barrier_dependencies_ q |}.

Definition set_consumer_sequence (v : Z) (q : DisruptorQueue) : DisruptorQueue :=
  {| config_ := config_ q; buffer_mask_ := buffer_mask_ q;
     buffer_ := buffer_ q; cursor_ := cursor_ q;
     consumer_sequence_ := v;
     barrier_dependencies_ := barrier_dependencies_ q |}.

(** [buffer_[index].store(v)]; [None] is an access outside the vector. *)
Definition store_slot (index : Z) (v : option E) (q : DisruptorQueue)
  : option DisruptorQueue :=
  if (0 <=? index) && (index <? Z.of_nat (length (buffer_ q))) then
    Some {| config_ := config_ q; buffer_mask_ := buffer_mask_ q;
            buffer_ := <[Z.to_nat index := v]> (buffer_ q);
            cursor_ := cursor_ q;
            consumer_sequence_ := consumer_sequence_ q;
            barrier_dependencies_ := barrier_dependencies_ q |}
  else None.

(** [buffer_[index].load()]; [None] is an access outside the vector. *)
Definition load_slot (index : Z) (q : DisruptorQueue) : option (option E) :=
  if 0 <=? index then buffer_ q !! Z.to_nat index else None.

(** The slot of a sequence: [static_cast<size_t>(sequence) & buffer_mask_]. *)
Definition slot_index (q : DisruptorQueue) (sequence : Z) : Z :=
  Z.land (wrap_uint64 sequence) (buffer_mask_ q).

(** [claim_next_sequence]: the claimed sequence, or -1 when full.  The
    compare-and-set on the cursor follows the read of it within the same
    atomic step and succeeds, so the retry by recursion is never taken. *)
Definition claim_next_sequence (q : DisruptorQueue) : Z * DisruptorQueue :=
  let current_sequence := cursor_ q in
  let next_sequence := wrap_int64 (current_sequence + 1) in
  let wrap_point :=
    wrap_int64 (next_sequence - wrap_int64 (buffer_size (config_ q))) in
  let cached_consumer_sequence := consumer_sequence_ q in
  let full :=
    if wrap_point >? cached_consumer_sequence then
      let fresh_consumer_sequence := consumer_sequence_ q in
      wrap_point >? fresh_consumer_sequence
    else false in
  if full then (-1, q)
  else (next_sequence, set_cursor next_sequence q).

Definition try_publish (q : DisruptorQueue) (event : option E)
  : option (bool * DisruptorQueue) :=
  let '(next_sequence, q1) := claim_next_sequence q in
  if next_sequence <? 0 then Some (false, q1)
  else
    match store_slot (slot_index q1 next_sequence) event q1 with
    | Some q2 => Some (true, q2)
    | None => None
    end.

Definition try_consume (q : DisruptorQueue)
  : option (option E * DisruptorQueue) :=
  let next_consume_sequence := wrap_int64 (consumer_sequence_ q + 1) in
  let available_sequence :=
    try_wait_for (cursor_ q) (barrier_dependencies_ q) next_consume_sequence in
  if available_sequence <? next_consume_sequence then Some (None, q)
  else
    let index := slot_index q next_consume_sequence in
    match load_slot index q with
    | Some event =>
        match store_slot index None q with
        | Some q1 =>
            Some (event, set_consumer_sequence next_consume_sequence q1)
        | None => None
        end
    | None => None
    end.

(** The two halves of [try_publish], for a schedule in which a call of the
    consumer runs between them: the claim of the sequence, which already
    moves the cursor, and the store of the event into the slot. *)
Definition publish_claim (q : DisruptorQueue) : Z * DisruptorQueue :=
  claim_next_sequence q.

Definition publish_store (q : DisruptorQueue) (next_sequence : Z)
  (event : option E) : option DisruptorQueue :=
  store_slot (slot_index q next_sequence) event q.

(** A schedule of calls by one producer and one consumer that do not
    overlap (each call runs from its first to its last access before the
    next one starts), and what each call returned. *)
Inductive op := Publish (e : E) | Consume.

Inductive outcome := Published (ok : bool) | Consumed (e : option E).

Fixpoint run (q : DisruptorQueue) (ops : list op)
  : option (list outcome * DisruptorQueue) :=
  match ops with
  | [] => Some ([], q)
  | Publish e :: ops' =>
      match try_publish q (Some e) with
      | Some (ok, q1) =>
          match run q1 ops' with
          | Some (outs, q2) => Some (Published ok :: outs, q2)
          | None => None
          end
      | None => None
      end
  | Consume :: ops' =>
      match try_consume q with
      | Some (e, q1) =>
          match run q1 ops' with
          | Some (outs, q2) => Some (Consumed e :: outs, q2)
          | None => None
          end
      | None => None
      end
  end.

(** The events whose [try_publish] returned true, in call order. *)
Fixpoint published_events (ops : list op) (outs : list outcome) : list E :=
  match ops, outs with
  | Publish e :: ops', Published ok :: outs' =>
      if ok then e :: published_events ops' outs'
      else published_events ops' outs'
  | _ :: ops', _ :: outs' => published_events ops' outs'
  | _, _ => []
  end.

(** The events returned by [try_consume], in call order. *)
Fixpoint consumed_events (outs : list outcome) : list E :=
  match outs with
  | Consumed (Some e) :: outs' => e :: consumed_events outs'
  | _ :: outs' => consumed_events outs'
  | [] => []
  end.

(** The state of a queue built with the power-of-two size [2 ^ k] after the
    events [pub] were published, in this order: the sequences between the
    consumer and the cursor are the events not yet consumed, each in the slot
    of its sequence. *)
Definition queue_inv (k : Z) (pub : list E) (q : DisruptorQueue) : Prop :=
  buffer_size (config_ q) = 2 ^ k /\
  buffer_mask_ q = 2 ^ k - 1 /\
  Z.of_nat (length (buffer_ q)) = 2 ^ k /\
  barrier_dependencies_ q = [] /\
  -1 <= consumer_sequence_ q <= cursor_ q /\
  cursor_ q - consumer_sequence_ q <= 2 ^ k /\
  cursor_ q + 1 = Z.of_nat (length pub) /\
  (forall s, consumer_sequence_ q < s <= cursor_ q ->
     buffer_ q !! Z.to_nat (s mod 2 ^ k) = Some (pub !! Z.to_nat s)).

(** [clear_internal]: every slot is set to [nullptr]. *)
Definition clear_internal (q : DisruptorQueue) : DisruptorQueue :=
  {| config_ := config_ q; buffer_mask_ := buffer_mask_ q;
     buffer_ := map (fun _ => None) (buffer_ q);
     cursor_ := cursor_ q;
     consumer_sequence_ := consumer_sequence_ q;
     barrier_dependencies_ := barrier_dependencies_ q |}.

(** [clear]: empties the slots and moves the consumer up to the cursor. *)
Definition clear (q : DisruptorQueue) : DisruptorQueue :=
  let q1 := clear_internal q in
  set_consumer_sequence (cursor_ q1) q1.

End Queue.

Arguments DisruptorQueue : clear implicits.
Arguments op : clear implicits.
Arguments outcome : clear implicits.

(** The producer-consumer stress run: event [i] is published and the
    consumer, keeping pace, takes it out before the next one is published.
    The state is the next event number, the number of failed publishes,
    whether every consume returned the event just published, and the queue. *)
Record stress_state := {
  st_next : N;
  st_failed_publishes : N;
  st_in_order : bool;
  st_queue : DisruptorQueue N
}.

Definition stress_step (s : option stress_state) : option stress_state :=
  match s with
  | Some st =>
      match try_publish (st_queue st) (Some (st_next st)) with
      | Some (ok, q1) =>
          match try_consume q1 with
          | Some (e, q2) =>
              Some {| st_next := N.succ (st_next st);
                      st_failed_publishes :=
                        if ok then st_failed_publishes st
                        else N.succ (st_failed_publishes st);
                      st_in_order :=
                        st_in_order st &&
                        match e with
                        | Some i => N.eqb i (st_next st)
                        | None => false
                        end;
                      st_queue := q2 |}
          | None => None
          end
      | None => None
      end
  | None => None
  end.

Definition producer_consumer_stress (size : Z) (n : N) : option stress_state :=
  match new (config_of_size size) with
  | Some q0 =>
      N.iter n stress_step
        (Some {| st_next := 0; st_failed_publishes := 0;
                 st_in_order := true; st_queue := q0 |})
  | None => None
  end.

End Disruptor.

(** ** Event pool and dispatch loop (core/hpc_utils.h, core/event_pool.h,
       core/event_queue.h, core/backtest_engine.cpp) *)

Module Engine.

Import Num Events.

(** [MemoryPool<T>]: blocks are numbered in allocation order; a block is
    either on the free list or handed out ([is_allocated]). *)
Record MemoryPool := {
  free_list_ : list nat;
  allocated_ : gset nat;
  current_size_ : nat;
  growth_factor : nat;
  max_pool_size : nat
}.

Definition push_free_block (b : nat) (p : MemoryPool) : MemoryPool :=
  {| free_list_ := b :: free_list_ p; allocated_ := allocated_ p;
     current_size_ := current_size_ p; growth_factor := growth_factor p;
     max_pool_size := max_pool_size p |}.

(** [allocate_chunk(count)]: the new blocks go onto the free list one by one. *)
Definition allocate_chunk (count : nat) (p : MemoryPool) : MemoryPool :=
  let p' := fold_left (fun acc b => push_free_block b acc)
              (seq (current_size_ p) count) p in
  {| free_list_ := free_list_ p'; allocated_ := allocated_ p';
     current_size_ := current_size_ p + count;
     growth_factor := growth_factor p; max_pool_size := max_pool_size p |}.

(** [MemoryPool(Config{})]: 1000 blocks, growth factor 2, at most 100000. *)
Definition new_pool : MemoryPool :=
  allocate_chunk 1000
    {| free_list_ := []; allocated_ := ∅; current_size_ := 0;
       growth_factor := 2; max_pool_size := 100 * 1000 |}.

(** The product of two [size_t] values. *)
Definition size_t_mul (a b : nat) : nat :=
  Z.to_nat (wrap_uint64 (Z.of_nat a * Z.of_nat b)).

(** [expand_pool], with [None] for [false].  One call runs at a time, so
    the [expanding_] flag is free when it is tested; the memory for the new
    chunk is taken to be granted, so [allocate_chunk] does not throw and the
    [catch] branch, which also returns [false], is not entered. *)
Definition expand_pool (p : MemoryPool) : option MemoryPool :=
  let current := current_size_ p in
  let new_size :=
    Nat.min (size_t_mul current (growth_factor p)) (max_pool_size p) in
  if (new_size <=? current)%nat then None
  else Some (allocate_chunk (new_size - current) p).

Definition pop_free_block (p : MemoryPool) : option (nat * MemoryPool) :=
  match free_list_ p with
  | b :: rest =>
      Some (b, {| free_list_ := rest; allocated_ := allocated_ p;
                  current_size_ := current_size_ p;
                  growth_factor := growth_factor p;
                  max_pool_size := max_pool_size p |})
  | [] => None
  end.

Definition mark_allocated (b : nat) (p : MemoryPool) : MemoryPool :=
  {| free_list_ := free_list_ p; allocated_ := {[ b ]} ∪ allocated_ p;
     current_size_ := current_size_ p; growth_factor := growth_factor p;
     max_pool_size := max_pool_size p |}.

(** [allocate]: the block handed out, or [None] for [nullptr]. *)
Definition allocate (p : MemoryPool) : option nat * MemoryPool :=
  match pop_free_block p with
  | Some (b, p') => (Some b, mark_allocated b p')
  | None =>
      match expand_pool p with
      | Some p1 =>
          match pop_free_block p1 with
          | Some (b, p2) => (Some b, mark_allocated b p2)
          | None => (None, p1)
          end
      | None => (None, p)
      end
  end.

(** [deallocate]: clears [is_allocated] and pushes the block back. *)
Definition deallocate (b : nat) (p : MemoryPool) : MemoryPool :=
  push_free_block b
    {| free_list_ := free_list_ p; allocated_ := allocated_ p ∖ {[ b ]};
       current_size_ := current_size_ p; growth_factor := growth_factor p;
       max_pool_size := max_pool_size p |}.

Record EventPool := {
  market_data_pool_ : MemoryPool;
  signal_pool_ : MemoryPool;
  execution_pool_ : MemoryPool
}.

Definition new_event_pool : EventPool :=
  {| market_data_pool_ := new_pool; signal_pool_ := new_pool;
     execution_pool_ := new_pool |}.

(** An [Event*]: the block it lives in and the event stored there.  The
    [create_*] functions return [None] for the [nullptr] of an exhausted
    pool. *)
Record EventPtr := { ptr_block : nat; ptr_event : Event }.

Definition create_market_data_event (pool : EventPool) (e : MarketDataEvent)
  : option EventPtr * EventPool :=
  let '(b, p) := allocate (market_data_pool_ pool) in
  (option_map (fun b => {| ptr_block := b; ptr_event := EvMarketData e |}) b,
   {| market_data_pool_ := p; signal_pool_ := signal_pool_ pool;
      execution_pool_ := execution_pool_ pool |}).

Definition create_trading_signal_event (pool : EventPool)
  (e : TradingSignalEvent) : option EventPtr * EventPool :=
  let '(b, p) := allocate (signal_pool_ pool) in
  (option_map (fun b => {| ptr_block := b; ptr_event := EvTradingSignal e |}) b,
   {| market_data_pool_ := market_data_pool_ pool; signal_pool_ := p;
      execution_pool_ := execution_pool_ pool |}).

Definition create_trade_execution_event (pool : EventPool)
  (e : TradeExecutionEvent) : option EventPtr * EventPool :=
  let '(b, p) := allocate (execution_pool_ pool) in
  (option_map (fun b => {| ptr_block := b; ptr_event := EvTradeExecution e |}) b,
   {| market_data_pool_ := market_data_pool_ pool;
      signal_pool_ := signal_pool_ pool; execution_pool_ := p |}).

(** [EventPool::destroy_event]. *)
Definition destroy_event (pool : EventPool) (event : option EventPtr)
  : EventPool :=
  match event with
  | None => pool
  | Some ptr =>
      match get_type (ptr_event ptr) with
      | MARKET_DATA =>
          {| market_data_pool_ :=
               deallocate (ptr_block ptr) (market_data_pool_ pool);
             signal_pool_ := signal_pool_ pool;
             execution_pool_ := execution_pool_ pool |}
      | TRADING_SIGNAL =>
          {| market_data_pool_ := market_data_pool_ pool;
             signal_pool_ := deallocate (ptr_block ptr) (signal_pool_ pool);
             execution_pool_ := execution_pool_ pool |}
      | TRADE_EXECUTION =>
          {| market_data_pool_ := market_data_pool_ pool;
             signal_pool_ := signal_pool_ pool;
             execution_pool_ :=
               deallocate (ptr_block ptr) (execution_pool_ pool) |}
      end
  end.

(** Whether the block of an event is handed out by its pool. *)
Definition is_allocated (pool : EventPool) (ptr : EventPtr) : Prop :=
  match get_type (ptr_event ptr) with
  | MARKET_DATA => ptr_block ptr ∈ allocated_ (market_data_pool_ pool)
  | TRADING_SIGNAL => ptr_block ptr ∈ allocated_ (signal_pool_ pool)
  | TRADE_EXECUTION => ptr_block ptr ∈ allocated_ (execution_pool_ pool)
  end.

(** No block handed out by the first pool has been taken back in the
    second. *)
Definition pool_le (a b : EventPool) : Prop :=
  allocated_ (market_data_pool_ a) ⊆ allocated_ (market_data_pool_ b) /\
  allocated_ (signal_pool_ a) ⊆ allocated_ (signal_pool_ b) /\
  allocated_ (execution_pool_ a) ⊆ allocated_ (execution_pool_ b).

(** The bookkeeping of a pool is sound: the free list has no duplicates, a
    free block is not handed out, and every block belongs to the pool. *)
Definition pool_ok (p : MemoryPool) : Prop :=
  NoDup (free_list_ p) /\
  (forall b, b ∈ free_list_ p ->
     (b ∉ allocated_ p) /\ (b < current_size_ p)%nat) /\
  (forall b, b ∈ allocated_ p -> (b < current_size_ p)%nat).

(** The collaborators of the loop, by their interfaces: a strategy consumes
    bars and may emit a signal, the execution simulator turns a signal and a
    reference price into a fill or nothing. *)
Class Strategy (S : Type) := {
  strategy_on_market_data : S -> MarketDataEvent -> S;
  strategy_generate_signal : S -> option TradingSignalEvent * S
}.

Class ExecutionSimulator (X : Type) := {
  simulate_order_execution :
    X -> TradingSignalEvent -> Q -> option TradeExecutionEvent * X
}.

Section Loop.

Context {S X : Type} `{Strategy S} `{ExecutionSimulator X}.

(** The engine.  [event_queue_] is what the bus holds, in arrival order, as
    the mutex-based backend of [EventQueue] keeps it in
    [traditional_queue_]: [enqueue] appends at the back, [dequeue] takes the
    front or returns [nullptr].  With the ring backend ([use_disruptor], the
    default) the same two calls go to [DisruptorQueue::publish] and
    [try_consume], which are modelled on their own in [Disruptor].
    [event_pool_] is the function-local static pool of
    [get_event_pool_safe]. *)
Record BacktestEngine := {
  event_queue_ : list EventPtr;
  event_pool_ : EventPool;
  strategies_ : gmap string S;
  position_manager_ : PositionManager.PositionManager;
  execution_simulator_ : X
}.

Definition get_next_event_safe (en : BacktestEngine)
  : option EventPtr * BacktestEngine :=
  match event_queue_ en with
  | [] => (None, en)
  | e :: rest =>
      (Some e,
       {| event_queue_ := rest; event_pool_ := event_pool_ en;
          strategies_ := strategies_ en;
          position_manager_ := position_manager_ en;
          execution_simulator_ := execution_simulator_ en |})
  end.

Definition add_event_safe (event : option EventPtr) (en : BacktestEngine)
  : BacktestEngine :=
  match event with
  | Some e =>
      {| event_queue_ := event_queue_ en ++ [e]; event_pool_ := event_pool_ en;
         strategies_ := strategies_ en;
         position_manager_ := position_manager_ en;
         execution_simulator_ := execution_simulator_ en |}
  | None => en
  end.

Definition process_market_data_event (en : BacktestEngine)
  (event : MarketDataEvent) : BacktestEngine :=
  let pm := PositionManager.on_market_data (position_manager_ en) event in
  match strategies_ en !! md_symbol event with
  | Some s =>
      let s1 := strategy_on_market_data s event in
      let '(sig, s2) := strategy_generate_signal s1 in
      let '(signal, pool) :=
        match sig with
        | Some e => create_trading_signal_event (event_pool_ en) e
        | None => (None, event_pool_ en)
        end in
      add_event_safe signal
        {| event_queue_ := event_queue_ en; event_pool_ := pool;
           strategies_ := <[md_symbol event := s2]> (strategies_ en);
           position_manager_ := pm;
           execution_simulator_ := execution_simulator_ en |}
  | None =>
      {| event_queue_ := event_queue_ en; event_pool_ := event_pool_ en;
         strategies_ := strategies_ en; position_manager_ := pm;
         execution_simulator_ := execution_simulator_ en |}
  end.

Definition process_trading_signal_event (en : BacktestEngine)
  (event : TradingSignalEvent) : BacktestEngine :=
  let current_price : Q := 100%Q in
  let '(fill, x) :=
    simulate_order_execution (execution_simulator_ en) event current_price in
  let '(execution_event, pool) :=
    match fill with
    | Some e => create_trade_execution_event (event_pool_ en) e
    | None => (None, event_pool_ en)
    end in
  add_event_safe execution_event
    {| event_queue_ := event_queue_ en; event_pool_ := pool;
       strategies_ := strategies_ en;
       position_manager_ := position_manager_ en;
       execution_simulator_ := x |}.

Definition process_trade_execution_event (en : BacktestEngine)
  (event : TradeExecutionEvent) : BacktestEngine :=
  {| event_queue_ := event_queue_ en; event_pool_ := event_pool_ en;
     strategies_ := strategies_ en;
     position_manager_ :=
       PositionManager.on_trade_execution (position_manager_ en) event;
     execution_simulator_ := execution_simulator_ en |}.

(** One turn of the [while] loop of [process_events]: the event taken from
    the bus, if any, and the engine after its dispatch. *)
Definition process_one (en : BacktestEngine)
  : option EventPtr * BacktestEngine :=
  let '(event, en1) := get_next_event_safe en in
  match event with
  | None => (None, en1)
  | Some ptr =>
      (Some ptr,
       match ptr_event ptr with
       | EvMarketData e => process_market_data_event en1 e
       | EvTradingSignal e => process_trading_signal_event en1 e
       | EvTradeExecution e => process_trade_execution_event en1 e
       end)
  end.

(** [process_events] for as many turns as the loop condition (stop flag and
    data handler, both driven from outside) lets it run; returns the events
    dispatched, in order, and the engine. *)
Fixpoint process_events (turns : nat) (en : BacktestEngine)
  : list EventPtr * BacktestEngine :=
  match turns with
  | O => ([], en)
  | Datatypes.S turns' =>
      let '(event, en1) := process_one en in
      let '(events, en2) := process_events turns' en1 in
      (match event with Some e => e :: events | None => events end, en2)
  end.

End Loop.

Arguments BacktestEngine : clear implicits.

End Engine.

(** ** Orders and price levels (execution/price_level.h) *)

Module Order.

Import Num.
Local Open Scope Q_scope.

Inductive Side := BUY | SELL.

Inductive Status := ACTIVE | PARTIALLY_FILLED | FULLY_FILLED | CANCELLED.

Definition Status_eqb (a b : Status) : bool :=
  match a, b with
  | ACTIVE, ACTIVE | PARTIALLY_FILLED, PARTIALLY_FILLED
  | FULLY_FILLED, FULLY_FILLED | CANCELLED, CANCELLED => true
  | _, _ => false
  end.

(** The creation time and the priority derived from it are clock readings
    and are left out; no operation of the book reads them. *)
Record Order := {
  order_id : Z;
  symbol : string;
  side : Side;
  price : Q;
  quantity : Q;
  original_quantity : Q;
  status : Status
}.

(** [Order(id, sym, s, p, q)]. *)
Definition make (id : Z) (sym : string) (s : Side) (p q : Q) : Order :=
  {| order_id := id; symbol := sym; side := s; price := p;
     quantity := q; original_quantity := q; status := ACTIVE |}.

Definition set_quantity_status (q : Q) (st : Status) (o : Order) : Order :=
  {| order_id := order_id o; symbol := symbol o; side := side o;
     price := price o; quantity := q;
     original_quantity := original_quantity o; status := st |}.

(** [try_fill]: the quantity filled and the order after it.  Both
    compare-and-swaps follow their loads within the step and succeed. *)
Definition try_fill (o : Order) (fill_quantity : Q) : Q * Order :=
  let current_qty := quantity o in
  if Qltb 0 current_qty && Qltb 0 fill_quantity then
    let actual_fill := std_min current_qty fill_quantity in
    let new_qty := current_qty - actual_fill in
    let new_status :=
      if Qeq_bool new_qty 0 then FULLY_FILLED else PARTIALLY_FILLED in
    (actual_fill, set_quantity_status new_qty new_status o)
  else (0, o).

Definition is_active (o : Order) : bool :=
  (Status_eqb (status o) ACTIVE || Status_eqb (status o) PARTIALLY_FILLED) &&
  Qltb 0 (quantity o).

Definition get_remaining_quantity (o : Order) : Q := quantity o.

(** What can happen to one resting order: a fill attempt, or the store of
    CANCELLED that [PriceLevel::remove_order] performs on it. *)
Inductive order_op := Fill (fill_quantity : Q) | Cancel.

Definition apply_order_op (o : Order) (op : order_op) : Order :=
  match op with
  | Fill fill_quantity => snd (try_fill o fill_quantity)
  | Cancel => set_quantity_status (quantity o) CANCELLED o
  end.

Definition run_order_ops (o : Order) (ops : list order_op) : Order :=
  fold_left apply_order_op ops o.

(** The part of the order state machine that concerns quantities. *)
Definition order_ok (o : Order) : Prop :=
  0 <= quantity o /\ quantity o <= original_quantity o /\
  (status o = FULLY_FILLED -> quantity o == 0).

End Order.

Module PriceLevel.

Import Num.
Local Open Scope Q_scope.

(** The chain is the linked list from [head_]: its first element is the
    order [head_] points to. *)
Record PriceLevel := {
  price_ : Q;
  total_quantity_ : Q;
  order_count_ : Z;
  chain_ : list Order.Order
}.

Definition make (price : Q) : PriceLevel :=
  {| price_ := price; total_quantity_ := 0; order_count_ := 0; chain_ := [] |}.

Definition is_opposite_side (side1 side2 : Order.Side) : bool :=
  match side1, side2 with
  | Order.BUY, Order.SELL | Order.SELL, Order.BUY => true
  | _, _ => false
  end.

(** [add_order]: refuses an order of another price, else links it in at the
    head. *)
Definition add_order (l : PriceLevel) (order : Order.Order)
  : bool * PriceLevel :=
  if Qltb eps (Qabs (Order.price order - price_ l)) then (false, l)
  else
    (true,
     {| price_ := price_ l;
        total_quantity_ :=
          total_quantity_ l + Order.get_remaining_quantity order;
        order_count_ := wrap_uint64 (order_count_ l + 1);
        chain_ := order :: chain_ l |}).

(** The walk of [match_orders] from [current] on: the chain after it, the
    quantity matched and the quantity still wanted. *)
Fixpoint walk_chain (chain : list Order.Order) (side : Order.Side)
  (total_matched remaining_quantity : Q) : list Order.Order * Q * Q :=
  match chain with
  | [] => ([], total_matched, remaining_quantity)
  | current :: rest =>
      if Qltb 0 remaining_quantity then
        if is_opposite_side (Order.side current) side && Order.is_active current
        then
          let '(matched, current') := Order.try_fill current remaining_quantity in
          let '(total_matched', remaining') :=
            if Qltb 0 matched
            then (total_matched + matched, remaining_quantity - matched)
            else (total_matched, remaining_quantity) in
          let '(rest', t, r) := walk_chain rest side total_matched' remaining' in
          (current' :: rest', t, r)
        else
          let '(rest', t, r) :=
            walk_chain rest side total_matched remaining_quantity in
          (current :: rest', t, r)
      else (chain, total_matched, remaining_quantity)
  end.

Definition match_orders (l : PriceLevel) (side : Order.Side)
  (quantity max_price min_price : Q) : Q * PriceLevel :=
  if match side with Order.BUY => true | _ => false end
     && Qltb 0 max_price && Qltb max_price (price_ l) then (0, l)
  else if match side with Order.SELL => true | _ => false end
     && Qltb 0 min_price && Qltb (price_ l) min_price then (0, l)
  else
    let '(chain', total_matched, _) := walk_chain (chain_ l) side 0 quantity in
    (total_matched,
     {| price_ := price_ l;
        total_quantity_ := total_quantity_ l - total_matched;
        order_count_ := order_count_ l;
        chain_ := chain' |}).

(** The scan of [remove_order]: the first order with the id is marked
    cancelled; returns its remaining quantity when it was found. *)
Fixpoint cancel_in_chain (chain : list Order.Order) (id : Z)
  : option Q * list Order.Order :=
  match chain with
  | [] => (None, [])
  | current :: rest =>
      if Z.eqb (Order.order_id current) id then
        (Some (Order.get_remaining_quantity current),
         Order.set_quantity_status (Order.quantity current) Order.CANCELLED
           current :: rest)
      else
        let '(r, rest') := cancel_in_chain rest id in (r, current :: rest')
  end.

Definition remove_order (l : PriceLevel) (id : Z) : bool * PriceLevel :=
  match cancel_in_chain (chain_ l) id with
  | (Some removed_quantity, chain') =>
      (true,
       {| price_ := price_ l;
          total_quantity_ := total_quantity_ l - removed_quantity;
          order_count_ := wrap_uint64 (order_count_ l - 1);
          chain_ := chain' |})
  | (None, _) => (false, l)
  end.

Definition has_orders (l : PriceLevel) : bool :=
  Z.ltb 0 (order_count_ l) && Qltb 0 (total_quantity_ l).

(** The order with the given id in the chain, if any. *)
Definition find_order (l : PriceLevel) (id : Z) : option Order.Order :=
  List.find (fun o => Z.eqb (Order.order_id o) id) (chain_ l).

(** The remaining quantity of the orders of a chain that are still open
    (ACTIVE or PARTIALLY_FILLED). *)
Definition is_open (o : Order.Order) : bool :=
  Order.Status_eqb (Order.status o) Order.ACTIVE ||
  Order.Status_eqb (Order.status o) Order.PARTIALLY_FILLED.

Fixpoint open_quantity (chain : list Order.Order) : Q :=
  match chain with
  | [] => 0
  | o :: rest =>
      (if is_open o then Order.quantity o else 0) + open_quantity rest
  end.


(** The test in the loop of [match_orders]: whether an incoming order of
    [side] can be matched against the resting order [o]. *)
Definition can_match (side : Order.Side) (o : Order.Order) : bool :=
  is_opposite_side (Order.side o) side && Order.is_active o.

Definition not_cancelled (o : Order.Order) : bool :=
  negb (Order.Status_eqb (Order.status o) Order.CANCELLED).

(** [order_count_] is the number of linked orders that were not cancelled. *)
Definition count_ok (l : PriceLevel) : Prop :=
  order_count_ l = Z.of_nat (length (List.filter not_cancelled (chain_ l))).
End PriceLevel.

(** ** Order book (execution/lock_free_order_book.h, lock_free_order_book.cpp) *)

Module LockFreeOrderBook.

Import Num.
Local Open Scope Q_scope.

Record MatchResult := {
  matched_quantity : Q;
  average_price : Q;
  orders_matched : Z;
  matched_order_ids : list Z;
  fully_filled : bool
}.

Record Config := {
  symbol : string;
  tick_size : Q;
  max_price_levels : Z;
  market_depth_levels : Z;
  enable_statistics : bool;
  auto_cleanup : bool
}.

Definition default_config (sym : string) : Config :=
  {| symbol := sym; tick_size := 1 # 100; max_price_levels := 10000;
     market_depth_levels := 5; enable_statistics := false;
     auto_cleanup := true |}.

Definition validate (c : Config) : Config :=
  {| symbol := symbol c;
     tick_size := if Qle_bool (tick_size c) 0 then 1 # 100 else tick_size c;
     max_price_levels :=
       if Z.eqb (max_price_levels c) 0 then 10000%Z else max_price_levels c;
     market_depth_levels :=
       if Z.eqb (market_depth_levels c) 0 then 5%Z else market_depth_levels c;
     enable_statistics := enable_statistics c;
     auto_cleanup := auto_cleanup c |}.

Record OrderInfo := { info_side : Order.Side; info_price : Q }.

(** A ladder is the [std::map] of one side in iteration order: asks by
    ascending price, bids by descending price. *)
Abbreviation Ladder := (list (Q * PriceLevel.PriceLevel)).

Record LockFreeOrderBook := {
  config_ : Config;
  bid_levels_ : Ladder;
  ask_levels_ : Ladder;
  order_lookup_ : gmap Z OrderInfo;
  cached_best_bid_ : Q;
  cached_best_ask_ : Q;
  cache_valid_ : bool;
  next_order_id_ : Z
}.

Definition new (config : Config) : LockFreeOrderBook :=
  {| config_ := validate config; bid_levels_ := []; ask_levels_ := [];
     order_lookup_ := ∅; cached_best_bid_ := 0; cached_best_ask_ := 0;
     cache_valid_ := false; next_order_id_ := 1 |}.

Definition round_to_tick (b : LockFreeOrderBook) (price : Q) : Q :=
  inject_Z (std_round (price / tick_size (config_ b))) * tick_size (config_ b).

(** [before side a b]: key [a] comes before key [b] in the ladder of [side]
    ([std::greater] for bids, [std::less] for asks). *)
Definition before (side : Order.Side) (a b : Q) : bool :=
  match side with
  | Order.BUY => Qltb b a
  | Order.SELL => Qltb a b
  end.

(** [levels[price]] followed by an update of the level found or created. *)
Fixpoint upsert_level (side : Order.Side) (levels : Ladder) (price : Q)
  (f : PriceLevel.PriceLevel -> PriceLevel.PriceLevel) : Ladder :=
  match levels with
  | [] => [(price, f (PriceLevel.make price))]
  | (p, l) :: rest =>
      if before side price p then (price, f (PriceLevel.make price)) :: levels
      else if before side p price then (p, l) :: upsert_level side rest price f
      else (p, f l) :: rest
  end.

Fixpoint find_level (side : Order.Side) (levels : Ladder) (price : Q)
  : option PriceLevel.PriceLevel :=
  match levels with
  | [] => None
  | (p, l) :: rest =>
      if before side price p then None
      else if before side p price then find_level side rest price
      else Some l
  end.

Definition set_levels (side : Order.Side) (levels : Ladder)
  (b : LockFreeOrderBook) : LockFreeOrderBook :=
  {| config_ := config_ b;
     bid_levels_ :=
       match side with Order.BUY => levels | Order.SELL => bid_levels_ b end;
     ask_levels_ :=
       match side with Order.BUY => ask_levels_ b | Order.SELL => levels end;
     order_lookup_ := order_lookup_ b;
     cached_best_bid_ := cached_best_bid_ b;
     cached_best_ask_ := cached_best_ask_ b;
     cache_valid_ := cache_valid_ b;
     next_order_id_ := next_order_id_ b |}.

Definition levels_of (side : Order.Side) (b : LockFreeOrderBook) : Ladder :=
  match side with Order.BUY => bid_levels_ b | Order.SELL => ask_levels_ b end.

Definition set_lookup (m : gmap Z OrderInfo) (valid : bool)
  (b : LockFreeOrderBook) : LockFreeOrderBook :=
  {| config_ := config_ b; bid_levels_ := bid_levels_ b;
     ask_levels_ := ask_levels_ b; order_lookup_ := m;
     cached_best_bid_ := cached_best_bid_ b;
     cached_best_ask_ := cached_best_ask_ b;
     cache_valid_ := valid; next_order_id_ := next_order_id_ b |}.

Definition add_order (b : LockFreeOrderBook) (order_id : Z)
  (side : Order.Side) (price quantity : Q) : bool * LockFreeOrderBook :=
  if Qle_bool quantity 0 || Qle_bool price 0 then (false, b)
  else
    let rounded_price := round_to_tick b price in
    let order :=
      Order.make order_id (symbol (config_ b)) side rounded_price quantity in
    let level :=
      match find_level side (levels_of side b) rounded_price with
      | Some l => l
      | None => PriceLevel.make rounded_price
      end in
    let b1 :=
      set_levels side
        (upsert_level side (levels_of side b) rounded_price
           (fun l => snd (PriceLevel.add_order l order))) b in
    if fst (PriceLevel.add_order level order) then
      (true,
       set_lookup
         (<[order_id := {| info_side := side; info_price := rounded_price |}]>
            (order_lookup_ b1)) false b1)
    else (false, b1).

(** The loop over the levels of the opposite ladder in
    [match_market_order]; [stop price] is the price bound of the incoming
    side.  Returns the ladder, the matched quantity, the traded value, the
    quantity still wanted and the counter [orders_matched]. *)
Fixpoint match_levels (levels : Ladder) (side : Order.Side)
  (stop : Q -> bool) (max_price min_price : Q)
  (matched_qty total_value remaining_quantity : Q) (matched_count : Z)
  : Ladder * Q * Q * Q * Z :=
  match levels with
  | [] => ([], matched_qty, total_value, remaining_quantity, matched_count)
  | (price, level) :: rest =>
      if Qle_bool remaining_quantity 0 then
        (levels, matched_qty, total_value, remaining_quantity, matched_count)
      else if stop price then
        (levels, matched_qty, total_value, remaining_quantity, matched_count)
      else if PriceLevel.has_orders level then
        let '(matched, level') :=
          PriceLevel.match_orders level side remaining_quantity
            max_price min_price in
        let '(mq, tv, rq, mc) :=
          if Qltb 0 matched then
            (matched_qty + matched, total_value + matched * price,
             remaining_quantity - matched, wrap_uint64 (matched_count + 1))
          else (matched_qty, total_value, remaining_quantity, matched_count) in
        let '(rest', mq', tv', rq', mc') :=
          match_levels rest side stop max_price min_price mq tv rq mc in
        ((price, level') :: rest', mq', tv', rq', mc')
      else
        let '(rest', mq', tv', rq', mc') :=
          match_levels rest side stop max_price min_price
            matched_qty total_value remaining_quantity matched_count in
        ((price, level) :: rest', mq', tv', rq', mc')
  end.

Definition opposite (side : Order.Side) : Order.Side :=
  match side with Order.BUY => Order.SELL | Order.SELL => Order.BUY end.

(** [match_market_order(side, quantity, max_price, min_price)]; the two
    price bounds default to 0. *)
Definition match_market_order (b : LockFreeOrderBook) (side : Order.Side)
  (quantity max_price min_price : Q) : MatchResult * LockFreeOrderBook :=
  let stop :=
    match side with
    | Order.BUY => fun price => Qltb 0 max_price && Qltb max_price price
    | Order.SELL => fun price => Qltb 0 min_price && Qltb price min_price
    end in
  let '(levels', matched_qty, total_value, remaining_quantity, matched_count) :=
    match_levels (levels_of (opposite side) b) side stop max_price min_price
      0 0 quantity 0 in
  let b1 := set_levels (opposite side) levels' b in
  if Qltb 0 matched_qty then
    ({| matched_quantity := matched_qty;
        average_price := total_value / matched_qty;
        orders_matched := matched_count;
        matched_order_ids := [];
        fully_filled := Qle_bool remaining_quantity eps |},
     set_lookup (order_lookup_ b1) false b1)
  else
    ({| matched_quantity := matched_qty;
        average_price := 0;
        orders_matched := matched_count;
        matched_order_ids := [];
        fully_filled := false |}, b1).

Definition cancel_order (b : LockFreeOrderBook) (order_id : Z)
  : bool * LockFreeOrderBook :=
  match order_lookup_ b !! order_id with
  | None => (false, b)
  | Some info =>
      let side := info_side info in
      match find_level side (levels_of side b) (info_price info) with
      | Some level =>
          if fst (PriceLevel.remove_order level order_id) then
            let b1 :=
              set_levels side
                (upsert_level side (levels_of side b) (info_price info)
                   (fun l => snd (PriceLevel.remove_order l order_id))) b in
            (true, set_lookup (delete order_id (order_lookup_ b1)) false b1)
          else (false, b)
      | None => (false, b)
      end
  end.

(** The resting order with the given id on the given side, if any. *)
Definition find_order (b : LockFreeOrderBook) (side : Order.Side) (id : Z)
  : option Order.Order :=
  List.find (fun o => Z.eqb (Order.order_id o) id)
    (concat (map (fun pl => PriceLevel.chain_ (snd pl)) (levels_of side b))).

(** The scan of [get_best_bid] and [get_best_ask]: the price of the first
    level, in iteration order, that has orders; 0 when there is none. *)
Fixpoint best_price (levels : Ladder) : Q :=
  match levels with
  | [] => 0
  | (price, level) :: rest =>
      if PriceLevel.has_orders level then price else best_price rest
  end.

Definition set_cached_best (side : Order.Side) (v : Q) (b : LockFreeOrderBook)
  : LockFreeOrderBook :=
  {| config_ := config_ b; bid_levels_ := bid_levels_ b;
     ask_levels_ := ask_levels_ b; order_lookup_ := order_lookup_ b;
     cached_best_bid_ :=
       match side with Order.BUY => v | Order.SELL => cached_best_bid_ b end;
     cached_best_ask_ :=
       match side with Order.BUY => cached_best_ask_ b | Order.SELL => v end;
     cache_valid_ := cache_valid_ b; next_order_id_ := next_order_id_ b |}.

(** [get_best_bid]: the answer and the book with its (mutable) cache. *)
Definition get_best_bid (b : LockFreeOrderBook) : Q * LockFreeOrderBook :=
  if cache_valid_ b then (cached_best_bid_ b, b)
  else
    let best_bid := best_price (bid_levels_ b) in
    (best_bid, set_cached_best Order.BUY best_bid b).

Definition get_best_ask (b : LockFreeOrderBook) : Q * LockFreeOrderBook :=
  if cache_valid_ b then (cached_best_ask_ b, b)
  else
    let best_ask := best_price (ask_levels_ b) in
    (best_ask, set_cached_best Order.SELL best_ask b).

Definition set_fully_filled (v : bool) (r : MatchResult) : MatchResult :=
  {| matched_quantity := matched_quantity r;
     average_price := average_price r;
     orders_matched := orders_matched r;
     matched_order_ids := matched_order_ids r;
     fully_filled := v |}.

(** [match_limit_order]: matches up to the limit price, then rests what is
    left above the tolerance in the book. *)
Definition match_limit_order (b : LockFreeOrderBook) (order_id : Z)
  (side : Order.Side) (price quantity : Q) : MatchResult * LockFreeOrderBook :=
  let '(result, b1) :=
    match side with
    | Order.BUY => match_market_order b side quantity price 0
    | Order.SELL => match_market_order b side quantity 0 price
    end in
  let remaining_quantity := quantity - matched_quantity result in
  if Qltb eps remaining_quantity then
    (result, snd (add_order b1 order_id side price remaining_quantity))
  else (set_fully_filled true result, b1).

Definition set_next_order_id (v : Z) (b : LockFreeOrderBook)
  : LockFreeOrderBook :=
  {| config_ := config_ b; bid_levels_ := bid_levels_ b;
     ask_levels_ := ask_levels_ b; order_lookup_ := order_lookup_ b;
     cached_best_bid_ := cached_best_bid_ b;
     cached_best_ask_ := cached_best_ask_ b;
     cache_valid_ := cache_valid_ b; next_order_id_ := v |}.

(** [modify_order]: cancel, then add under a fresh internal id, then point
    the lookup entry of the caller's id at the target price. *)
Definition modify_order (b : LockFreeOrderBook) (order_id : Z)
  (new_quantity new_price : Q) : bool * LockFreeOrderBook :=
  match order_lookup_ b !! order_id with
  | None => (false, b)
  | Some order_info =>
      if Qle_bool new_quantity 0 then (false, b)
      else
        let target_price :=
          if Qltb 0 new_price then new_price else info_price order_info in
        let '(cancelled, b1) := cancel_order b order_id in
        if negb cancelled then (false, b1)
        else
          let new_order_id := next_order_id_ b1 in
          let b2 := set_next_order_id (wrap_uint64 (new_order_id + 1)) b1 in
          let '(added, b3) :=
            add_order b2 new_order_id (info_side order_info) target_price
              new_quantity in
          if added then
            (true,
             set_lookup
               (<[order_id := {| info_side := info_side order_info;
                                 info_price := target_price |}]>
                  (order_lookup_ b3)) (cache_valid_ b3) b3)
          else (false, b3)
  end.

(** The shape of a book: the keys of each ladder are strictly ordered, best
    price first, every level sits under its own price, and the best-price
    cache is marked invalid. *)
Fixpoint ladder_sorted (side : Order.Side) (levels : Ladder) : Prop :=
  match levels with
  | [] => True
  | (p, _) :: rest =>
      match rest with
      | [] => True
      | (p', _) :: _ => before side p p' = true
      end /\ ladder_sorted side rest
  end.

Definition ladder_keyed (levels : Ladder) : Prop :=
  Forall (fun pl => PriceLevel.price_ (snd pl) == fst pl) levels.

Definition book_ok (b : LockFreeOrderBook) : Prop :=
  ladder_sorted Order.BUY (bid_levels_ b) /\ ladder_keyed (bid_levels_ b) /\
  ladder_sorted Order.SELL (ask_levels_ b) /\ ladder_keyed (ask_levels_ b) /\
  cache_valid_ b = false.

End LockFreeOrderBook.

(** ** Execution simulator (execution/execution_simulator.h,
       execution/execution_simulator.cpp) *)

Module ExecutionSim.

Import Num Events.
Local Open Scope Q_scope.

(** The fields of [MarketSimulationConfig] that the two execution paths
    read. *)
Record MarketSimulationConfig := {
  commission_per_share : Q;
  commission_percentage : Q;
  bid_ask_spread_bps : Q;
  slippage_factor : Q;
  simulate_partial_fills : bool;
  partial_fill_probability : Q;
  min_fill_ratio : Q
}.

Definition default_config : MarketSimulationConfig :=
  {| commission_per_share := 5 # 1000;
     commission_percentage := 0;
     bid_ask_spread_bps := 1;
     slippage_factor := 1 # 10000;
     simulate_partial_fills := false;
     partial_fill_probability := 1 # 10;
     min_fill_ratio := 3 # 10 |}.

Definition validate (c : MarketSimulationConfig) : MarketSimulationConfig :=
  let partial_fill_probability' :=
    if Qltb (partial_fill_probability c) 0 then 0
    else partial_fill_probability c in
  {| commission_per_share :=
       if Qltb (commission_per_share c) 0 then 0 else commission_per_share c;
     commission_percentage :=
       if Qltb (commission_percentage c) 0 then 0 else commission_percentage c;
     bid_ask_spread_bps :=
       if Qltb (bid_ask_spread_bps c) 0 then 0 else bid_ask_spread_bps c;
     slippage_factor :=
       if Qltb (slippage_factor c) 0 then 0 else slippage_factor c;
     simulate_partial_fills := simulate_partial_fills c;
     partial_fill_probability :=
       if Qltb 1 partial_fill_probability' then 1
       else partial_fill_probability';
     min_fill_ratio :=
       if Qle_bool (min_fill_ratio c) 0 || Qltb 1 (min_fill_ratio c)
       then 3 # 10 else min_fill_ratio c |}.

Definition calculate_execution_price (c : MarketSimulationConfig)
  (quoted_price : Q) (is_buy : bool) : Q :=
  let slippage :=
    if is_buy then quoted_price * slippage_factor c
    else - quoted_price * slippage_factor c in
  let spread_adjustment :=
    if Qltb 0 (bid_ask_spread_bps c) then
      let half_spread := quoted_price * (bid_ask_spread_bps c / 10000) / 2 in
      if is_buy then half_spread else - half_spread
    else 0 in
  quoted_price + slippage + spread_adjustment.

Definition calculate_commission (c : MarketSimulationConfig)
  (quantity price : Q) : Q :=
  let commission := 0 + quantity * commission_per_share c in
  if Qltb 0 (commission_percentage c) then
    commission + (quantity * price) * (commission_percentage c / 100)
  else commission.

Definition is_buy_signal (s : SignalType) : bool :=
  match s with BUY => true | _ => false end.

(** [execute_simple_order]: the fill written into the event taken from the
    pool.  [draw1] and [draw2] are the two numbers the uniform generator
    hands out, the second one drawn only for a partial fill. *)
Definition execute_simple_order (c : MarketSimulationConfig)
  (signal : TradingSignalEvent) (market_price : Q) (draw1 draw2 : Q)
  : TradeExecutionEvent :=
  let is_buy := is_buy_signal (sig_signal signal) in
  let execution_price := calculate_execution_price c market_price is_buy in
  let executed_quantity :=
    if simulate_partial_fills c && Qltb draw1 (partial_fill_probability c) then
      let fill_ratio := min_fill_ratio c + (1 - min_fill_ratio c) * draw2 in
      sig_suggested_quantity signal * fill_ratio
    else sig_suggested_quantity signal in
  let commission := calculate_commission c executed_quantity execution_price in
  {| te_symbol := sig_symbol signal;
     te_quantity := executed_quantity;
     te_price := execution_price;
     te_commission := commission;
     te_is_buy := is_buy |}.

(** [execute_order_book_order] on the book of the signal's symbol: a market
    order for the suggested quantity; a fill only when something matched. *)
Definition execute_order_book_order (c : MarketSimulationConfig)
  (order_book : LockFreeOrderBook.LockFreeOrderBook)
  (signal : TradingSignalEvent)
  : option TradeExecutionEvent * LockFreeOrderBook.LockFreeOrderBook :=
  let side :=
    if is_buy_signal (sig_signal signal) then Order.BUY else Order.SELL in
  let '(match_result, order_book') :=
    LockFreeOrderBook.match_market_order order_book side
      (sig_suggested_quantity signal) 0 0 in
  if Qltb 0 (LockFreeOrderBook.matched_quantity match_result) then
    (Some
       {| te_symbol := sig_symbol signal;
          te_quantity := LockFreeOrderBook.matched_quantity match_result;
          te_price := LockFreeOrderBook.average_price match_result;
          te_commission :=
            calculate_commission c
              (LockFreeOrderBook.matched_quantity match_result)
              (LockFreeOrderBook.average_price match_result);
          te_is_buy :=
            match side with Order.BUY => true | Order.SELL => false end |},
     order_book')
  else (None, order_book').

End ExecutionSim.

(** ** Concrete inputs of the scenarios *)

Module Scenario.

Import Num Events.
Local Open Scope Q_scope.

Definition buy_100_at_150 : TradeExecutionEvent :=
  {| te_symbol := "AAPL"; te_quantity := 100; te_price := 150;
     te_commission := 5; te_is_buy := true |}.

Definition sell_100_at_160 : TradeExecutionEvent :=
  {| te_symbol := "AAPL"; te_quantity := 100; te_price := 160;
     te_commission := 5; te_is_buy := false |}.

Definition bar_close_155 : MarketDataEvent :=
  {| md_symbol := "AAPL"; md_open := 155; md_high := 155; md_low := 155;
     md_close := 155; md_volume := 1000 |}.

(** The ledger after the buy, and after the buy and the bar. *)
Definition ledger_after_buy (initial : Q) : PositionManager.PositionManager :=
  PositionManager.on_trade_execution (PositionManager.make initial)
    buy_100_at_150.

Definition ledger_after_bar (initial : Q) : PositionManager.PositionManager :=
  PositionManager.on_market_data (ledger_after_buy initial) bar_close_155.

(** A long position of 100 entered at 150 and marked at 155. *)
Definition long_100_at_150 : Position.Position :=
  {| Position.symbol_ := "AAPL"; Position.quantity_ := 100;
     Position.entry_price_ := 150; Position.current_price_ := 155;
     Position.unrealized_pnl_ := 500; Position.realized_pnl_ := 0 |}.

(** The book of the matching scenario. *)
Definition empty_book : LockFreeOrderBook.LockFreeOrderBook :=
  LockFreeOrderBook.new (LockFreeOrderBook.default_config "AAPL").

Definition book_two_asks : LockFreeOrderBook.LockFreeOrderBook :=
  snd (LockFreeOrderBook.add_order
         (snd (LockFreeOrderBook.add_order empty_book 1 Order.SELL 100 30))
         2 Order.SELL (10001 # 100) 80).

(** One price level holding two sell orders: order 1 was added first,
    order 2 after it. *)
Definition level_two_sells : PriceLevel.PriceLevel :=
  snd (PriceLevel.add_order
         (snd (PriceLevel.add_order (PriceLevel.make 100)
                 (Order.make 1 "AAPL" Order.SELL 100 30)))
         (Order.make 2 "AAPL" Order.SELL 100 80)).

(** One price level holding a single sell order of 30. *)
Definition level_one_sell : PriceLevel.PriceLevel :=
  snd (PriceLevel.add_order (PriceLevel.make 100)
         (Order.make 1 "AAPL" Order.SELL 100 30)).

(** An engine without strategies whose bus holds one bar taken from the
    event pool. *)
#[global] Instance no_strategy : Engine.Strategy unit :=
  {| Engine.strategy_on_market_data := fun s _ => s;
     Engine.strategy_generate_signal := fun s => (None, s) |}.

#[global] Instance no_execution : Engine.ExecutionSimulator unit :=
  {| Engine.simulate_order_execution := fun x _ _ => (None, x) |}.

Definition pool_with_bar : option Engine.EventPtr * Engine.EventPool :=
  Engine.create_market_data_event Engine.new_event_pool bar_close_155.

Definition engine_with_bar : Engine.BacktestEngine unit unit :=
  {| Engine.event_queue_ :=
       match fst pool_with_bar with Some ptr => [ptr] | None => [] end;
     Engine.event_pool_ := snd pool_with_bar;
     Engine.strategies_ := ∅;
     Engine.position_manager_ := PositionManager.make 100000;
     Engine.execution_simulator_ := tt |}.

End Scenario.

(** * Properties *)

(** ** Numbers *)

Section NumFacts.

Import Num.
Local Open Scope Q_scope.

Lemma Qltb_lt (a b : Q) : Qltb a b = true <-> a < b.
Proof.
  unfold Qltb. rewrite negb_true_iff. split; intros Hab.
  - apply Qnot_le_lt. intros Hle. apply Qle_bool_iff in Hle. congruence.
  - destruct (Qle_bool b a) eqn:Hle; [|reflexivity].
    apply Qle_bool_iff in Hle. exfalso. eapply Qlt_not_le; eauto.
Qed.

Lemma Qltb_ge (a b : Q) : Qltb a b = false <-> b <= a.
Proof. unfold Qltb. rewrite negb_false_iff. apply Qle_bool_iff. Qed.

#[global] Instance Qltb_comp : Proper (Qeq ==> Qeq ==> eq) Qltb.
Proof. intros a a' Ha b b' Hb. unfold Qltb. now rewrite Ha, Hb. Qed.

Local Open Scope Z_scope.

Lemma wrap_int64_small (z : Z) : - 2 ^ 63 <= z < 2 ^ 63 -> wrap_int64 z = z.
Proof. intros H. unfold wrap_int64. rewrite Z.mod_small; lia. Qed.

Lemma wrap_uint64_small (z : Z) : 0 <= z < 2 ^ 64 -> wrap_uint64 z = z.
Proof. intros H. unfold wrap_uint64. now rewrite Z.mod_small. Qed.

Lemma pow2_bounds (k : Z) : 1 <= k < 63 -> 2 <= 2 ^ k <= 2 ^ 62.
Proof.
  intros H. split.
  - change 2 with (2 ^ 1) at 1. apply Z.pow_le_mono_r; lia.
  - apply Z.pow_le_mono_r; lia.
Qed.

(** Masking with [2 ^ k - 1] is reduction modulo [2 ^ k]. *)
Lemma land_mask_mod (k s : Z) : 0 <= k -> Z.land s (2 ^ k - 1) = s mod 2 ^ k.
Proof.
  intros Hk. rewrite <- Z.land_ones by assumption.
  now rewrite Z.ones_equiv, <- Z.sub_1_r.
Qed.

(** Two sequences less than [P] apart never share a residue. *)
Lemma mod_window_inj (P s s' : Z) :
  0 < P -> s mod P = s' mod P -> - P < s - s' < P -> s = s'.
Proof.
  intros HP Hmod Hwin.
  pose proof (Z.div_mod s P ltac:(lia)) as Hs.
  pose proof (Z.div_mod s' P ltac:(lia)) as Hs'.
  assert (s / P = s' / P) by nia. congruence.
Qed.

End NumFacts.

(** ** Ring buffer *)

Section RingBuffer.

Import Num Disruptor.
Local Open Scope Z_scope.

Context {E : Type}.
Variable k : Z.
Hypothesis Hk : 1 <= k < 63.

(** Construction with a power-of-two size: validation changes nothing and
    the mask, the storage and the capacity agree. *)
Lemma new_inv :
  exists q0 : DisruptorQueue E,
    new (config_of_size (2 ^ k)) = Some q0 /\ queue_inv k [] q0 /\
    consumer_sequence_ q0 = -1.
Proof.
  pose proof (pow2_bounds k Hk) as HP.
  unfold new, validate. cbn [config_of_size buffer_size].
  rewrite wrap_uint64_small by lia.
  rewrite land_mask_mod by lia.
  rewrite Z.mod_same by lia. cbn [Z.eqb negb].
  assert (Hlt : (2 ^ k <? 2) = false) by (apply Z.ltb_ge; lia).
  rewrite Hlt. eexists. split; [reflexivity|].
  unfold queue_inv.
  cbn [config_ buffer_size buffer_mask_ buffer_ cursor_ consumer_sequence_
       barrier_dependencies_ with_buffer_size config_of_size length].
  rewrite length_replicate.
  repeat split; try lia.
Qed.

Lemma slot_index_mod (pub : list E) (q : DisruptorQueue E) (s : Z) :
  queue_inv k pub q -> 0 <= s < 2 ^ 63 ->
  slot_index q s = s mod 2 ^ k /\
  0 <= s mod 2 ^ k < Z.of_nat (length (buffer_ q)).
Proof.
  intros (Hsz & Hmask & Hlen & _) Hs.
  pose proof (pow2_bounds k Hk) as HP.
  unfold slot_index. rewrite Hmask, wrap_uint64_small by lia.
  rewrite land_mask_mod by lia. split; [reflexivity|].
  rewrite Hlen. apply Z.mod_pos_bound. lia.
Qed.

(** A publish into a full buffer is refused and changes nothing. *)
Lemma try_publish_full (pub : list E) (q : DisruptorQueue E) (e : E) :
  queue_inv k pub q -> Z.of_nat (length pub) < 2 ^ 62 ->
  cursor_ q - consumer_sequence_ q = 2 ^ k ->
  try_publish q (Some e) = Some (false, q).
Proof.
  intros Hinv Hlen Hfull.
  destruct Hinv as (Hsz & Hmask & Hbuf & Hdep & Hord & Hcap & Hpub & Hslots).
  pose proof (pow2_bounds k Hk) as HP.
  unfold try_publish, claim_next_sequence.
  rewrite Hsz.
  rewrite (wrap_int64_small (cursor_ q + 1)) by lia.
  rewrite (wrap_int64_small (2 ^ k)) by lia.
  rewrite wrap_int64_small by lia.
  assert (Hgt : (cursor_ q + 1 - 2 ^ k >? consumer_sequence_ q) = true)
    by (apply Z.gtb_lt; lia).
  rewrite Hgt. reflexivity.
Qed.

(** A publish with room left succeeds and appends the event. *)
Lemma try_publish_room (pub : list E) (q : DisruptorQueue E) (e : E) :
  queue_inv k pub q -> Z.of_nat (length pub) < 2 ^ 62 ->
  cursor_ q - consumer_sequence_ q < 2 ^ k ->
  exists q', try_publish q (Some e) = Some (true, q') /\
             queue_inv k (pub ++ [e]) q' /\
             consumer_sequence_ q' = consumer_sequence_ q /\
             cursor_ q' = cursor_ q + 1.
Proof.
  intros Hinv Hlen Hroom.
  pose proof (pow2_bounds k Hk) as HP.
  assert (Hidx := slot_index_mod pub q (cursor_ q + 1) Hinv).
  destruct Hinv as (Hsz & Hmask & Hbuf & Hdep & Hord & Hcap & Hpub & Hslots).
  destruct Hidx as [Hidx Hrange]; [lia|].
  unfold try_publish, claim_next_sequence.
  rewrite Hsz.
  rewrite (wrap_int64_small (cursor_ q + 1)) by lia.
  rewrite (wrap_int64_small (2 ^ k)) by lia.
  rewrite wrap_int64_small by lia.
  assert (Hgt : (cursor_ q + 1 - 2 ^ k >? consumer_sequence_ q) = false).
  { rewrite Z.gtb_ltb. apply Z.ltb_ge. lia. }
  rewrite Hgt.
  assert (Hneg : (cursor_ q + 1 <? 0) = false) by (apply Z.ltb_ge; lia).
  rewrite Hneg.
  unfold slot_index in *. cbn [set_cursor buffer_mask_] in *.
  rewrite Hidx. unfold store_slot.
  cbn [set_cursor config_ buffer_mask_ buffer_ cursor_ consumer_sequence_
       barrier_dependencies_].
  assert (Hin : (0 <=? (cursor_ q + 1) mod 2 ^ k) &&
                ((cursor_ q + 1) mod 2 ^ k <? Z.of_nat (length (buffer_ q))) = true).
  { apply andb_true_iff. split; [apply Z.leb_le | apply Z.ltb_lt]; lia. }
  rewrite Hin. eexists. split; [reflexivity|].
  unfold queue_inv.
  cbn [config_ buffer_size buffer_mask_ buffer_ cursor_ consumer_sequence_
       barrier_dependencies_ set_cursor].
  rewrite length_insert, length_app. cbn [length].
  repeat split; try lia; try assumption.
  intros s Hs.
  destruct (decide (s = cursor_ q + 1)) as [->|Hne].
  - rewrite list_lookup_insert_eq by lia.
    f_equal. replace (Z.to_nat (cursor_ q + 1)) with (length pub) by lia.
    now rewrite list_lookup_middle.
  - rewrite list_lookup_insert_ne.
    + rewrite Hslots by lia. f_equal.
      rewrite lookup_app_l by lia. reflexivity.
    + intros Heq. apply Hne. symmetry.
      apply (mod_window_inj (2 ^ k)); [lia| |lia].
      pose proof (Z.mod_pos_bound s (2 ^ k) ltac:(lia)).
      lia.
Qed.

(** A consume from an empty buffer returns [nullptr] and changes nothing. *)
Lemma try_consume_empty (pub : list E) (q : DisruptorQueue E) :
  queue_inv k pub q -> Z.of_nat (length pub) < 2 ^ 62 ->
  consumer_sequence_ q = cursor_ q ->
  try_consume q = Some (None, q).
Proof.
  intros Hinv Hlen Hemp.
  destruct Hinv as (Hsz & Hmask & Hbuf & Hdep & Hord & Hcap & Hpub & Hslots).
  unfold try_consume, try_wait_for.
  rewrite wrap_int64_small by lia.
  assert (Hlt : (cursor_ q <? consumer_sequence_ q + 1) = true)
    by (apply Z.ltb_lt; lia).
  rewrite Hlt.
  assert (Hlt2 : (-1 <? consumer_sequence_ q + 1) = true) by (apply Z.ltb_lt; lia).
  rewrite Hlt2. reflexivity.
Qed.

(** A consume from a buffer that holds events returns the oldest of them. *)
Lemma try_consume_some (pub : list E) (q : DisruptorQueue E) :
  queue_inv k pub q -> Z.of_nat (length pub) < 2 ^ 62 ->
  consumer_sequence_ q < cursor_ q ->
  exists e q', pub !! Z.to_nat (consumer_sequence_ q + 1) = Some e /\
               try_consume q = Some (Some e, q') /\
               queue_inv k pub q' /\
               consumer_sequence_ q' = consumer_sequence_ q + 1 /\
               cursor_ q' = cursor_ q.
Proof.
  intros Hinv Hlen Hav.
  pose proof (pow2_bounds k Hk) as HP.
  assert (Hidx := slot_index_mod pub q (consumer_sequence_ q + 1) Hinv).
  destruct Hinv as (Hsz & Hmask & Hbuf & Hdep & Hord & Hcap & Hpub & Hslots).
  destruct Hidx as [Hidx Hrange]; [lia|].
  destruct (lookup_lt_is_Some_2 pub (Z.to_nat (consumer_sequence_ q + 1)))
    as [e He]; [lia|].
  exists e.
  unfold try_consume, try_wait_for.
  rewrite wrap_int64_small by lia.
  assert (Hlt : (cursor_ q <? consumer_sequence_ q + 1) = false)
    by (apply Z.ltb_ge; lia).
  rewrite Hlt, Hdep. cbn [get_minimum_sequence_of_dependencies fold_left].
  rewrite Hlt, Hidx.
  unfold load_slot.
  assert (Hge : (0 <=? (consumer_sequence_ q + 1) mod 2 ^ k) = true)
    by (apply Z.leb_le; lia).
  rewrite Hge, Hslots by lia. rewrite He.
  unfold store_slot. rewrite Hge.
  assert (Hin : ((consumer_sequence_ q + 1) mod 2 ^ k
                   <? Z.of_nat (length (buffer_ q))) = true)
    by (apply Z.ltb_lt; lia).
  rewrite Hin. cbn [andb]. eexists. split; [reflexivity|]. split; [reflexivity|].
  unfold queue_inv.
  cbn [config_ buffer_size buffer_mask_ buffer_ cursor_ consumer_sequence_
       barrier_dependencies_ set_consumer_sequence].
  rewrite length_insert.
  repeat split; try lia; try assumption.
  intros s Hs.
  rewrite list_lookup_insert_ne.
  - apply Hslots. lia.
  - intros Heq.
    assert (consumer_sequence_ q + 1 = s); [|lia].
    apply (mod_window_inj (2 ^ k)); [lia| |lia].
    pose proof (Z.mod_pos_bound s (2 ^ k) ltac:(lia)).
    lia.
Qed.

(** Any schedule runs to its end; what it consumes extends, in publish
    order, what had been consumed before. *)
Lemma run_inv (ops : list (op E)) : forall (pub : list E) (q : DisruptorQueue E),
  queue_inv k pub q ->
  Z.of_nat (length pub) + Z.of_nat (length ops) < 2 ^ 62 ->
  exists outs q',
    run q ops = Some (outs, q') /\
    queue_inv k (pub ++ published_events ops outs) q' /\
    take (Z.to_nat (consumer_sequence_ q' + 1)) (pub ++ published_events ops outs)
    = take (Z.to_nat (consumer_sequence_ q + 1)) pub ++ consumed_events outs.
Proof.
  induction ops as [|o ops IH]; intros pub q Hinv Hlen.
  - exists [], q. cbn [run published_events consumed_events].
    rewrite !app_nil_r. auto.
  - cbn [length] in Hlen.
    assert (Hcur : cursor_ q + 1 = Z.of_nat (length pub)) by apply Hinv.
    assert (Hord : -1 <= consumer_sequence_ q <= cursor_ q) by apply Hinv.
    assert (Hcap : cursor_ q - consumer_sequence_ q <= 2 ^ k) by apply Hinv.
    destruct o as [e|].
    + destruct (decide (cursor_ q - consumer_sequence_ q = 2 ^ k)) as [Hfull|Hroom].
      * destruct (IH pub q Hinv ltac:(lia)) as (outs & q' & Hrun & Hinv' & Htake).
        exists (Published false :: outs), q'.
        cbn [run]. rewrite (try_publish_full pub q e Hinv ltac:(lia) Hfull), Hrun.
        cbn [published_events consumed_events]. auto.
      * destruct (try_publish_room pub q e Hinv ltac:(lia) ltac:(lia))
          as (q1 & Hpubl & Hinv1 & Hc1 & Hcur1).
        destruct (IH (pub ++ [e]) q1 Hinv1) as (outs & q' & Hrun & Hinv' & Htake).
        { rewrite length_app. cbn [length]. lia. }
        exists (Published true :: outs), q'.
        cbn [run]. rewrite Hpubl, Hrun.
        cbn [published_events consumed_events].
        rewrite <- app_assoc in Hinv', Htake. cbn [app] in Hinv', Htake.
        split; [reflexivity | split; [assumption |]].
        rewrite Htake, Hc1. f_equal.
        rewrite take_app_le by lia. reflexivity.
    + destruct (decide (consumer_sequence_ q = cursor_ q)) as [Hemp|Hav].
      * destruct (IH pub q Hinv ltac:(lia)) as (outs & q' & Hrun & Hinv' & Htake).
        exists (Consumed None :: outs), q'.
        cbn [run]. rewrite (try_consume_empty pub q Hinv ltac:(lia) Hemp), Hrun.
        cbn [published_events consumed_events]. auto.
      * destruct (try_consume_some pub q Hinv ltac:(lia) ltac:(lia))
          as (e & q1 & He & Hcons & Hinv1 & Hc1 & Hcur1).
        destruct (IH pub q1 Hinv1 ltac:(lia)) as (outs & q' & Hrun & Hinv' & Htake).
        exists (Consumed (Some e) :: outs), q'.
        cbn [run]. rewrite Hcons, Hrun.
        cbn [published_events consumed_events].
        split; [reflexivity | split; [assumption |]].
        rewrite Htake, Hc1.
        replace (Z.to_nat (consumer_sequence_ q + 1 + 1))
          with (S (Z.to_nat (consumer_sequence_ q + 1))) by lia.
        rewrite (take_S_r _ _ _ He), <- app_assoc. reflexivity.
Qed.

(** As many consumes as there are events in the buffer return exactly these
    events, oldest first, and leave the buffer empty. *)
Lemma drain (n : nat) : forall (pub : list E) (q : DisruptorQueue E),
  queue_inv k pub q ->
  Z.of_nat (length pub) < 2 ^ 62 ->
  Z.of_nat n = cursor_ q - consumer_sequence_ q ->
  exists q',
    run q (replicate n Consume)
    = Some (map (fun e => Consumed (Some e))
              (drop (Z.to_nat (consumer_sequence_ q + 1)) pub), q') /\
    try_consume q' = Some (None, q').
Proof.
  induction n as [|n IH]; intros pub q Hinv Hlen Hn.
  - exists q. cbn [replicate run].
    assert (Hcur : cursor_ q + 1 = Z.of_nat (length pub)) by apply Hinv.
    rewrite drop_ge by lia. split; [reflexivity|].
    apply (try_consume_empty pub); [assumption|lia|lia].
  - assert (Hord : -1 <= consumer_sequence_ q <= cursor_ q) by apply Hinv.
    destruct (try_consume_some pub q Hinv ltac:(lia) ltac:(lia))
      as (e & q1 & He & Hcons & Hinv1 & Hc1 & Hcur1).
    destruct (IH pub q1 Hinv1 Hlen ltac:(lia)) as (q' & Hrun & Hend).
    exists q'. cbn [replicate run]. rewrite Hcons, Hrun. split; [|exact Hend].
    rewrite (drop_S _ _ _ He). cbn [map]. rewrite Hc1.
    replace (Z.to_nat (consumer_sequence_ q + 1 + 1))
      with (S (Z.to_nat (consumer_sequence_ q + 1))) by lia.
    reflexivity.
Qed.

End RingBuffer.

Section RingBufferRuns.

Import Num Disruptor.
Local Open Scope Z_scope.

Lemma published_events_length {E : Type} (ops : list (op E)) :
  forall outs, (length (published_events ops outs) <= length ops)%nat.
Proof.
  induction ops as [|o ops IH]; intros outs.
  - destruct outs; cbn; lia.
  - destruct o, outs as [|[[]|] outs]; cbn [published_events length];
      try specialize (IH outs); lia.
Qed.

(** [n] rounds of publish-then-consume: nothing fails, every consume returns
    the event just published, and both sequences stand at [n - 1]. *)
Lemma stress_rounds (k : Z) (q0 : DisruptorQueue N) (n : N) :
  1 <= k < 63 ->
  queue_inv k [] q0 -> consumer_sequence_ q0 = -1 ->
  Z.of_N n < 2 ^ 62 ->
  exists q pub,
    N.iter n stress_step
      (Some {| st_next := 0; st_failed_publishes := 0; st_in_order := true;
               st_queue := q0 |})
    = Some {| st_next := n; st_failed_publishes := 0; st_in_order := true;
              st_queue := q |} /\
    queue_inv k pub q /\
    consumer_sequence_ q = cursor_ q /\
    Z.of_nat (length pub) = Z.of_N n.
Proof.
  intros Hk Hinv0 Hc0. induction n as [|n IH] using N.peano_ind; intros Hn.
  - exists q0, []. cbn [N.iter].
    split; [reflexivity | split; [assumption | split; [| reflexivity]]].
    destruct Hinv0 as (_ & _ & _ & _ & _ & _ & Hcur & _). cbn [length] in Hcur. lia.
  - destruct (IH ltac:(lia)) as (q & pub & Hiter & Hinv & Hcc & Hlen).
    rewrite N.iter_succ, Hiter.
    cbn [stress_step st_queue st_next st_failed_publishes st_in_order].
    pose proof (pow2_bounds k Hk) as HP.
    destruct (try_publish_room k Hk pub q n Hinv ltac:(lia) ltac:(lia))
      as (q1 & Hpubl & Hinv1 & Hc1 & Hcur1).
    rewrite Hpubl.
    destruct (try_consume_some k Hk (pub ++ [n]) q1 Hinv1)
      as (e & q2 & He & Hcons & Hinv2 & Hc2 & Hcur2).
    { rewrite length_app. cbn [length]. lia. }
    { lia. }
    rewrite Hcons.
    assert (Hcur : cursor_ q + 1 = Z.of_nat (length pub)) by apply Hinv.
    assert (e = n).
    { replace (Z.to_nat (consumer_sequence_ q1 + 1)) with (length pub) in He by lia.
      rewrite list_lookup_middle in He by reflexivity. congruence. }
    subst e. rewrite N.eqb_refl. cbn [andb].
    exists q2, (pub ++ [n]).
    split; [reflexivity | split; [assumption | split; [lia |]]].
    rewrite length_app. cbn [length]. lia.
Qed.

(** What does hold, for calls that never overlap.  On a queue built with a
    power-of-two size, every schedule in which each [try_publish] and each
    [try_consume] runs from its first to its last access without a step of
    the other thread in between runs to its end; the events consumed are an
    initial segment of the events published, in publish order; the
    published events not yet consumed are returned, each once and in
    publish order, by exactly as many further consumes, after which a
    consume finds nothing.  And 1,000,000 rounds of one publish followed by
    one consume on a buffer of 1024 slots see no failed publish, every
    event in publish order, and end with the cursor and the consumer
    sequence at 999,999.  The code enforces neither condition; what
    happens without them is shown after the construction of the queue. *)
Lemma whole_calls_deliver_in_order
  (E : Type) (k : Z) (ops : list (op E)) :
  1 <= k < 63 ->
  Z.of_nat (length ops) < 2 ^ 62 ->
  (exists q0 outs q,
      new (config_of_size (2 ^ k)) = Some q0 /\
      run q0 ops = Some (outs, q) /\
      consumed_events outs
      = take (length (consumed_events outs)) (published_events ops outs) /\
      exists q',
        run q (replicate (length (published_events ops outs)
                          - length (consumed_events outs)) Consume)
        = Some (map (fun e => Consumed (Some e))
                  (drop (length (consumed_events outs))
                     (published_events ops outs)), q') /\
        try_consume q' = Some (None, q')) /\
  option_map
    (fun s => (st_next s, st_failed_publishes s, st_in_order s,
               cursor_ (st_queue s), consumer_sequence_ (st_queue s)))
    (producer_consumer_stress 1024 1000000)
  = Some (1000000%N, 0%N, true, 999999, 999999).
Proof.
  intros Hk Hlen. split.
  - destruct (new_inv (E:=E) k Hk) as (q0 & Hnew & Hinv0 & Hc0).
    destruct (run_inv k Hk ops [] q0 Hinv0) as (outs & q & Hrun & Hinv & Htake).
    { cbn [length]. lia. }
    rewrite Hc0 in Htake.
    change (take (Z.to_nat (-1 + 1)) []) with (@nil E) in Htake.
    cbn [app] in Htake, Hinv.
    assert (Hcur : cursor_ q + 1
                   = Z.of_nat (length (published_events ops outs))) by apply Hinv.
    assert (Hord : -1 <= consumer_sequence_ q <= cursor_ q) by apply Hinv.
    assert (Hcon : length (consumed_events outs)
                   = Z.to_nat (consumer_sequence_ q + 1)).
    { rewrite <- Htake, length_take. lia. }
    pose proof (published_events_length ops outs) as Hpublen.
    exists q0, outs, q.
    split; [assumption | split; [assumption | split]].
    + rewrite Hcon. symmetry. exact Htake.
    + destruct (drain k Hk (length (published_events ops outs)
                            - length (consumed_events outs))
                  (published_events ops outs) q Hinv) as (q' & Hdrain & Hend).
      { lia. }
      { lia. }
      exists q'. rewrite Hcon in Hdrain |- *. split; assumption.
  - pose proof (new_inv (E:=N) 10 ltac:(lia)) as (q0 & Hnew & Hinv0 & Hc0).
    change (2 ^ 10) with 1024 in Hnew.
    unfold producer_consumer_stress. rewrite Hnew.
    destruct (stress_rounds 10 q0 1000000 ltac:(lia) Hinv0 Hc0 ltac:(lia))
      as (q & pub & Hiter & Hinv & Hcc & Hlenp).
    rewrite Hiter.
    cbn [option_map st_next st_failed_publishes st_in_order st_queue].
    assert (Hcur : cursor_ q + 1 = Z.of_nat (length pub)) by apply Hinv.
    rewrite Hcc. replace (cursor_ q) with 999999 by lia. reflexivity.
Qed.

(** The lemma at a buffer of four slots: two publishes and one consume. *)
Lemma whole_calls_deliver_in_order_four_slots :
  1 <= 2 < 63 /\
  Z.of_nat (length [Publish 7%N; Publish 8%N; Consume]) < 2 ^ 62 /\
  exists q0 outs q,
    new (config_of_size (2 ^ 2)) = Some q0 /\
    run q0 [Publish 7%N; Publish 8%N; Consume] = Some (outs, q) /\
    consumed_events outs = [7%N] /\
    published_events [Publish 7%N; Publish 8%N; Consume] outs = [7%N; 8%N].
Proof.
  assert (H1 : 1 <= 2 < 63) by lia.
  assert (H2 : Z.of_nat (length [Publish 7%N; Publish 8%N; Consume]) < 2 ^ 62)
    by (cbn; lia).
  split; [exact H1 | split; [exact H2 |]].
  destruct (whole_calls_deliver_in_order N 2 _ H1 H2)
    as [(q0 & outs & q & Hnew & Hrun & _) _].
  exists q0, outs, q.
  split; [exact Hnew | split; [exact Hrun |]].
  vm_compute in Hnew. inversion Hnew; subst q0; clear Hnew.
  vm_compute in Hrun. inversion Hrun; subst. split; reflexivity.
Qed.

End RingBufferRuns.

Section RingBufferConstruction.

Import Num Disruptor.
Local Open Scope Z_scope.

(** The mask and the storage are taken from the size as requested. *)
Lemma new_uses_requested_size {E : Type} (c : Config) (q : DisruptorQueue E) :
  new c = Some q ->
  buffer_mask_ q = wrap_uint64 (buffer_size c - 1) /\
  length (buffer_ q) = Z.to_nat (buffer_size c).
Proof.
  unfold new. destruct (validate c) as [c'|]; [|discriminate].
  intros Hq. inversion Hq; subst; clear Hq.
  cbn [buffer_mask_ buffer_]. now rewrite length_replicate.
Qed.

(** C9.  Construction with the requested size 1000: the reported capacity is
    the validated size 1024, but the mask is 999 and the slot array has 1000
    slots, so sequence 1000 is stored in slot 992 and not in slot
    [1000 AND (capacity - 1) = 1000]. *)
Theorem constructor_sizes_before_validation (E : Type) :
  exists q : DisruptorQueue E,
    new (config_of_size 1000) = Some q /\
    capacity q = 1024 /\
    buffer_mask_ q = 999 /\
    length (buffer_ q) = 1000%nat /\
    slot_index q 1000 = 992 /\
    Z.land 1000 (capacity q - 1) = 1000.
Proof.
  eexists. split; [vm_compute; reflexivity|].
  repeat split; reflexivity.
Qed.

(** [try_publish] is its two halves run back to back. *)
Lemma try_publish_two_steps {E : Type} (q : DisruptorQueue E) (event : option E) :
  try_publish q event
  = (let '(next_sequence, q1) := publish_claim q in
     if next_sequence <? 0 then Some (false, q1)
     else option_map (fun q2 => (true, q2))
            (publish_store q1 next_sequence event)).
Proof.
  unfold try_publish, publish_claim, publish_store.
  destruct (claim_next_sequence q) as [next_sequence q1].
  destruct (next_sequence <? 0); [reflexivity|].
  now destruct (store_slot _ _ _).
Qed.

(** A queue on which [try_consume] finds nothing stays as it is, however
    often the consumer tries. *)
Lemma consume_nothing_forever {E : Type} (q : DisruptorQueue E) :
  try_consume q = Some (None, q) ->
  forall n, run q (replicate n Consume) = Some (replicate n (Consumed None), q).
Proof.
  intros Hc n. induction n as [|n IH]; [reflexivity|].
  cbn [replicate run]. now rewrite Hc, IH.
Qed.

(** C3.  Delivery is not exactly-once: a successfully published event can be
    lost, with one producer and one consumer.

    First, on a buffer of 1024 slots.  [claim_next_sequence] moves the
    cursor to sequence 0 before [try_publish] stores the event, and
    [publish_sequence], which is meant to make the sequence available after
    the store, is only a fence.  A [try_consume] of the consumer that runs
    between the two halves of the publish finds sequence 0 available, takes
    [nullptr] out of the slot and moves the consumer sequence to 0; the
    producer then stores event 7 and [try_publish] returns true; from then
    on the queue is empty, and no later [try_consume], however many there
    are, returns the event.

    Second, without any overlap of calls, on a queue built with the size 3:
    the capacity is 4 and the mask is 2, since the mask is taken from the
    size as requested; the first two publishes succeed and land in the same
    slot, and the two consumes return the second event and [nullptr]: the
    first event is never delivered. *)
Theorem ring_buffer_loses_published_event :
  (exists q0 q1 q2 q3 : DisruptorQueue N,
     new (config_of_size 1024) = Some q0 /\
     publish_claim q0 = (0, q1) /\
     try_consume q1 = Some (None, q2) /\
     consumer_sequence_ q2 = 0 /\
     publish_store q2 0 (Some 7%N) = Some q3 /\
     empty q3 = true /\
     forall n,
       run q3 (replicate n Consume) = Some (replicate n (Consumed None), q3)) /\
  (exists q : DisruptorQueue N,
     new (config_of_size 3) = Some q /\
     capacity q = 4 /\ buffer_mask_ q = 2 /\
     option_map fst (run q [Publish 10%N; Publish 11%N; Consume; Consume])
     = Some [Published true; Published true;
             Consumed (Some 11%N); Consumed None]).
Proof.
  split.
  - do 4 eexists.
    split; [vm_compute; reflexivity|].
    split; [vm_compute; reflexivity|].
    split; [vm_compute; reflexivity|].
    split; [reflexivity|].
    split; [vm_compute; reflexivity|].
    split; [vm_compute; reflexivity|].
    apply consume_nothing_forever. vm_compute. reflexivity.
  - eexists. split; [vm_compute; reflexivity|].
    split; [reflexivity|]. split; [reflexivity|].
    vm_compute. reflexivity.
Qed.

End RingBufferConstruction.

(** ** Dispatch loop *)

Section DispatchLoop.

Import Events Engine.

Lemma allocated_push_all (l : list nat) : forall p : MemoryPool,
  allocated_ (fold_left (fun acc b => push_free_block b acc) l p) = allocated_ p.
Proof. induction l as [|b l IH]; intros p; [reflexivity|]. cbn. now rewrite IH. Qed.

Lemma allocated_allocate_chunk (n : nat) (p : MemoryPool) :
  allocated_ (allocate_chunk n p) = allocated_ p.
Proof. unfold allocate_chunk. cbn [allocated_]. apply allocated_push_all. Qed.

Lemma allocated_pop_free_block (p p' : MemoryPool) (b : nat) :
  pop_free_block p = Some (b, p') -> allocated_ p' = allocated_ p.
Proof.
  unfold pop_free_block. destruct (free_list_ p); [discriminate|].
  intros H. now inversion H.
Qed.

(** [allocate] never takes a block back. *)
Lemma allocate_mono (p : MemoryPool) :
  allocated_ p ⊆ allocated_ (snd (allocate p)).
Proof.
  unfold allocate.
  destruct (pop_free_block p) as [[b p']|] eqn:Hpop.
  - cbn [snd mark_allocated allocated_].
    rewrite (allocated_pop_free_block _ _ _ Hpop). set_solver.
  - unfold expand_pool.
    destruct (Nat.min (size_t_mul (current_size_ p) (growth_factor p))
                (max_pool_size p)
              <=? current_size_ p)%nat; [set_solver|].
    destruct (pop_free_block (allocate_chunk _ p)) as [[b p2]|] eqn:Hpop2.
    + cbn [snd mark_allocated allocated_].
      rewrite (allocated_pop_free_block _ _ _ Hpop2), allocated_allocate_chunk.
      set_solver.
    + cbn [snd]. now rewrite allocated_allocate_chunk.
Qed.

#[local] Instance pool_le_preorder : PreOrder pool_le.
Proof.
  split.
  - intros a. repeat split; reflexivity.
  - intros a b c (H1 & H2 & H3) (H4 & H5 & H6).
    repeat split; etransitivity; eauto.
Qed.

Lemma create_trading_signal_event_mono (pool : EventPool) (e : TradingSignalEvent) :
  pool_le pool (snd (create_trading_signal_event pool e)).
Proof.
  unfold create_trading_signal_event.
  pose proof (allocate_mono (signal_pool_ pool)) as Hm.
  destruct (allocate (signal_pool_ pool)) as [b p]. cbn [snd] in *.
  repeat split; cbn; [reflexivity | assumption | reflexivity].
Qed.

Lemma create_trade_execution_event_mono (pool : EventPool) (e : TradeExecutionEvent) :
  pool_le pool (snd (create_trade_execution_event pool e)).
Proof.
  unfold create_trade_execution_event.
  pose proof (allocate_mono (execution_pool_ pool)) as Hm.
  destruct (allocate (execution_pool_ pool)) as [b p]. cbn [snd] in *.
  repeat split; cbn; [reflexivity | reflexivity | assumption].
Qed.

Context {S X : Type} `{Strategy S} `{ExecutionSimulator X}.

Lemma event_pool_add_event_safe (event : option EventPtr) (en : BacktestEngine S X) :
  event_pool_ (add_event_safe event en) = event_pool_ en.
Proof. now destruct event. Qed.

Lemma process_one_mono (en : BacktestEngine S X) :
  pool_le (event_pool_ en) (event_pool_ (snd (process_one en))).
Proof.
  unfold process_one, get_next_event_safe.
  destruct (event_queue_ en) as [|ptr rest]; [reflexivity|].
  cbn [snd]. destruct (ptr_event ptr) as [e|e|e].
  - unfold process_market_data_event. cbn [strategies_ event_pool_].
    destruct (strategies_ en !! md_symbol e) as [s|]; [|reflexivity].
    destruct (strategy_generate_signal _) as [[sig|] s2].
    + pose proof (create_trading_signal_event_mono (event_pool_ en) sig) as Hm.
      destruct (create_trading_signal_event (event_pool_ en) sig) as [signal pool].
      now rewrite event_pool_add_event_safe.
    + reflexivity.
  - unfold process_trading_signal_event. cbn [execution_simulator_ event_pool_].
    destruct (simulate_order_execution _ _ _) as [[fill|] x].
    + pose proof (create_trade_execution_event_mono (event_pool_ en) fill) as Hm.
      destruct (create_trade_execution_event (event_pool_ en) fill)
        as [execution_event pool].
      now rewrite event_pool_add_event_safe.
    + reflexivity.
  - reflexivity.
Qed.

Lemma process_events_mono (turns : nat) : forall en : BacktestEngine S X,
  pool_le (event_pool_ en) (event_pool_ (snd (process_events turns en))).
Proof.
  induction turns as [|turns IH]; intros en; [reflexivity|].
  cbn [process_events].
  pose proof (process_one_mono en) as H1.
  destruct (process_one en) as [event en1]. cbn [snd] in H1.
  specialize (IH en1).
  destruct (process_events turns en1) as [events en2]. cbn [snd] in *.
  etransitivity; eauto.
Qed.

End DispatchLoop.

(** C2.  The dispatch loop hands no event back to its pool.  Whatever the
    strategies and the execution simulator do and however long the loop
    runs, every block the event pool had handed out is still handed out
    afterwards; in particular, after the bar that was waiting on the bus has
    been pulled and dispatched, the bus is empty and the block of the bar is
    still marked allocated. *)
Theorem process_events_never_releases
  (S X : Type) (HS : Engine.Strategy S) (HX : Engine.ExecutionSimulator X)
  (turns : nat) (en : Engine.BacktestEngine S X) :
  Engine.pool_le (Engine.event_pool_ en)
    (Engine.event_pool_ (snd (Engine.process_events turns en))) /\
  exists ptr,
    fst Scenario.pool_with_bar = Some ptr /\
    fst (Engine.process_events 1 Scenario.engine_with_bar) = [ptr] /\
    Engine.event_queue_ (snd (Engine.process_events 1 Scenario.engine_with_bar))
    = [] /\
    Engine.is_allocated
      (Engine.event_pool_ (snd (Engine.process_events 1 Scenario.engine_with_bar)))
      ptr.
Proof.
  split; [apply process_events_mono|].
  eexists. split; [vm_compute; reflexivity|].
  split; [vm_compute; reflexivity|].
  split; [vm_compute; reflexivity|].
  pose proof (process_events_mono 1 Scenario.engine_with_bar) as (Hmd & _ & _).
  unfold Engine.is_allocated. cbn [Engine.ptr_event Events.get_type Engine.ptr_block].
  apply Hmd.
  refine (bool_decide_unpack _ _). vm_compute. reflexivity.
Qed.

(** ** Orders, price levels and the book *)

Section OrderBook.

Import Num.
Local Open Scope Q_scope.

(** A fresh order of non-negative quantity is within its bounds. *)
Lemma order_ok_make (id : Z) (sym : string) (s : Order.Side) (p q : Q) :
  0 <= q -> Order.order_ok (Order.make id sym s p q).
Proof.
  intros Hq. repeat split; cbn; [assumption | apply Qle_refl | discriminate].
Qed.

(** [try_fill] keeps the remaining quantity between 0 and the original
    quantity, and marks the order filled only when nothing remains. *)
Lemma order_ok_try_fill (o : Order.Order) (fill_quantity : Q) :
  Order.order_ok o -> Order.order_ok (snd (Order.try_fill o fill_quantity)).
Proof.
  intros (Hpos & Hle & Hfilled). unfold Order.try_fill.
  destruct (Qltb 0 (Order.quantity o) && Qltb 0 fill_quantity) eqn:Hgo;
    [|repeat split; assumption].
  apply andb_true_iff in Hgo. destruct Hgo as [Hq Hf].
  apply Qltb_lt in Hq. apply Qltb_lt in Hf.
  cbn [snd]. unfold Order.order_ok, std_min.
  cbn [Order.set_quantity_status Order.quantity Order.original_quantity Order.status].
  destruct (Qltb fill_quantity (Order.quantity o)) eqn:Hcmp.
  - apply Qltb_lt in Hcmp. split; [lra | split; [lra |]].
    destruct (Qeq_bool (Order.quantity o - fill_quantity) 0) eqn:Hz.
    + intros _. now apply Qeq_bool_iff.
    + discriminate.
  - split; [lra | split; [lra |]].
    destruct (Qeq_bool (Order.quantity o - Order.quantity o) 0) eqn:Hz.
    + intros _. now apply Qeq_bool_iff.
    + discriminate.
Qed.

(** Marking an order cancelled keeps it within its bounds. *)
Lemma order_ok_cancel (o : Order.Order) :
  Order.order_ok o ->
  Order.order_ok (Order.set_quantity_status (Order.quantity o) Order.CANCELLED o).
Proof.
  intros (Hpos & Hle & _). repeat split; cbn; try assumption. discriminate.
Qed.

(** Under every sequence of fills and cancels the remaining quantity stays
    between 0 and the original quantity, and a filled order has nothing
    remaining. *)
Lemma order_ok_run (ops : list Order.order_op) : forall o : Order.Order,
  Order.order_ok o -> Order.order_ok (Order.run_order_ops o ops).
Proof.
  induction ops as [|op ops IH]; intros o Hok; [exact Hok|].
  cbn [Order.run_order_ops fold_left]. apply IH.
  destruct op as [f|]; cbn [Order.apply_order_op].
  - now apply order_ok_try_fill.
  - now apply order_ok_cancel.
Qed.

(** C8.  The order state machine is left through [remove_order]: an order
    that a match has filled completely (status FILLED, nothing remaining) is
    found by a later [remove_order] and moved to CANCELLED, also through the
    book's [cancel_order]; and [try_fill] on a cancelled order that still
    has quantity moves it from CANCELLED to PARTIAL. *)
Theorem filled_order_becomes_cancelled :
  let filled := PriceLevel.match_orders Scenario.level_one_sell Order.BUY 30 0 0 in
  let removed := PriceLevel.remove_order (snd filled) 1 in
  let matched :=
    LockFreeOrderBook.match_market_order Scenario.book_two_asks Order.BUY 100 0 0 in
  let cancelled := LockFreeOrderBook.cancel_order (snd matched) 1 in
  let withdrawn := PriceLevel.remove_order Scenario.level_one_sell 1 in
  (option_map Order.status (PriceLevel.find_order (snd filled) 1)
   = Some Order.FULLY_FILLED /\
   fst removed = true /\
   option_map Order.status (PriceLevel.find_order (snd removed) 1)
   = Some Order.CANCELLED) /\
  (option_map Order.status
     (LockFreeOrderBook.find_order (snd matched) Order.SELL 1)
   = Some Order.FULLY_FILLED /\
   fst cancelled = true /\
   option_map Order.status
     (LockFreeOrderBook.find_order (snd cancelled) Order.SELL 1)
   = Some Order.CANCELLED) /\
  (option_map Order.status (PriceLevel.find_order (snd withdrawn) 1)
   = Some Order.CANCELLED /\
   option_map (fun o => Order.status (snd (Order.try_fill o 10)))
     (PriceLevel.find_order (snd withdrawn) 1)
   = Some Order.PARTIALLY_FILLED).
Proof. cbv zeta. repeat split; vm_compute; reflexivity. Qed.

(** C6.  Matching within one level starts at the head of the chain, which
    is the order added last: with order 1 resting before order 2 at the same
    price, a buy of 50 takes all 50 from order 2 and leaves order 1, which
    is older and active, untouched. *)
Theorem match_orders_fills_newest_first :
  let r := PriceLevel.match_orders Scenario.level_two_sells Order.BUY 50 0 0 in
  map Order.order_id (PriceLevel.chain_ Scenario.level_two_sells) = [2%Z; 1%Z] /\
  fst r == 50 /\
  (exists o1, PriceLevel.find_order (snd r) 1 = Some o1 /\
              Order.quantity o1 == 30 /\ Order.status o1 = Order.ACTIVE) /\
  (exists o2, PriceLevel.find_order (snd r) 2 = Some o2 /\
              Order.quantity o2 == 30 /\
              Order.status o2 = Order.PARTIALLY_FILLED).
Proof.
  cbv zeta. split; [reflexivity|]. split; [vm_compute; reflexivity|].
  split; eexists; (split; [vm_compute; reflexivity|]);
    split; vm_compute; reflexivity.
Qed.

(** C7.  The book matching scenario: nothing matches on the empty book;
    with 30 offered at 100.00 and 80 at 100.01 a market buy of 100 is
    filled completely at the volume-weighted price, touches two orders,
    fills order 1 and leaves 10 of order 2. *)
Theorem book_matching_scenario :
  let r0 :=
    fst (LockFreeOrderBook.match_market_order Scenario.empty_book
           Order.BUY 100 0 0) in
  let r :=
    LockFreeOrderBook.match_market_order Scenario.book_two_asks
      Order.BUY 100 0 0 in
  (LockFreeOrderBook.matched_quantity r0 == 0 /\
   LockFreeOrderBook.fully_filled r0 = false) /\
  LockFreeOrderBook.matched_quantity (fst r) == 100 /\
  LockFreeOrderBook.average_price (fst r)
  == (30 * 100 + 70 * (10001 # 100)) / 100 /\
  LockFreeOrderBook.orders_matched (fst r) = 2%Z /\
  LockFreeOrderBook.fully_filled (fst r) = true /\
  (exists o1, LockFreeOrderBook.find_order (snd r) Order.SELL 1 = Some o1 /\
              Order.status o1 = Order.FULLY_FILLED) /\
  (exists o2, LockFreeOrderBook.find_order (snd r) Order.SELL 2 = Some o2 /\
              Order.quantity o2 == 10).
Proof.
  cbv zeta. repeat split; try (vm_compute; reflexivity).
  - eexists. split; vm_compute; reflexivity.
  - eexists. split; [vm_compute; reflexivity|]. vm_compute. reflexivity.
Qed.

End OrderBook.

(** ** Positions *)

Section PositionFacts.

Import Num Position.
Local Open Scope Q_scope.

(** The mark price is not touched by a fill. *)
Lemma adjust_position_current_price (p : Position) (delta price : Q) :
  current_price_ (snd (adjust_position p delta price)) = current_price_ p.
Proof.
  unfold adjust_position.
  destruct (Qltb eps (Qabs (quantity_ p + delta))); reflexivity.
Qed.

(** The first fill of a position that was created empty. *)
Lemma adjust_position_fresh (sym : string) (delta price : Q) :
  eps < Qabs delta ->
  let r := adjust_position (make sym 0 0) delta price in
  fst r = 0 /\
  quantity_ (snd r) == delta /\
  entry_price_ (snd r) == price /\
  current_price_ (snd r) = 0 /\
  unrealized_pnl_ (snd r) == (0 - price) * delta /\
  is_flat (snd r) = false.
Proof.
  intros Hd.
  assert (Hnz : ~ delta == 0).
  { intros Hz. rewrite Hz in Hd. vm_compute in Hd. discriminate. }
  assert (Hq : 0 + delta == delta) by ring.
  assert (Hbig : Qltb eps (Qabs (0 + delta)) = true).
  { rewrite Hq. now apply Qltb_lt. }
  assert (Hsame : Qle_bool 0 (0 * delta) = true).
  { apply Qle_bool_iff. ring_simplify. apply Qle_refl. }
  assert (Hgrow : Qltb (Qabs 0) (Qabs (0 + delta)) = true).
  { apply Qltb_lt. rewrite Hq. eapply Qle_lt_trans; [|exact Hd].
    vm_compute. discriminate. }
  cbv zeta. unfold adjust_position.
  cbn [make quantity_ entry_price_ current_price_ unrealized_pnl_
       realized_pnl_ symbol_].
  rewrite Hbig, Hsame, Hgrow.
  change (Qneqb 0 0) with false. cbn [andb fst snd].
  unfold update_pnl.
  cbn [make quantity_ entry_price_ current_price_ unrealized_pnl_
       realized_pnl_ symbol_ fst snd].
  rewrite Hbig.
  repeat split.
  - ring.
  - field. exact Hnz.
  - field. exact Hnz.
  - unfold is_flat. cbn [quantity_]. apply Qltb_ge. rewrite Hq.
    apply Qlt_le_weak. exact Hd.
Qed.

(** Adding in the same direction: whenever the stored quantity grows in
    absolute value, the entry price becomes the notional-weighted average. *)
Lemma adjust_position_average_on_increase (p : Position) (delta price : Q) :
  0 <= quantity_ p * delta ->
  Qabs (quantity_ p) < Qabs (quantity_ (snd (adjust_position p delta price))) ->
  entry_price_ (snd (adjust_position p delta price))
  = (quantity_ p * entry_price_ p + delta * price) / (quantity_ p + delta).
Proof.
  intros Hsame. unfold adjust_position.
  destruct (Qltb eps (Qabs (quantity_ p + delta))) eqn:Hbig;
    cbn [snd update_pnl quantity_ entry_price_]; intros Hgrow.
  - apply Qle_bool_iff in Hsame. apply Qltb_lt in Hgrow.
    now rewrite Hsame, Hgrow.
  - exfalso. pose proof (Qabs_nonneg (quantity_ p)) as Hn.
    change (Qabs 0) with 0 in Hgrow. lra.
Qed.

(** A fill against the position, whether it reduces or flips it, leaves
    the entry price as it was. *)
Lemma adjust_position_opposite_keeps_entry (p : Position) (delta price : Q) :
  quantity_ p * delta < 0 ->
  entry_price_ (snd (adjust_position p delta price)) = entry_price_ p.
Proof.
  intros Hopp. unfold adjust_position.
  assert (Hsame : Qle_bool 0 (quantity_ p * delta) = false).
  { destruct (Qle_bool 0 (quantity_ p * delta)) eqn:Hle; [|reflexivity].
    apply Qle_bool_iff in Hle. lra. }
  rewrite Hsame. cbn [andb].
  destruct (Qltb eps (Qabs (quantity_ p + delta))); reflexivity.
Qed.

(** C5.  On a direction flip the entry price is not reset: for every fill
    after which the quantity has the opposite sign, [adjust_position] leaves
    the entry price of the old direction in place.  (The other two parts of
    the policy hold, see [adjust_position_average_on_increase] and
    [adjust_position_opposite_keeps_entry].) *)
Theorem adjust_position_flip_keeps_entry (p : Position) (delta price : Q) :
  quantity_ p * (quantity_ p + delta) < 0 ->
  entry_price_ (snd (adjust_position p delta price)) = entry_price_ p.
Proof.
  intros Hflip. apply adjust_position_opposite_keeps_entry.
  assert (Hsq : 0 <= quantity_ p * quantity_ p) by nra.
  nra.
Qed.

(** Long 100 entered at 150, then a sale of 150 at 160: short 50, entry
    price still 150. *)
Lemma adjust_position_flip_keeps_entry_witness :
  quantity_ Scenario.long_100_at_150
  * (quantity_ Scenario.long_100_at_150 + -(150)) < 0 /\
  quantity_ (snd (adjust_position Scenario.long_100_at_150 (-(150)) 160)) == -(50) /\
  entry_price_ (snd (adjust_position Scenario.long_100_at_150 (-(150)) 160)) = 150.
Proof.
  assert (H : quantity_ Scenario.long_100_at_150
              * (quantity_ Scenario.long_100_at_150 + -(150)) < 0)
    by (vm_compute; reflexivity).
  split; [exact H | split; [vm_compute; reflexivity |]].
  rewrite (adjust_position_flip_keeps_entry _ _ _ H). reflexivity.
Defined.

End PositionFacts.

(** ** Portfolio ledger *)

Section Ledger.

Import Num Events Position PositionManager.
Local Open Scope Q_scope.

Lemma positions_ite (b : bool) (x y : PositionManager) :
  positions_ (if b then x else y) = if b then positions_ x else positions_ y.
Proof. now destruct b. Qed.

Lemma positions_update_portfolio_statistics pm a b c :
  positions_ (update_portfolio_statistics pm a b c) = positions_ pm.
Proof.
  unfold update_portfolio_statistics.
  cbn [invalidate_cache with_cache positions_].
  rewrite !positions_ite. cbn [with_stats positions_].
  rewrite positions_ite. cbn [with_stats positions_].
  repeat match goal with |- context [if ?b then _ else _] => destruct b end;
    reflexivity.
Qed.

Lemma positions_remove_flat_position pm sym :
  positions_ (remove_flat_position pm sym) =
  match positions_ pm !! sym with
  | Some p => if is_flat p then delete sym (positions_ pm) else positions_ pm
  | None => positions_ pm
  end.
Proof.
  unfold remove_flat_position.
  destruct (positions_ pm !! sym) as [p|]; [|reflexivity].
  now destruct (is_flat p).
Qed.

(** The position map after a fill: the position of the symbol is adjusted,
    created first when there was none, and erased when it existed and ends
    flat; no other symbol is touched. *)
Lemma positions_update_position_on_fill pm ev :
  positions_ (update_position_on_fill_lockfree pm ev) =
  let sym := te_symbol ev in
  let old := positions_ pm !! sym in
  let p :=
    snd (adjust_position
           (match old with Some p0 => p0 | None => Position.make sym 0 0 end)
           (signed_quantity ev) (te_price ev)) in
  match old with
  | Some _ =>
      if is_flat p then delete sym (positions_ pm)
      else <[sym := p]> (positions_ pm)
  | None => <[sym := p]> (positions_ pm)
  end.
Proof.
  unfold update_position_on_fill_lockfree, get_or_create_position,
    signed_quantity.
  cbv zeta.
  destruct (positions_ pm !! te_symbol ev) as [p0|] eqn:Hold.
  - destruct (adjust_position p0 _ _) as [r p] eqn:Hadj. cbn [snd andb negb].
    repeat (rewrite positions_ite;
            cbn [with_stats invalidate_cache with_cache positions_]).
    rewrite ?positions_ite.
    rewrite positions_remove_flat_position.
    cbn [with_stats positions_].
    rewrite ?positions_update_portfolio_statistics.
    cbn [with_positions positions_].
    rewrite lookup_insert_eq, delete_insert_eq.
    destruct (is_flat p); cbn [andb];
      repeat match goal with |- context [if ?b then _ else _] => destruct b end;
      reflexivity.
  - destruct (adjust_position (Position.make _ 0 0) _ _) as [r p] eqn:Hadj.
    cbn [snd andb negb].
    repeat (rewrite positions_ite;
            cbn [with_stats invalidate_cache with_cache positions_]).
    rewrite ?positions_ite.
    cbn [with_stats positions_].
    rewrite ?positions_update_portfolio_statistics.
    cbn [with_positions positions_].
    rewrite insert_insert_eq.
    repeat match goal with |- context [if ?b then _ else _] => destruct b end;
      reflexivity.
Qed.

Lemma positions_on_trade_execution pm ev :
  positions_ (on_trade_execution pm ev) =
  let sym := te_symbol ev in
  let old := positions_ pm !! sym in
  let p :=
    snd (adjust_position
           (match old with Some p0 => p0 | None => Position.make sym 0 0 end)
           (signed_quantity ev) (te_price ev)) in
  match old with
  | Some _ =>
      if is_flat p then delete sym (positions_ pm)
      else <[sym := p]> (positions_ pm)
  | None => <[sym := p]> (positions_ pm)
  end.
Proof.
  unfold on_trade_execution. cbv zeta.
  rewrite positions_update_position_on_fill. reflexivity.
Qed.

(** The position map after a bar: only the position of the bar's symbol is
    marked. *)
Lemma positions_on_market_data pm e :
  positions_ (on_market_data pm e) =
  match positions_ pm !! md_symbol e with
  | Some p => <[md_symbol e := update_pnl p (md_close e)]> (positions_ pm)
  | None => positions_ pm
  end.
Proof.
  unfold on_market_data.
  destruct (positions_ pm !! md_symbol e) as [p|]; [|reflexivity].
  cbv zeta.
  match goal with
  | |- context [get_total_equity ?x] =>
      destruct (get_total_equity x) as [eq pm3] eqn:Heq
  end.
  cbn [push_equity positions_].
  unfold get_total_equity in Heq.
  match type of Heq with
  | context [if equity_cache_valid_ ?x then _ else _] =>
      destruct (equity_cache_valid_ x)
  end; inversion Heq; subst; clear Heq;
    cbn [with_cache positions_]; rewrite positions_ite;
    cbn [invalidate_cache with_cache with_stats with_positions positions_];
    match goal with |- context [if ?b then _ else _] => destruct b end;
    reflexivity.
Qed.

Lemma lookup_apply_op_other pm op sym :
  op_symbol op <> sym ->
  positions_ (apply_op pm op) !! sym = positions_ pm !! sym.
Proof.
  intros Hne. destruct op as [e|e]; cbn [apply_op op_symbol] in *.
  - rewrite positions_on_market_data.
    destruct (positions_ pm !! md_symbol e); [|reflexivity].
    now rewrite lookup_insert_ne.
  - rewrite positions_on_trade_execution. cbv zeta.
    destruct (positions_ pm !! te_symbol e).
    + match goal with |- context [if ?b then _ else _] => destruct b end.
      * now rewrite lookup_delete_ne.
      * now rewrite lookup_insert_ne.
    + now rewrite lookup_insert_ne.
Qed.

Lemma lookup_run_ops_other ops : forall pm sym,
  Forall (fun op => op_symbol op <> sym) ops ->
  positions_ (run_ops pm ops) !! sym = positions_ pm !! sym.
Proof.
  induction ops as [|op ops IH]; intros pm sym Hall; [reflexivity|].
  inversion Hall; subst. cbn [run_ops fold_left].
  change (fold_left apply_op ops (apply_op pm op))
    with (run_ops (apply_op pm op) ops).
  rewrite IH by assumption. now apply lookup_apply_op_other.
Qed.

(** Only a bar for the symbol sets a mark. *)
Lemma mark_is_zero_apply_op pm op sym :
  is_bar_for sym op = false ->
  mark_is_zero sym pm -> mark_is_zero sym (apply_op pm op).
Proof.
  intros Hbar Hinv p Hp.
  destruct (decide (op_symbol op = sym)) as [Heq|Hne].
  - destruct op as [e|e]; cbn [apply_op op_symbol is_bar_for] in *.
    + apply String.eqb_neq in Hbar. contradiction.
    + subst sym. rewrite positions_on_trade_execution in Hp. cbv zeta in Hp.
      destruct (positions_ pm !! te_symbol e) as [p0|] eqn:Hold.
      * match type of Hp with
        | context [if ?b then _ else _] => destruct b
        end.
        -- rewrite lookup_delete_eq in Hp. discriminate.
        -- rewrite lookup_insert_eq in Hp. inversion Hp; subst.
           rewrite adjust_position_current_price. now apply Hinv.
      * rewrite lookup_insert_eq in Hp. inversion Hp; subst.
        now rewrite adjust_position_current_price.
  - rewrite lookup_apply_op_other in Hp by assumption. now apply Hinv.
Qed.

Lemma mark_is_zero_run_ops ops : forall pm sym,
  Forall (fun op => is_bar_for sym op = false) ops ->
  mark_is_zero sym pm -> mark_is_zero sym (run_ops pm ops).
Proof.
  induction ops as [|op ops IH]; intros pm sym Hall Hinv; [exact Hinv|].
  inversion Hall; subst. cbn [run_ops fold_left].
  apply IH; [assumption|]. now apply mark_is_zero_apply_op.
Qed.

Lemma market_value_zero_mark (p : Position) :
  current_price_ p = 0 -> get_market_value p == 0.
Proof.
  intros H. unfold get_market_value. rewrite H.
  assert (Hz : quantity_ p * 0 == 0) by ring. rewrite Hz. reflexivity.
Qed.

(** C10.  Mark price of a freshly opened position.  A fill for a symbol
    that has no position, of a quantity above the flat tolerance, creates
    the position with mark price 0, unrealized P&L
    [(0 - fill.price) * signed quantity] and market value 0.  The position
    stays exactly so while no event for the symbol arrives, and its mark
    price and market value stay 0 under any bars of other symbols and any
    fills until the next bar of the symbol. *)
Theorem fresh_position_mark_is_zero
  (pm : PositionManager) (ev : TradeExecutionEvent) :
  positions_ pm !! te_symbol ev = None ->
  eps < Qabs (te_quantity ev) ->
  exists p,
    positions_ (on_trade_execution pm ev) !! te_symbol ev = Some p /\
    current_price_ p = 0 /\
    unrealized_pnl_ p == (0 - te_price ev) * signed_quantity ev /\
    get_market_value p == 0 /\
    (forall ops,
        Forall (fun op => op_symbol op <> te_symbol ev) ops ->
        positions_ (run_ops (on_trade_execution pm ev) ops) !! te_symbol ev
        = Some p) /\
    (forall ops p',
        Forall (fun op => is_bar_for (te_symbol ev) op = false) ops ->
        positions_ (run_ops (on_trade_execution pm ev) ops) !! te_symbol ev
        = Some p' ->
        current_price_ p' = 0 /\ get_market_value p' == 0).
Proof.
  intros Hnone Hq.
  assert (Hs : eps < Qabs (signed_quantity ev)).
  { unfold signed_quantity. destruct (te_is_buy ev).
    - assert (Hone : te_quantity ev * 1 == te_quantity ev) by ring.
      now rewrite Hone.
    - assert (Hneg : te_quantity ev * -(1) == - te_quantity ev) by ring.
      rewrite Hneg, Qabs_opp. exact Hq. }
  pose proof (adjust_position_fresh (te_symbol ev) (signed_quantity ev)
                (te_price ev) Hs) as (_ & _ & _ & Hmark & Hunr & _).
  set (p := snd (adjust_position (Position.make (te_symbol ev) 0 0)
                   (signed_quantity ev) (te_price ev))) in *.
  assert (Hp : positions_ (on_trade_execution pm ev) !! te_symbol ev = Some p).
  { rewrite positions_on_trade_execution. cbv zeta. rewrite Hnone.
    now rewrite lookup_insert_eq. }
  assert (Hzero : mark_is_zero (te_symbol ev) (on_trade_execution pm ev)).
  { intros p0 Hp0. rewrite Hp in Hp0. now inversion Hp0; subst. }
  exists p.
  split; [exact Hp | split; [exact Hmark | split; [exact Hunr |]]].
  split; [now apply market_value_zero_mark | split].
  - intros ops Hall. now rewrite lookup_run_ops_other.
  - intros ops p' Hall Hp'.
    assert (Hm : current_price_ p' = 0)
      by (eapply (mark_is_zero_run_ops ops); eauto).
    split; [exact Hm | now apply market_value_zero_mark].
Qed.

(** The first buy of the long scenario: 100 at 150 into an empty ledger. *)
Lemma fresh_position_mark_is_zero_witness :
  positions_ (PositionManager.make 100000) !! "AAPL" = None /\
  eps < Qabs 100 /\
  exists p,
    positions_ (on_trade_execution (PositionManager.make 100000)
                  Scenario.buy_100_at_150) !! "AAPL" = Some p /\
    current_price_ p = 0 /\
    unrealized_pnl_ p == (0 - 150) * (100 * 1) /\
    get_market_value p == 0.
Proof.
  assert (H1 : positions_ (PositionManager.make 100000)
               !! te_symbol Scenario.buy_100_at_150 = None) by reflexivity.
  assert (H2 : eps < Qabs (te_quantity Scenario.buy_100_at_150))
    by (vm_compute; reflexivity).
  split; [exact H1 | split; [exact H2 |]].
  destruct (fresh_position_mark_is_zero _ _ H1 H2)
    as (p & Hp & Hm & Hu & Hv & _).
  exists p. repeat split; assumption.
Defined.

End Ledger.

Section LedgerAggregates.

Import Num Events Position PositionManager.
Local Open Scope Q_scope.

(** The realized P&L of a fill against the position: the closed quantity at
    the difference between the fill price and the entry price, signed by the
    direction of the position; it is also what the position adds to its own
    realized P&L. *)
Lemma adjust_position_realized (p : Position) (delta price : Q) :
  quantity_ p * delta < 0 ->
  fst (adjust_position p delta price)
  = (price - entry_price_ p) * std_min (Qabs delta) (Qabs (quantity_ p))
    * (if Qltb 0 (quantity_ p) then 1 else -(1)) /\
  realized_pnl_ (snd (adjust_position p delta price))
  = realized_pnl_ p + fst (adjust_position p delta price).
Proof.
  intros Hopp. unfold adjust_position.
  assert (Hclosure :
            Qneqb (quantity_ p) 0 &&
            (Qltb 0 (quantity_ p) && Qltb delta 0
             || Qltb (quantity_ p) 0 && Qltb 0 delta) = true).
  { apply andb_true_iff. split.
    - unfold Qneqb. apply negb_true_iff.
      destruct (Qeq_bool (quantity_ p) 0) eqn:Hz; [|reflexivity].
      apply Qeq_bool_iff in Hz. rewrite Hz in Hopp. lra.
    - apply orb_true_iff.
      destruct (Qlt_le_dec 0 (quantity_ p)) as [Hpos|Hneg].
      + left. apply andb_true_iff. split; apply Qltb_lt; [assumption|].
        destruct (Qlt_le_dec delta 0) as [Hd|Hd]; [assumption|].
        assert (0 <= quantity_ p * delta)
          by (apply Qmult_le_0_compat; lra).
        lra.
      + right.
        assert (Hprod : quantity_ p * delta == (- quantity_ p) * (- delta))
          by ring.
        apply andb_true_iff. split; apply Qltb_lt.
        * destruct (Qlt_le_dec (quantity_ p) 0) as [Hq|Hq]; [assumption|].
          assert (Hz : quantity_ p == 0) by lra.
          rewrite Hz in Hopp. lra.
        * destruct (Qlt_le_dec 0 delta) as [Hd|Hd]; [assumption|].
          assert (0 <= (- quantity_ p) * (- delta))
            by (apply Qmult_le_0_compat; lra).
          lra. }
  rewrite Hclosure.
  destruct (Qltb eps (Qabs (quantity_ p + delta))); cbn; split; reflexivity.
Qed.

Lemma stats_ite (b : bool) (x y : PositionManager) :
  portfolio_stats_ (if b then x else y)
  = if b then portfolio_stats_ x else portfolio_stats_ y.
Proof. now destruct b. Qed.

Lemma stats_remove_flat_position pm sym :
  portfolio_stats_ (remove_flat_position pm sym) = portfolio_stats_ pm.
Proof.
  unfold remove_flat_position.
  destruct (positions_ pm !! sym) as [p|]; [|reflexivity].
  now destruct (is_flat p).
Qed.

Ltac push_stats :=
  repeat (rewrite stats_ite;
          cbn [with_stats invalidate_cache with_cache with_positions
               portfolio_stats_]).

(** The aggregate realized P&L after a fill: the value returned by
    [adjust_position] is added by [update_portfolio_statistics], and the
    change of the position's own realized P&L is added once more at the end
    of [update_position_on_fill_lockfree]. *)
Lemma total_realized_on_trade_execution pm ev :
  let sym := te_symbol ev in
  let old := positions_ pm !! sym in
  let adj :=
    adjust_position
      (match old with Some p0 => p0 | None => Position.make sym 0 0 end)
      (signed_quantity ev) (te_price ev) in
  let change :=
    realized_pnl_ (snd adj)
    - match old with Some p0 => realized_pnl_ p0 | None => 0 end in
  get_total_realized_pnl (on_trade_execution pm ev)
  = let first :=
      if Qltb eps (Qabs (fst adj))
      then get_total_realized_pnl pm + fst adj
      else get_total_realized_pnl pm in
    if Qltb eps (Qabs change) then first + change else first.
Proof.
  unfold on_trade_execution, update_position_on_fill_lockfree,
    get_or_create_position, signed_quantity, get_total_realized_pnl,
    update_portfolio_statistics.
  cbv zeta.
  destruct (positions_ pm !! te_symbol ev) as [p0|] eqn:Hold;
    cbn [push_trade with_stats positions_ portfolio_stats_];
    rewrite Hold;
    match goal with
    | |- context [adjust_position ?a ?b ?c] =>
        destruct (adjust_position a b c) as [r p]
    end;
    cbn [fst snd andb negb];
    push_stats;
    rewrite ?stats_remove_flat_position;
    cbn [with_stats invalidate_cache with_cache with_positions
         portfolio_stats_];
    push_stats;
    repeat match goal with
           | |- context [if ?b then _ else _] => destruct b
           end;
    reflexivity.
Qed.

(** C4.  The aggregate realized P&L moves by twice the realized P&L of the
    fill.  For every fill against an existing position (it reduces or flips
    it) whose realized P&L
    [(fill.price - entry) * closed_qty * sign(q)] exceeds the tolerance
    [1e-8] in absolute value, the total realized P&L of the portfolio
    changes by two times that amount. *)
Theorem realized_pnl_is_counted_twice
  (pm : PositionManager) (ev : TradeExecutionEvent) (p0 : Position) :
  positions_ pm !! te_symbol ev = Some p0 ->
  quantity_ p0 * signed_quantity ev < 0 ->
  eps < Qabs ((te_price ev - entry_price_ p0)
              * std_min (Qabs (signed_quantity ev)) (Qabs (quantity_ p0))
              * (if Qltb 0 (quantity_ p0) then 1 else -(1))) ->
  get_total_realized_pnl (on_trade_execution pm ev)
  - get_total_realized_pnl pm
  == 2 * ((te_price ev - entry_price_ p0)
          * std_min (Qabs (signed_quantity ev)) (Qabs (quantity_ p0))
          * (if Qltb 0 (quantity_ p0) then 1 else -(1))).
Proof.
  intros Hold Hopp Hbig.
  rewrite total_realized_on_trade_execution. cbv zeta. rewrite Hold.
  destruct (adjust_position_realized p0 (signed_quantity ev) (te_price ev) Hopp)
    as [Hfst Hsnd].
  rewrite Hsnd, Hfst.
  set (x := (te_price ev - entry_price_ p0)
            * std_min (Qabs (signed_quantity ev)) (Qabs (quantity_ p0))
            * (if Qltb 0 (quantity_ p0) then 1 else -(1))) in *.
  assert (Hx : Qltb eps (Qabs x) = true) by now apply Qltb_lt.
  assert (Hchange : realized_pnl_ p0 + x - realized_pnl_ p0 == x) by ring.
  rewrite Hchange, Hx. ring.
Qed.

(** Closing the long of 100 entered at 150 by the sale at 160: the total
    realized P&L rises by 2000, twice the 1000 the trade made. *)
Lemma realized_pnl_is_counted_twice_witness :
  get_total_realized_pnl
    (on_trade_execution (Scenario.ledger_after_bar 100000)
       Scenario.sell_100_at_160)
  - get_total_realized_pnl (Scenario.ledger_after_bar 100000)
  == 2 * ((160 - 150) * 100 * 1).
Proof.
  assert (Hold : exists p0,
             positions_ (Scenario.ledger_after_bar 100000)
             !! te_symbol Scenario.sell_100_at_160 = Some p0 /\
             quantity_ p0 == 100 /\ entry_price_ p0 == 150).
  { eexists. split; [vm_compute; reflexivity|].
    split; vm_compute; reflexivity. }
  destruct Hold as (p0 & Hp0 & Hq & He).
  assert (Hopp : quantity_ p0 * signed_quantity Scenario.sell_100_at_160 < 0).
  { rewrite Hq. vm_compute. reflexivity. }
  assert (Hlong : Qltb 0 (quantity_ p0) = true).
  { rewrite Hq. reflexivity. }
  assert (Hmin : std_min (Qabs (signed_quantity Scenario.sell_100_at_160))
                   (Qabs (quantity_ p0)) == 100).
  { unfold std_min. rewrite Hq.
    change (Qltb (Qabs 100)
              (Qabs (signed_quantity Scenario.sell_100_at_160))) with false.
    cbn iota. vm_compute. reflexivity. }
  pose proof (realized_pnl_is_counted_twice _ _ p0 Hp0 Hopp) as Htwice.
  rewrite Hlong, Hmin, He in Htwice.
  apply Htwice. vm_compute. reflexivity.
Defined.

(** What a fill does to the aggregates: the cash changes by the value of
    the trade and the commission; the equity total and the market-value
    total move by the change of the position's market value when it exceeds
    the tolerance, and by nothing else. *)
Lemma aggregates_on_trade_execution pm ev :
  let sym := te_symbol ev in
  let old := positions_ pm !! sym in
  let adj :=
    adjust_position
      (match old with Some p0 => p0 | None => Position.make sym 0 0 end)
      (signed_quantity ev) (te_price ev) in
  let market_value_change :=
    get_market_value (snd adj)
    - match old with Some p0 => get_market_value p0 | None => 0 end in
  let cash_change :=
    (if te_is_buy ev then -(1) else 1) * (te_quantity ev * te_price ev)
    - te_commission ev in
  let after := portfolio_stats_ (on_trade_execution pm ev) in
  available_cash after = available_cash (portfolio_stats_ pm) + cash_change /\
  total_equity after
  = (if Qltb eps (Qabs market_value_change)
     then total_equity (portfolio_stats_ pm) + market_value_change
     else total_equity (portfolio_stats_ pm)) /\
  total_market_value after
  = (if Qltb eps (Qabs market_value_change)
     then total_market_value (portfolio_stats_ pm) + market_value_change
     else total_market_value (portfolio_stats_ pm)).
Proof.
  unfold on_trade_execution, update_position_on_fill_lockfree,
    get_or_create_position, signed_quantity, update_portfolio_statistics.
  cbv zeta.
  destruct (positions_ pm !! te_symbol ev) as [p0|] eqn:Hold;
    cbn [push_trade with_stats positions_ portfolio_stats_];
    rewrite Hold;
    match goal with
    | |- context [adjust_position ?a ?b ?c] =>
        destruct (adjust_position a b c) as [r p]
    end;
    cbn [fst snd andb negb];
    push_stats;
    rewrite ?stats_remove_flat_position;
    cbn [with_stats invalidate_cache with_cache with_positions
         portfolio_stats_];
    push_stats;
    repeat match goal with
           | |- context [if ?b then _ else _] => destruct b
           end;
    repeat split; reflexivity.
Qed.

(** C1.  Total equity is not cash plus market value.  A fill changes the
    available cash by the value of the trade and the commission, but the
    equity total only by as much as the market-value total; so after the
    buy of 100 at 150 with commission 5 and the bar closing at 155, from an
    initial capital of 100000, [get_total_equity] returns 115500: the 15005
    paid never reach the equity total.  Cash plus the market value of the
    positions is 100495, which is what [recalculate_portfolio_totals] stores
    when it is run on the same ledger. *)
Theorem total_equity_misses_cash_change :
  (forall pm ev,
      let before := portfolio_stats_ pm in
      let after := portfolio_stats_ (on_trade_execution pm ev) in
      available_cash after - available_cash before
      == (if te_is_buy ev then -(1) else 1) * (te_quantity ev * te_price ev)
         - te_commission ev /\
      total_equity after - total_equity before
      == total_market_value after - total_market_value before) /\
  let pm := Scenario.ledger_after_bar 100000 in
  fst (get_total_equity pm) == 100000 + 15500 /\
  get_available_cash pm + sum_market_values pm == 100000 - 15005 + 15500 /\
  ~ fst (get_total_equity pm) == get_available_cash pm + sum_market_values pm /\
  fst (get_total_equity (recalculate_portfolio_totals pm))
  == 100000 - 15005 + 15500.
Proof.
  split.
  - intros pm ev. cbv zeta.
    destruct (aggregates_on_trade_execution pm ev) as (Hcash & Heq & Hmv).
    rewrite Hcash, Heq, Hmv. split; [ring|].
    match goal with |- context [if ?b then _ else _] => destruct b end; ring.
  - cbv zeta. split; [|split; [|split]].
    + vm_compute. reflexivity.
    + vm_compute. reflexivity.
    + vm_compute. discriminate.
    + vm_compute. reflexivity.
Qed.

End LedgerAggregates.

(** * Further properties of the code *)

(** ** More on the ring buffer: size rounding, barrier, occupancy, clear *)

Section RingBufferConfig.

Import Num Disruptor.
Local Open Scope Z_scope.

Lemma shiftl_one_pow2 (i : Z) :
  0 <= i < 63 -> wrap_uint64 (Z.shiftl (2 ^ i) 1) = 2 ^ (i + 1).
Proof.
  intros Hi. rewrite Z.shiftl_mul_pow2 by lia.
  rewrite Z.pow_add_r by lia. change (2 ^ 1) with 2.
  apply wrap_uint64_small.
  assert (2 ^ i <= 2 ^ 62) by (apply Z.pow_le_mono_r; lia).
  assert (0 < 2 ^ i) by (apply Z.pow_pos_nonneg; lia). lia.
Qed.

(** The rounding loop started at [2 ^ i] ends at the least power of two
    that is not below the size, for sizes up to [2 ^ 63]. *)
Lemma next_power_loop_terminates (size : Z) (fuel : nat) : forall i,
  0 <= i <= 63 -> size <= 2 ^ 63 -> (i = 0 \/ 2 ^ (i - 1) < size) ->
  (Z.to_nat (63 - i) <= fuel)%nat ->
  exists j, i <= j <= 63 /\
    next_power_loop fuel (2 ^ i) size = Some (2 ^ j) /\
    size <= 2 ^ j /\ (j = i \/ 2 ^ (j - 1) < size).
Proof.
  induction fuel as [|fuel IH]; intros i Hi Hsize Hlow Hfuel.
  - assert (i = 63) by lia. subst i. exists 63.
    cbn [next_power_loop].
    assert (Hge : (2 ^ 63 <? size) = false) by (apply Z.ltb_ge; lia).
    rewrite Hge. repeat split; lia.
  - cbn [next_power_loop].
    destruct (2 ^ i <? size) eqn:Hlt.
    + apply Z.ltb_lt in Hlt.
      assert (Hi63 : i < 63).
      { destruct (Z_lt_ge_dec i 63) as [|Hge]; [assumption|].
        assert (2 ^ 63 <= 2 ^ i) by (apply Z.pow_le_mono_r; lia). lia. }
      rewrite shiftl_one_pow2 by lia.
      destruct (IH (i + 1)) as (j & Hj & Hloop & Hup & Hmin); try lia.
      { right. now replace (i + 1 - 1) with i by lia. }
      exists j. repeat split; try lia; try assumption.
      destruct Hmin as [->|Hmin]; [|now right].
      right. now replace (i + 1 - 1) with i by lia.
    + apply Z.ltb_ge in Hlt. exists i. repeat split; lia.
Qed.

(** A positive number that shares no bit with its predecessor is a power
    of two. *)
Lemma land_pred_zero_pow2 (n : Z) :
  0 < n -> Z.land n (n - 1) = 0 -> n = 2 ^ Z.log2 n.
Proof.
  intros Hn Hland.
  pose proof (Z.log2_spec n Hn) as [Hlo Hhi].
  pose proof (Z.log2_nonneg n) as Hj.
  destruct (Z.eq_dec n (2 ^ Z.log2 n)) as [|Hne]; [assumption|exfalso].
  assert (Hlog : Z.log2 (n - 1) = Z.log2 n).
  { apply Z.log2_unique; [assumption|]. lia. }
  assert (Hb1 : Z.testbit n (Z.log2 n) = true) by (apply Z.bit_log2; lia).
  assert (Hb2 : Z.testbit (n - 1) (Z.log2 n) = true).
  { rewrite <- Hlog. apply Z.bit_log2.
    assert (0 < 2 ^ Z.log2 n) by (apply Z.pow_pos_nonneg; lia). lia. }
  assert (Hb : Z.testbit (Z.land n (n - 1)) (Z.log2 n) = true)
    by (rewrite Z.land_spec, Hb1, Hb2; reflexivity).
  rewrite Hland, Z.bits_0 in Hb. discriminate.
Qed.

(** X1.  [Config::validate] on a requested size of at most [2 ^ 63] returns,
    and the validated size is a power of two between 2 and [2 ^ 63] that is
    not below the requested size; from size 2 on it is the least such
    power. *)
Theorem validate_rounds_up_to_power_of_two (c : Config) :
  0 <= buffer_size c <= 2 ^ 63 ->
  exists j, 1 <= j <= 63 /\
    validate c = Some (with_buffer_size (2 ^ j) c) /\
    buffer_size c <= 2 ^ j /\
    (2 <= buffer_size c -> 2 ^ j < 2 * buffer_size c).
Proof.
  intros Hsize. unfold validate.
  set (n := buffer_size c) in *.
  assert (Hpow : forall j, 1 <= j -> 2 <= 2 ^ j).
  { intros j Hj. change 2 with (2 ^ 1) at 1. apply Z.pow_le_mono_r; lia. }
  assert (Hdouble : forall j, 1 <= j -> 2 ^ j = 2 * 2 ^ (j - 1)).
  { intros j Hj. replace j with (1 + (j - 1)) at 1 by lia.
    rewrite Z.pow_add_r by lia. reflexivity. }
  destruct (Z.land n (wrap_uint64 (n - 1)) =? 0) eqn:Hland; cbn [negb].
  - apply Z.eqb_eq in Hland.
    destruct (Z.eq_dec n 0) as [Hz|Hnz].
    + exists 1. rewrite Hz. cbn. repeat split; lia.
    + rewrite wrap_uint64_small in Hland by lia.
      pose proof (land_pred_zero_pow2 n ltac:(lia) Hland) as Hn.
      pose proof (Z.log2_nonneg n) as Hj.
      destruct (Z.eq_dec (Z.log2 n) 0) as [Hj0|Hj0].
      * rewrite Hj0 in Hn. change (2 ^ 0) with 1 in Hn.
        exists 1. rewrite Hn. cbn. repeat split; lia.
      * assert (Hj63 : Z.log2 n <= 63).
        { destruct (Z_le_gt_dec (Z.log2 n) 63) as [|Hgt]; [assumption|].
          assert (2 ^ 64 <= 2 ^ Z.log2 n) by (apply Z.pow_le_mono_r; lia).
          lia. }
        pose proof (Hpow (Z.log2 n) ltac:(lia)) as H2.
        exists (Z.log2 n). rewrite <- Hn.
        assert (Hlt : (n <? 2) = false) by (apply Z.ltb_ge; lia).
        rewrite Hlt. repeat split; try lia.
  - apply Z.eqb_neq in Hland.
    assert (Hn3 : 3 <= n).
    { assert (Hcases : n = 0 \/ n = 1 \/ n = 2 \/ 3 <= n) by lia.
      destruct Hcases as [Hn|[Hn|[Hn|Hn]]]; [| | |assumption];
        rewrite Hn in Hland; exfalso; apply Hland; reflexivity. }
    destruct (next_power_loop_terminates n 65 0) as (j & Hj & Hloop & Hup & Hmin);
      try lia.
    change (2 ^ 0) with 1 in Hloop. rewrite Hloop.
    assert (Hj2 : 2 <= j).
    { destruct Hmin as [->|Hmin]; [change (2 ^ 0) with 1 in Hup; lia|].
      destruct (Z_le_gt_dec 2 j) as [|Hgt]; [assumption|].
      assert (j = 1) by (destruct (Z.eq_dec j 0); [subst; cbn in Hup; lia | lia]).
      subst j. cbn in Hup. lia. }
    pose proof (Hpow j ltac:(lia)) as H2.
    assert (Hlt : (2 ^ j <? 2) = false) by (apply Z.ltb_ge; lia).
    rewrite Hlt. exists j. repeat split; try lia.
    intros _. destruct Hmin as [->|Hmin]; [lia|].
    rewrite (Hdouble j) by lia. lia.
Qed.

Lemma validate_rounds_up_to_power_of_two_witness :
  0 <= buffer_size (config_of_size 1000) <= 2 ^ 63 /\
  exists j, 1 <= j <= 63 /\
    validate (config_of_size 1000)
    = Some (with_buffer_size (2 ^ j) (config_of_size 1000)) /\
    buffer_size (config_of_size 1000) <= 2 ^ j /\
    (2 <= buffer_size (config_of_size 1000) ->
     2 ^ j < 2 * buffer_size (config_of_size 1000)).
Proof.
  assert (H : 0 <= buffer_size (config_of_size 1000) <= 2 ^ 63)
    by (cbn; lia).
  split; [exact H|].
  exact (validate_rounds_up_to_power_of_two (config_of_size 1000) H).
Defined.

(** Above [2 ^ 63] the doubling passes through [2 ^ 63] to 0 and stays
    there, below the size, however long the loop runs. *)
Lemma next_power_loop_diverges (size : Z) (fuel : nat) : forall next_power,
  2 ^ 63 < size ->
  (next_power = 0 \/ exists i, 0 <= i <= 63 /\ next_power = 2 ^ i) ->
  next_power_loop fuel next_power size = None.
Proof.
  induction fuel as [|fuel IH]; intros next_power Hsize Hnp.
  - cbn [next_power_loop].
    assert (Hlt : (next_power <? size) = true).
    { apply Z.ltb_lt. destruct Hnp as [->|(i & Hi & ->)]; [lia|].
      assert (2 ^ i <= 2 ^ 63) by (apply Z.pow_le_mono_r; lia). lia. }
    now rewrite Hlt.
  - cbn [next_power_loop].
    assert (Hlt : (next_power <? size) = true).
    { apply Z.ltb_lt. destruct Hnp as [->|(i & Hi & ->)]; [lia|].
      assert (2 ^ i <= 2 ^ 63) by (apply Z.pow_le_mono_r; lia). lia. }
    rewrite Hlt. apply IH; [assumption|].
    destruct Hnp as [->|(i & Hi & ->)]; [now left|].
    destruct (Z.eq_dec i 63) as [->|Hne]; [now left|].
    right. exists (i + 1). split; [lia|]. apply shiftl_one_pow2. lia.
Qed.

(** X2.  For a requested size above [2 ^ 63] the rounding loop of
    [Config::validate] never ends: no amount of fuel lets it return, and
    the model of [validate] reports exactly that. *)
Theorem validate_never_returns_above_2_63 (c : Config) :
  2 ^ 63 < buffer_size c < 2 ^ 64 ->
  validate c = None /\
  forall fuel, next_power_loop fuel 1 (buffer_size c) = None.
Proof.
  intros Hsize.
  assert (Hloop : forall fuel, next_power_loop fuel 1 (buffer_size c) = None).
  { intros fuel. apply next_power_loop_diverges; [lia|].
    right. exists 0. split; [lia | reflexivity]. }
  split; [|exact Hloop].
  unfold validate. set (n := buffer_size c) in *.
  assert (Hland : (Z.land n (wrap_uint64 (n - 1)) =? 0) = false).
  { apply Z.eqb_neq. intros Hz.
    rewrite wrap_uint64_small in Hz by lia.
    assert (Hl1 : Z.log2 n = 63) by (apply Z.log2_unique; lia).
    assert (Hl2 : Z.log2 (n - 1) = 63) by (apply Z.log2_unique; lia).
    assert (Hb1 : Z.testbit n 63 = true)
      by (rewrite <- Hl1; apply Z.bit_log2; lia).
    assert (Hb2 : Z.testbit (n - 1) 63 = true)
      by (rewrite <- Hl2; apply Z.bit_log2; lia).
    assert (Hb : Z.testbit (Z.land n (n - 1)) 63 = true)
      by (rewrite Z.land_spec, Hb1, Hb2; reflexivity).
    rewrite Hz, Z.bits_0 in Hb. discriminate. }
  rewrite Hland. cbn [negb]. now rewrite Hloop.
Qed.

Lemma validate_never_returns_above_2_63_witness :
  2 ^ 63 < buffer_size (config_of_size (2 ^ 63 + 1)) < 2 ^ 64 /\
  validate (config_of_size (2 ^ 63 + 1)) = None.
Proof.
  assert (H : 2 ^ 63 < buffer_size (config_of_size (2 ^ 63 + 1)) < 2 ^ 64)
    by (cbn; lia).
  split; [exact H|].
  exact (proj1 (validate_never_returns_above_2_63 _ H)).
Defined.

(** X3.  [SequenceBarrier::try_wait_for]: the answer is -1 when the cursor
    is behind the requested sequence; otherwise it is the least of the
    cursor and the dependency sequences, which may lie below the requested
    sequence. *)
Theorem try_wait_for_is_least_sequence
  (producer_sequence : Z) (dependency_sequences : list Z) (sequence : Z) :
  let r := try_wait_for producer_sequence dependency_sequences sequence in
  (producer_sequence < sequence /\ r = -1) \/
  (sequence <= producer_sequence /\ r <= producer_sequence /\
   Forall (fun d => r <= d) dependency_sequences /\
   (r = producer_sequence \/ In r dependency_sequences)).
Proof.
  cbv zeta. unfold try_wait_for.
  destruct (producer_sequence <? sequence) eqn:Hlt.
  - left. apply Z.ltb_lt in Hlt. now split.
  - right. apply Z.ltb_ge in Hlt. split; [assumption|].
    unfold get_minimum_sequence_of_dependencies.
    generalize producer_sequence as a. clear Hlt.
    induction dependency_sequences as [|d ds IH]; intros a.
    + cbn. repeat split; [lia | constructor | now left].
    + cbn [fold_left].
      destruct (d <? a) eqn:Hd.
      * apply Z.ltb_lt in Hd.
        destruct (IH d) as (Hle & Hall & Hin).
        repeat split; [lia | constructor; [assumption|assumption] |].
        right. destruct Hin as [->|Hin]; [now left | now right].
      * apply Z.ltb_ge in Hd.
        destruct (IH a) as (Hle & Hall & Hin).
        repeat split; [assumption | constructor; [lia|assumption] |].
        destruct Hin as [Hin|Hin]; [now left | right; now right].
Qed.

End RingBufferConfig.

Section RingBufferState.

Import Num Disruptor.
Local Open Scope Z_scope.

Context {E : Type}.

(** A queue of four slots into which 5 and 6 were published. *)
Lemma queue_inv_two_pending :
  exists q : DisruptorQueue nat,
    queue_inv 2 [5%nat; 6%nat] q /\ consumer_sequence_ q = -1.
Proof.
  destruct (new_inv (E:=nat) 2 ltac:(lia)) as (q0 & _ & Hinv0 & Hc0).
  destruct (try_publish_room 2 ltac:(lia) [] q0 5%nat Hinv0)
    as (q1 & _ & Hinv1 & Hc1 & _); [cbn; lia | rewrite Hc0;
      assert (cursor_ q0 + 1 = 0) by apply Hinv0; lia |].
  destruct (try_publish_room 2 ltac:(lia) [5%nat] q1 6%nat Hinv1)
    as (q2 & _ & Hinv2 & Hc2 & _); [cbn; lia | rewrite Hc1, Hc0;
      assert (cursor_ q1 + 1 = 1) by apply Hinv1; lia |].
  exists q2. split; [exact Hinv2 | congruence].
Qed.

(** X4.  Occupancy.  In a queue built with a power-of-two size, [size] is
    the distance from the consumer to the cursor and never exceeds the
    capacity, [empty] holds exactly at size 0, and [try_publish] is refused
    exactly when the size has reached the capacity: a refused publish
    leaves the queue as it was, an accepted one raises the size by one. *)
Theorem try_publish_refused_exactly_when_full
  (k : Z) (pub : list E) (q : DisruptorQueue E) (e : E) :
  1 <= k < 63 ->
  queue_inv k pub q -> Z.of_nat (length pub) < 2 ^ 62 ->
  size q = cursor_ q - consumer_sequence_ q /\
  0 <= size q <= capacity q /\
  (empty q = true <-> size q = 0) /\
  exists q',
    try_publish q (Some e) = Some (size q <? capacity q, q') /\
    (size q = capacity q -> q' = q) /\
    (size q < capacity q -> size q' = size q + 1).
Proof.
  intros Hk Hinv Hlen.
  pose proof (pow2_bounds k Hk) as HP.
  assert (Hsz : buffer_size (config_ q) = 2 ^ k) by apply Hinv.
  assert (Hord : -1 <= consumer_sequence_ q <= cursor_ q) by apply Hinv.
  assert (Hcap : cursor_ q - consumer_sequence_ q <= 2 ^ k) by apply Hinv.
  assert (Hcur : cursor_ q + 1 = Z.of_nat (length pub)) by apply Hinv.
  assert (Hsize : size q = cursor_ q - consumer_sequence_ q).
  { unfold size. rewrite wrap_int64_small by lia. lia. }
  unfold capacity. rewrite Hsize, Hsz.
  split; [reflexivity|]. split; [lia|]. split.
  { unfold empty. rewrite Z.geb_le. lia. }
  destruct (Z.eq_dec (cursor_ q - consumer_sequence_ q) (2 ^ k)) as [Hfull|Hroom].
  - exists q. rewrite (try_publish_full k Hk pub q e Hinv Hlen Hfull).
    assert (Hlt : (cursor_ q - consumer_sequence_ q <? 2 ^ k) = false)
      by (apply Z.ltb_ge; lia).
    rewrite Hlt. split; [reflexivity|].
    split; [intros _; reflexivity | lia].
  - destruct (try_publish_room k Hk pub q e Hinv Hlen ltac:(lia))
      as (q' & Hpub & Hinv' & Hc' & Hcur').
    exists q'. rewrite Hpub.
    assert (Hlt : (cursor_ q - consumer_sequence_ q <? 2 ^ k) = true)
      by (apply Z.ltb_lt; lia).
    rewrite Hlt. split; [reflexivity|]. split; [lia|]. intros _.
    unfold size. rewrite Hc', Hcur', wrap_int64_small by lia. lia.
Qed.

(** X5.  [clear] drops what is pending.  In a queue built with a
    power-of-two size, after [clear] every slot holds [nullptr] and the
    consumer sequence stands at the cursor, which has not moved: the queue
    is empty, its size is 0, and a [try_consume] finds nothing and changes
    nothing, whatever had been published before.  The capacity is as
    before, the sequence numbers are not reset (the state is one the queue
    can be in after the same publishes), and clearing twice is clearing
    once. *)
Theorem clear_drops_pending_events
  (k : Z) (pub : list E) (q : DisruptorQueue E) :
  1 <= k < 63 ->
  queue_inv k pub q ->
  Z.of_nat (length pub) < 2 ^ 62 ->
  empty (clear q) = true /\ size (clear q) = 0 /\
  try_consume (clear q) = Some (None, clear q) /\
  (forall i slot, buffer_ (clear q) !! i = Some slot -> slot = None) /\
  consumer_sequence_ (clear q) = cursor_ q /\
  cursor_ (clear q) = cursor_ q /\ capacity (clear q) = capacity q /\
  queue_inv k pub (clear q) /\
  clear (clear q) = clear q.
Proof.
  intros Hk Hinv Hlen.
  pose proof (pow2_bounds k Hk) as HP.
  assert (Hclear : queue_inv k pub (clear q)).
  { destruct Hinv as (Hsz & Hmask & Hbuf & Hdep & Hord & Hcap & Hpub & Hslots).
    unfold queue_inv, clear, clear_internal, set_consumer_sequence.
    cbn [config_ buffer_mask_ buffer_ cursor_ consumer_sequence_
         barrier_dependencies_].
    rewrite length_map.
    split; [assumption|]. split; [assumption|]. split; [assumption|].
    split; [assumption|]. split; [lia|]. split; [lia|].
    split; [assumption|]. intros s Hs. lia. }
  assert (Hcc : consumer_sequence_ (clear q) = cursor_ (clear q)) by reflexivity.
  assert (Hcur : cursor_ (clear q) + 1 = Z.of_nat (length pub)) by apply Hclear.
  split; [unfold empty; rewrite Hcc; apply Z.geb_le; lia|].
  split; [unfold size; rewrite Hcc, Z.sub_diag; reflexivity|].
  split; [apply (try_consume_empty k Hk pub); [assumption | lia | assumption]|].
  split.
  { intros i slot Hi. unfold clear, clear_internal, set_consumer_sequence in Hi.
    cbn [buffer_] in Hi. rewrite list_lookup_fmap in Hi.
    destruct (buffer_ q !! i); cbn in Hi; congruence. }
  split; [reflexivity|]. split; [reflexivity|]. split; [reflexivity|].
  split; [assumption|].
  unfold clear, clear_internal, set_consumer_sequence.
  cbn [config_ buffer_mask_ buffer_ cursor_ consumer_sequence_
       barrier_dependencies_].
  f_equal. rewrite map_map. reflexivity.
Qed.


End RingBufferState.

Section RingBufferStateWitnesses.

Import Num Disruptor.
Local Open Scope Z_scope.

Lemma try_publish_refused_exactly_when_full_witness :
  1 <= 2 < 63 /\
  exists q : DisruptorQueue nat,
    queue_inv 2 [5%nat; 6%nat] q /\
    Z.of_nat (length [5%nat; 6%nat]) < 2 ^ 62 /\
    size q = 2 /\
    exists q', try_publish q (Some 7%nat) = Some (size q <? capacity q, q').
Proof.
  assert (Hk : 1 <= 2 < 63) by lia.
  assert (Hlen : Z.of_nat (length [5%nat; 6%nat]) < 2 ^ 62) by (cbn; lia).
  split; [exact Hk|].
  destruct queue_inv_two_pending as (q & Hinv & Hc).
  exists q. split; [exact Hinv|]. split; [exact Hlen|].
  destruct (try_publish_refused_exactly_when_full 2 _ q 7%nat Hk Hinv Hlen)
    as (Hsize & _ & _ & q' & Hpub & _).
  split.
  - rewrite Hsize, Hc.
    assert (cursor_ q + 1 = 2) by apply Hinv. lia.
  - exists q'. exact Hpub.
Defined.

Lemma clear_drops_pending_events_witness :
  1 <= 2 < 63 /\
  exists q : DisruptorQueue nat,
    queue_inv 2 [5%nat; 6%nat] q /\
    Z.of_nat (length [5%nat; 6%nat]) < 2 ^ 62 /\
    size q = 2 /\
    try_consume (clear q) = Some (None, clear q).
Proof.
  assert (Hk : 1 <= 2 < 63) by lia.
  assert (Hlen : Z.of_nat (length [5%nat; 6%nat]) < 2 ^ 62) by (cbn; lia).
  split; [exact Hk|].
  destruct queue_inv_two_pending as (q & Hinv & Hc).
  exists q. split; [exact Hinv|]. split; [exact Hlen|].
  split.
  - unfold size. rewrite Hc.
    assert (Hcur : cursor_ q + 1 = 2) by apply Hinv.
    replace (cursor_ q) with 1 by lia. reflexivity.
  - destruct (clear_drops_pending_events 2 _ q Hk Hinv Hlen)
      as (_ & _ & Hcons & _).
    exact Hcons.
Defined.


End RingBufferStateWitnesses.

(** ** More on the event pool and the dispatch loop *)

Section MemoryPoolFacts.

Import Events Engine.

Lemma free_list_push_all (l : list nat) : forall p : MemoryPool,
  free_list_ (fold_left (fun acc b => push_free_block b acc) l p)
  = reverse l ++ free_list_ p.
Proof.
  induction l as [|b l IH]; intros p; [reflexivity|].
  cbn [fold_left]. rewrite IH, reverse_cons. cbn [push_free_block free_list_].
  now rewrite <- app_assoc.
Qed.

Lemma free_list_allocate_chunk (n : nat) (p : MemoryPool) :
  free_list_ (allocate_chunk n p)
  = reverse (seq (current_size_ p) n) ++ free_list_ p.
Proof. unfold allocate_chunk. cbn [free_list_]. apply free_list_push_all. Qed.

Lemma pool_ok_allocate_chunk (n : nat) (p : MemoryPool) :
  pool_ok p -> pool_ok (allocate_chunk n p).
Proof.
  intros (Hnd & Hfree & Halloc). unfold pool_ok.
  rewrite free_list_allocate_chunk, allocated_allocate_chunk.
  cbn [allocate_chunk current_size_].
  split; [|split].
  - apply NoDup_app. split; [|split; [|assumption]].
    + rewrite reverse_Permutation. apply NoDup_seq.
    + intros b Hb Hb'. apply elem_of_reverse, elem_of_seq in Hb.
      apply Hfree in Hb'. lia.
  - intros b Hb. apply elem_of_app in Hb. destruct Hb as [Hb|Hb].
    + apply elem_of_reverse, elem_of_seq in Hb.
      split; [|lia]. intros Hin. apply Halloc in Hin. lia.
    + apply Hfree in Hb. split; [tauto | lia].
  - intros b Hb. apply Halloc in Hb. lia.
Qed.

Lemma pool_ok_pop_free_block (p p' : MemoryPool) (b : nat) :
  pool_ok p -> pop_free_block p = Some (b, p') ->
  (b ∉ allocated_ p) /\ pool_ok (mark_allocated b p').
Proof.
  intros (Hnd & Hfree & Halloc). unfold pop_free_block.
  destruct (free_list_ p) as [|b0 rest] eqn:Hfl; [discriminate|].
  intros Hpop. inversion Hpop; subst b0 p'; clear Hpop.
  apply NoDup_cons in Hnd. destruct Hnd as [Hnotin Hnd].
  destruct (Hfree b ltac:(left)) as [Hb Hlt].
  split; [assumption|]. unfold pool_ok.
  cbn [mark_allocated free_list_ allocated_ current_size_].
  split; [assumption|]. split.
  - intros b' Hb'.
    assert (Hin : b' ∈ b :: rest) by now right.
    destruct (Hfree b' Hin) as [Hn Hl].
    split; [|assumption]. intros Hu.
    apply elem_of_union in Hu. destruct Hu as [Hu|Hu]; [|tauto].
    apply elem_of_singleton in Hu. subst b'. tauto.
  - intros b' Hb'. apply elem_of_union in Hb'. destruct Hb' as [Hb'|Hb'].
    + apply elem_of_singleton in Hb'. now subst.
    + now apply Halloc.
Qed.

(** What [allocate] returns, case by case. *)
Lemma allocate_cases (p : MemoryPool) :
  (exists b p0, pop_free_block p = Some (b, p0) /\
                allocate p = (Some b, mark_allocated b p0)) \/
  (free_list_ p = [] /\ expand_pool p = None /\ allocate p = (None, p)) \/
  (exists b p1 p2, free_list_ p = [] /\ expand_pool p = Some p1 /\
                   pop_free_block p1 = Some (b, p2) /\
                   allocate p = (Some b, mark_allocated b p2)).
Proof.
  unfold allocate.
  destruct (pop_free_block p) as [[b p0]|] eqn:Hpop.
  - left. now exists b, p0.
  - right.
    assert (Hfl : free_list_ p = []).
    { unfold pop_free_block in Hpop. now destruct (free_list_ p). }
    destruct (expand_pool p) as [p1|] eqn:Hexp.
    + right. unfold expand_pool in Hexp.
      destruct (Nat.min (size_t_mul (current_size_ p) (growth_factor p))
          (max_pool_size p)
                <=? current_size_ p)%nat eqn:Hle; [discriminate|].
      apply Nat.leb_gt in Hle. inversion Hexp; subst p1; clear Hexp.
      pose proof (free_list_allocate_chunk
        (Nat.min (size_t_mul (current_size_ p) (growth_factor p))
          (max_pool_size p)
         - current_size_ p) p) as Hchunk.
      destruct (Nat.min (size_t_mul (current_size_ p) (growth_factor p))
          (max_pool_size p)
                - current_size_ p)%nat as [|n] eqn:Hn; [lia|].
      rewrite seq_S, reverse_app, reverse_singleton in Hchunk.
      cbn [app] in Hchunk.
      assert (Hpop1 : exists b p2,
                 pop_free_block (allocate_chunk (S n) p) = Some (b, p2)).
      { unfold pop_free_block. rewrite Hchunk. eauto. }
      destruct Hpop1 as (b & p2 & Hpop1). rewrite Hpop1.
      exists b, (allocate_chunk (S n) p), p2. split; [exact Hfl|].
      split; [reflexivity|]. split; [exact Hpop1 | reflexivity].
    + left. repeat split; assumption.
Qed.

Lemma allocate_fresh (p p' : MemoryPool) (b : nat) :
  pool_ok p -> allocate p = (Some b, p') ->
  (b ∉ allocated_ p) /\ allocated_ p' = {[ b ]} ∪ allocated_ p /\ pool_ok p'.
Proof.
  intros Hok Halloc.
  destruct (allocate_cases p)
    as [(b0 & p0 & Hpop & Heq)|[(_ & _ & Heq)|(b0 & p1 & p2 & _ & Hexp & Hpop & Heq)]];
    rewrite Heq in Halloc; inversion Halloc; subst; clear Halloc.
  - destruct (pool_ok_pop_free_block p p0 b Hok Hpop) as [Hb Hok'].
    split; [assumption|]. split; [|assumption].
    cbn [mark_allocated allocated_].
    now rewrite (allocated_pop_free_block _ _ _ Hpop).
  - unfold expand_pool in Hexp.
    destruct (Nat.min (size_t_mul (current_size_ p) (growth_factor p))
          (max_pool_size p)
              <=? current_size_ p)%nat; [discriminate|].
    inversion Hexp; subst p1; clear Hexp.
    pose proof (pool_ok_allocate_chunk
      (Nat.min (size_t_mul (current_size_ p) (growth_factor p))
          (max_pool_size p)
       - current_size_ p) p Hok) as Hok1.
    destruct (pool_ok_pop_free_block _ p2 b Hok1 Hpop) as [Hb Hok'].
    rewrite allocated_allocate_chunk in Hb.
    split; [assumption|]. split; [|assumption].
    cbn [mark_allocated allocated_].
    now rewrite (allocated_pop_free_block _ _ _ Hpop), allocated_allocate_chunk.
Qed.

(** X6.  [MemoryPool::allocate] on a pool whose bookkeeping is sound hands
    out a block that was not handed out before, marks exactly this block as
    allocated, and leaves the bookkeeping sound; so no block is ever held by
    two callers as long as every block is released at most once. *)
Theorem allocate_hands_out_a_free_block (p p' : MemoryPool) (b : nat) :
  pool_ok p -> allocate p = (Some b, p') ->
  (b ∉ allocated_ p) /\ allocated_ p' = {[ b ]} ∪ allocated_ p /\ pool_ok p'.
Proof. exact (allocate_fresh p p' b). Qed.

Lemma pool_ok_new_pool : pool_ok new_pool.
Proof.
  apply pool_ok_allocate_chunk. unfold pool_ok. cbn.
  split; [constructor|].
  split; intros b Hb;
    [apply elem_of_nil in Hb | apply elem_of_empty in Hb]; contradiction.
Qed.

Lemma allocate_new_pool : exists b p', allocate new_pool = (Some b, p').
Proof.
  destruct (allocate_cases new_pool)
    as [(b & p0 & _ & Heq)|[(Hfl & _)|(b & p1 & p2 & Hfl & _)]];
    [eauto | exfalso | exfalso];
    apply (f_equal length) in Hfl; unfold new_pool in Hfl;
    rewrite free_list_allocate_chunk, length_app, length_reverse, length_seq
      in Hfl; cbn [length free_list_] in Hfl; lia.
Qed.

Lemma allocate_hands_out_a_free_block_witness :
  pool_ok new_pool /\
  exists b p', allocate new_pool = (Some b, p') /\ (b ∉ allocated_ new_pool).
Proof.
  split; [exact pool_ok_new_pool|].
  destruct allocate_new_pool as (b & p' & Halloc).
  exists b, p'. split; [exact Halloc|].
  exact (proj1 (allocate_hands_out_a_free_block new_pool p' b
                  pool_ok_new_pool Halloc)).
Defined.

(** X7.  Release followed by acquire.  Releasing a block that is handed out
    keeps the bookkeeping sound, and the next [allocate] returns this very
    block and restores the pool to the state before the release: the free
    list is a stack. *)
Theorem deallocate_then_allocate_returns_block (p : MemoryPool) (b : nat) :
  pool_ok p -> b ∈ allocated_ p ->
  pool_ok (deallocate b p) /\ (b ∉ allocated_ (deallocate b p)) /\
  allocate (deallocate b p) = (Some b, p).
Proof.
  intros (Hnd & Hfree & Halloc) Hb.
  split; [|split].
  - unfold pool_ok, deallocate.
    cbn [push_free_block free_list_ allocated_ current_size_].
    split; [|split].
    + apply NoDup_cons. split; [|assumption].
      intros Hin. apply Hfree in Hin. tauto.
    + intros b' Hb'. apply elem_of_cons in Hb'. destruct Hb' as [->|Hb'].
      * split; [|now apply Halloc].
        rewrite elem_of_difference, elem_of_singleton. tauto.
      * destruct (Hfree b' Hb') as [Hn Hl]. split; [|assumption].
        rewrite elem_of_difference. tauto.
    + intros b' Hb'. apply Halloc.
      apply elem_of_difference in Hb'. tauto.
  - unfold deallocate. cbn [push_free_block allocated_].
    rewrite elem_of_difference, elem_of_singleton. tauto.
  - destruct p as [fl al cs gf mx].
    cbn [allocated_] in Hb.
    unfold allocate, deallocate, pop_free_block, push_free_block,
      mark_allocated.
    cbn [free_list_ allocated_ current_size_ growth_factor max_pool_size].
    f_equal. f_equal.
    apply set_eq. intros x. rewrite elem_of_union, elem_of_difference,
      elem_of_singleton.
    destruct (decide (x = b)) as [->|Hne]; tauto.
Qed.

Lemma deallocate_then_allocate_returns_block_witness :
  exists b p',
    allocate new_pool = (Some b, p') /\ pool_ok p' /\ b ∈ allocated_ p' /\
    allocate (deallocate b p') = (Some b, p').
Proof.
  destruct allocate_new_pool as (b & p' & Halloc).
  destruct (allocate_fresh new_pool p' b pool_ok_new_pool Halloc)
    as (_ & Hal & Hok).
  assert (Hb : b ∈ allocated_ p')
    by (rewrite Hal, elem_of_union, elem_of_singleton; now left).
  exists b, p'. split; [exact Halloc|]. split; [exact Hok|].
  split; [exact Hb|].
  exact (proj2 (proj2 (deallocate_then_allocate_returns_block p' b Hok Hb))).
Defined.

(** Nothing guards against a double release: after the same block has been
    released twice, the next two calls of [allocate] both return it, so two
    callers hold the same block; the bookkeeping of such a pool is not
    sound. *)
Lemma double_release_hands_block_out_twice (p : MemoryPool) (b : nat) :
  exists p1 p2,
    allocate (deallocate b (deallocate b p)) = (Some b, p1) /\
    allocate p1 = (Some b, p2) /\
    ~ pool_ok (deallocate b (deallocate b p)).
Proof.
  eexists _, _. split; [reflexivity|]. split; [reflexivity|].
  intros (Hnd & _). unfold deallocate in Hnd.
  cbn [push_free_block free_list_] in Hnd.
  apply NoDup_cons in Hnd. destruct Hnd as [Hnotin _].
  apply Hnotin. now left.
Qed.



Lemma allocated_after_release (p p' : MemoryPool) (b : nat) :
  pool_ok p -> allocate p = (Some b, p') ->
  b ∈ allocated_ p' /\ allocated_ (deallocate b p') = allocated_ p.
Proof.
  intros Hok Halloc.
  destruct (allocate_fresh p p' b Hok Halloc) as (Hb & Hal & _).
  split; [rewrite Hal, elem_of_union, elem_of_singleton; now left|].
  unfold deallocate. cbn [push_free_block allocated_]. rewrite Hal.
  apply set_eq. intros x. rewrite elem_of_difference, elem_of_union,
    elem_of_singleton.
  destruct (decide (x = b)) as [->|Hne]; tauto.
Qed.

(** X9.  [EventPool::destroy_event] undoes each of the three creators: the
    event created is handed out by the pool of its type, and destroying it
    releases its block there, so that the blocks handed out by the three
    pools are again those from before the creation.  Destroying [nullptr]
    does nothing. *)
Theorem destroy_event_undoes_create (pool : EventPool)
  (md : MarketDataEvent) (sg : TradingSignalEvent) (te : TradeExecutionEvent) :
  pool_ok (market_data_pool_ pool) -> pool_ok (signal_pool_ pool) ->
  pool_ok (execution_pool_ pool) ->
  destroy_event pool None = pool /\
  forall ptr pool',
    create_market_data_event pool md = (Some ptr, pool') \/
    create_trading_signal_event pool sg = (Some ptr, pool') \/
    create_trade_execution_event pool te = (Some ptr, pool') ->
    is_allocated pool' ptr /\
    ~ is_allocated (destroy_event pool' (Some ptr)) ptr /\
    pool_le (destroy_event pool' (Some ptr)) pool /\
    pool_le pool (destroy_event pool' (Some ptr)).
Proof.
  intros Hmd Hsg Hte. split; [reflexivity|].
  intros ptr pool' [Hc|[Hc|Hc]].
  - unfold create_market_data_event in Hc.
    destruct (allocate (market_data_pool_ pool)) as [[b|] p] eqn:Halloc;
      cbn [option_map] in Hc; inversion Hc; subst; clear Hc.
    destruct (allocated_after_release _ _ _ Hmd Halloc) as [Hin Heq].
    unfold is_allocated, destroy_event, pool_le.
    cbn [ptr_event ptr_block get_type market_data_pool_ signal_pool_
         execution_pool_].
    rewrite Heq. split; [assumption|]. split.
    + rewrite <- Heq. unfold deallocate. cbn [push_free_block allocated_].
      rewrite elem_of_difference, elem_of_singleton. tauto.
    + repeat split; reflexivity.
  - unfold create_trading_signal_event in Hc.
    destruct (allocate (signal_pool_ pool)) as [[b|] p] eqn:Halloc;
      cbn [option_map] in Hc; inversion Hc; subst; clear Hc.
    destruct (allocated_after_release _ _ _ Hsg Halloc) as [Hin Heq].
    unfold is_allocated, destroy_event, pool_le.
    cbn [ptr_event ptr_block get_type market_data_pool_ signal_pool_
         execution_pool_].
    rewrite Heq. split; [assumption|]. split.
    + rewrite <- Heq. unfold deallocate. cbn [push_free_block allocated_].
      rewrite elem_of_difference, elem_of_singleton. tauto.
    + repeat split; reflexivity.
  - unfold create_trade_execution_event in Hc.
    destruct (allocate (execution_pool_ pool)) as [[b|] p] eqn:Halloc;
      cbn [option_map] in Hc; inversion Hc; subst; clear Hc.
    destruct (allocated_after_release _ _ _ Hte Halloc) as [Hin Heq].
    unfold is_allocated, destroy_event, pool_le.
    cbn [ptr_event ptr_block get_type market_data_pool_ signal_pool_
         execution_pool_].
    rewrite Heq. split; [assumption|]. split.
    + rewrite <- Heq. unfold deallocate. cbn [push_free_block allocated_].
      rewrite elem_of_difference, elem_of_singleton. tauto.
    + repeat split; reflexivity.
Qed.

Lemma destroy_event_undoes_create_witness :
  pool_ok (market_data_pool_ new_event_pool) /\
  pool_ok (signal_pool_ new_event_pool) /\
  pool_ok (execution_pool_ new_event_pool) /\
  destroy_event new_event_pool None = new_event_pool.
Proof.
  split; [exact pool_ok_new_pool|].
  split; [exact pool_ok_new_pool|].
  split; [exact pool_ok_new_pool|].
  exact (proj1 (destroy_event_undoes_create new_event_pool
    Scenario.bar_close_155
    {| sig_strategy_id := "s"; sig_symbol := "AAPL"; sig_signal := Events.BUY;
       sig_confidence := 1; sig_suggested_quantity := 100 |}
    Scenario.buy_100_at_150
    pool_ok_new_pool pool_ok_new_pool pool_ok_new_pool)).
Defined.

End MemoryPoolFacts.

(** ** More on orders and price levels *)

Section PriceLevelFacts.

Import Num.
Local Open Scope Q_scope.

(** [try_fill] on an order that can be matched. *)
Lemma try_fill_active (o : Order.Order) (r : Q) :
  Order.is_active o = true -> 0 < r ->
  0 < fst (Order.try_fill o r) /\
  fst (Order.try_fill o r) <= r /\
  fst (Order.try_fill o r) <= Order.quantity o /\
  Order.order_id (snd (Order.try_fill o r)) = Order.order_id o /\
  (if PriceLevel.is_open (snd (Order.try_fill o r))
   then Order.quantity (snd (Order.try_fill o r)) else 0)
  == Order.quantity o - fst (Order.try_fill o r).
Proof.
  intros Hact Hr. unfold Order.is_active in Hact.
  apply andb_true_iff in Hact. destruct Hact as [_ Hq].
  unfold Order.try_fill. rewrite Hq.
  assert (Hr' : Qltb 0 r = true) by now apply Qltb_lt.
  rewrite Hr'. cbn [andb fst snd]. apply Qltb_lt in Hq.
  unfold std_min, PriceLevel.is_open.
  cbn [Order.set_quantity_status Order.quantity Order.status Order.order_id].
  destruct (Qltb r (Order.quantity o)) eqn:Hcmp.
  - apply Qltb_lt in Hcmp.
    repeat split; try lra.
    destruct (Qeq_bool (Order.quantity o - r) 0) eqn:Hz; cbn.
    + apply Qeq_bool_iff in Hz. lra.
    + reflexivity.
  - apply Qltb_ge in Hcmp.
    repeat split; try lra.
    destruct (Qeq_bool (Order.quantity o - Order.quantity o) 0) eqn:Hz; cbn.
    + apply Qeq_bool_iff in Hz. lra.
    + reflexivity.
Qed.

(** X11.  [Order::try_fill] never fills more than was asked for or than
    remains, takes exactly the filled quantity off the remaining quantity,
    and changes nothing but quantity and status; it fills nothing, and
    leaves the order as it is, exactly when the order has nothing remaining
    or the requested quantity is not positive. *)
Theorem try_fill_conserves_quantity (o : Order.Order) (fill_quantity : Q) :
  let filled := fst (Order.try_fill o fill_quantity) in
  let o' := snd (Order.try_fill o fill_quantity) in
  0 <= filled /\
  Order.quantity o' == Order.quantity o - filled /\
  (0 < filled <-> 0 < Order.quantity o /\ 0 < fill_quantity) /\
  (0 < filled -> filled <= fill_quantity /\ filled <= Order.quantity o) /\
  (filled == 0 -> o' = o) /\
  Order.order_id o' = Order.order_id o /\ Order.side o' = Order.side o /\
  Order.price o' = Order.price o /\
  Order.original_quantity o' = Order.original_quantity o.
Proof.
  cbv zeta. unfold Order.try_fill.
  destruct (Qltb 0 (Order.quantity o)) eqn:Hq;
    destruct (Qltb 0 fill_quantity) eqn:Hf; cbn [andb fst snd].
  - apply Qltb_lt in Hq. apply Qltb_lt in Hf. unfold std_min.
    cbn [Order.set_quantity_status Order.quantity Order.order_id Order.side
         Order.price Order.original_quantity].
    destruct (Qltb fill_quantity (Order.quantity o)) eqn:Hcmp;
      [apply Qltb_lt in Hcmp | apply Qltb_ge in Hcmp];
      repeat split; try lra; intros; lra.
  - apply Qltb_lt in Hq. apply Qltb_ge in Hf.
    repeat split; try lra; intros; try lra; try tauto.
  - apply Qltb_ge in Hq. repeat split; try lra; intros; try lra; try tauto.
  - apply Qltb_ge in Hq. repeat split; try lra; intros; try lra; try tauto.
Qed.

(** The walk of [match_orders]. *)
Lemma walk_chain_spec (side : Order.Side) (chain : list Order.Order) :
  forall t r : Q,
    let res := PriceLevel.walk_chain chain side t r in
    snd (fst res) + snd res == t + r /\
    t <= snd (fst res) /\
    (0 <= r -> 0 <= snd res) /\
    map Order.order_id (fst (fst res)) = map Order.order_id chain /\
    PriceLevel.open_quantity (fst (fst res))
    == PriceLevel.open_quantity chain - (snd (fst res) - t) /\
    (forall i o, chain !! i = Some o ->
       Order.is_active o = false \/
       PriceLevel.is_opposite_side (Order.side o) side = false ->
       fst (fst res) !! i = Some o).
Proof.
  induction chain as [|current rest IH]; intros t r; cbv zeta.
  - cbn. repeat split; try lra. intros i o Hi. now rewrite lookup_nil in Hi.
  - cbn [PriceLevel.walk_chain].
    destruct (Qltb 0 r) eqn:Hr.
    2:{ apply Qltb_ge in Hr. cbn [fst snd].
        repeat split; try lra. auto. }
    apply Qltb_lt in Hr.
    destruct (PriceLevel.is_opposite_side (Order.side current) side
              && Order.is_active current) eqn:Hgo.
    + apply andb_true_iff in Hgo. destruct Hgo as [Hopp Hact].
      destruct (try_fill_active current r Hact Hr)
        as (Hm0 & Hmr & Hmq & Hid & Hopen).
      destruct (Order.try_fill current r) as [matched current'].
      cbn [fst snd] in Hm0, Hmr, Hmq, Hid, Hopen.
      assert (Hm0' : Qltb 0 matched = true) by now apply Qltb_lt.
      rewrite Hm0'.
      specialize (IH (t + matched) (r - matched)). cbv zeta in IH.
      destruct (PriceLevel.walk_chain rest side (t + matched) (r - matched))
        as [[rest' t'] r'].
      cbn [fst snd] in IH |- *.
      destruct IH as (Hsum & Hle & Hpos & Hids & Hq & Hsame).
      cbn [map PriceLevel.open_quantity].
      split; [lra|]. split; [lra|].
      split; [intros _; apply Hpos; lra|].
      split; [now rewrite Hid, Hids|].
      assert (Hopc : PriceLevel.is_open current = true).
      { unfold Order.is_active in Hact. apply andb_true_iff in Hact.
        exact (proj1 Hact). }
      rewrite Hopc.
      split; [lra|].
      intros [|i] o Hi Hskip; cbn in Hi |- *.
      * inversion Hi; subst o. destruct Hskip; congruence.
      * now apply Hsame.
    + specialize (IH t r). cbv zeta in IH.
      destruct (PriceLevel.walk_chain rest side t r) as [[rest' t'] r'].
      cbn [fst snd] in IH |- *.
      destruct IH as (Hsum & Hle & Hpos & Hids & Hq & Hsame).
      cbn [map PriceLevel.open_quantity].
      split; [lra|]. split; [lra|]. split; [assumption|].
      split; [now rewrite Hids|].
      split; [lra|].
      intros [|i] o Hi Hskip; cbn in Hi |- *; [assumption|].
      now apply Hsame.
Qed.

Lemma match_orders_spec
  (l : PriceLevel.PriceLevel) (side : Order.Side)
  (quantity max_price min_price : Q) :
  let matched :=
    fst (PriceLevel.match_orders l side quantity max_price min_price) in
  let l' := snd (PriceLevel.match_orders l side quantity max_price min_price) in
  0 <= matched /\ (0 <= quantity -> matched <= quantity) /\
  PriceLevel.total_quantity_ l' == PriceLevel.total_quantity_ l - matched /\
  PriceLevel.open_quantity (PriceLevel.chain_ l')
  == PriceLevel.open_quantity (PriceLevel.chain_ l) - matched /\
  PriceLevel.order_count_ l' = PriceLevel.order_count_ l /\
  PriceLevel.price_ l' = PriceLevel.price_ l /\
  map Order.order_id (PriceLevel.chain_ l')
  = map Order.order_id (PriceLevel.chain_ l) /\
  (forall i o, PriceLevel.chain_ l !! i = Some o ->
     Order.is_active o = false \/
     PriceLevel.is_opposite_side (Order.side o) side = false ->
     PriceLevel.chain_ l' !! i = Some o).
Proof.
  cbv zeta. unfold PriceLevel.match_orders.
  destruct (_ && _ && _);
    [cbn; repeat split; try lra; try (intros; lra); auto|].
  destruct (_ && _ && _);
    [cbn; repeat split; try lra; try (intros; lra); auto|].
  pose proof (walk_chain_spec side (PriceLevel.chain_ l) 0 quantity) as Hw.
  cbv zeta in Hw.
  destruct (PriceLevel.walk_chain (PriceLevel.chain_ l) side 0 quantity)
    as [[chain' total_matched] remaining].
  cbn [fst snd] in Hw |- *.
  destruct Hw as (Hsum & Hle & Hpos & Hids & Hq & Hskip).
  cbn [PriceLevel.total_quantity_ PriceLevel.chain_ PriceLevel.order_count_
       PriceLevel.price_].
  split; [lra|]. split; [intros H0; specialize (Hpos H0); lra|].
  split; [lra|]. split; [lra|]. split; [reflexivity|].
  split; [reflexivity|]. split; [exact Hids | exact Hskip].
Qed.

(** A fill of an order that can be matched: either the whole order, which
    is then FULLY_FILLED with nothing remaining, or the whole request, which
    leaves the order PARTIALLY_FILLED with a positive remainder. *)
Lemma try_fill_outcome (o : Order.Order) (r : Q) :
  Order.is_active o = true -> 0 < r ->
  let filled := fst (Order.try_fill o r) in
  let o' := snd (Order.try_fill o r) in
  0 < filled /\ ~ Order.quantity o' == Order.quantity o /\
  PriceLevel.not_cancelled o = true /\ PriceLevel.not_cancelled o' = true /\
  ((Order.status o' = Order.FULLY_FILLED /\ Order.quantity o' == 0) \/
   (Order.status o' = Order.PARTIALLY_FILLED /\ 0 < Order.quantity o' /\
    r - filled == 0)).
Proof.
  intros Hact Hr. unfold Order.is_active in Hact.
  apply andb_true_iff in Hact. destruct Hact as [Hst Hq].
  assert (Hnc : PriceLevel.not_cancelled o = true).
  { unfold PriceLevel.not_cancelled. destruct (Order.status o); cbn in *;
      congruence. }
  cbv zeta. unfold Order.try_fill. rewrite Hq.
  assert (Hr' : Qltb 0 r = true) by now apply Qltb_lt.
  rewrite Hr'. cbn [andb fst snd]. apply Qltb_lt in Hq.
  unfold std_min, PriceLevel.not_cancelled.
  cbn [Order.set_quantity_status Order.quantity Order.status].
  destruct (Qltb r (Order.quantity o)) eqn:Hcmp.
  - apply Qltb_lt in Hcmp.
    destruct (Qeq_bool (Order.quantity o - r) 0) eqn:Hz;
      [apply Qeq_bool_iff in Hz; lra|].
    split; [assumption|]. split; [lra|]. split; [assumption|].
    split; [reflexivity|]. right.
    split; [reflexivity|]. split; lra.
  - apply Qltb_ge in Hcmp.
    destruct (Qeq_bool (Order.quantity o - Order.quantity o) 0) eqn:Hz.
    + split; [assumption|]. split; [lra|]. split; [assumption|].
      split; [reflexivity|]. left. split; [reflexivity | lra].
    + exfalso. apply Qeq_bool_neq in Hz. apply Hz. ring.
Qed.

(** The walk of [match_orders] goes down the chain and stops at the first
    order that takes up the rest of the request. *)
Lemma walk_chain_order (side : Order.Side) (chain : list Order.Order) :
  forall t r : Q,
    let res := PriceLevel.walk_chain chain side t r in
    let chain' := fst (fst res) in
    (~ 0 < r -> chain' = chain) /\
    (snd (fst res) == t -> chain' = chain) /\
    (t < snd (fst res) -> chain' <> chain) /\
    map PriceLevel.not_cancelled chain' = map PriceLevel.not_cancelled chain /\
    (forall i o o', chain !! i = Some o -> chain' !! i = Some o' -> o' <> o ->
       PriceLevel.can_match side o = true /\
       ((Order.status o' = Order.FULLY_FILLED /\ Order.quantity o' == 0) \/
        (Order.status o' = Order.PARTIALLY_FILLED /\ 0 < Order.quantity o' /\
         drop (S i) chain' = drop (S i) chain))) /\
    (forall i o, chain !! i = Some o -> chain' !! i = Some o ->
       PriceLevel.can_match side o = true ->
       drop (S i) chain' = drop (S i) chain).
Proof.
  induction chain as [|current rest IH]; intros t r; cbv zeta.
  - cbn. split; [reflexivity|]. split; [reflexivity|].
    split; [intros Hlt; lra|]. split; [reflexivity|].
    split; intros i o; now rewrite lookup_nil.
  - pose proof (walk_chain_spec side (current :: rest) t r) as Hspec.
    cbv zeta in Hspec. destruct Hspec as (_ & Hmono & _).
    cbn [PriceLevel.walk_chain] in Hmono |- *.
    destruct (Qltb 0 r) eqn:Hr.
    2:{ cbn [fst snd]. split; [reflexivity|]. split; [reflexivity|].
        split; [intros Hlt; lra|]. split; [reflexivity|].
        split; [intros i o o' Hi Hi' Hne; congruence | reflexivity]. }
    apply Qltb_lt in Hr.
    change (PriceLevel.is_opposite_side (Order.side current) side
            && Order.is_active current)
      with (PriceLevel.can_match side current) in Hmono |- *.
    destruct (PriceLevel.can_match side current) eqn:Hgo.
    + assert (Hact : Order.is_active current = true).
      { unfold PriceLevel.can_match in Hgo. apply andb_true_iff in Hgo. tauto. }
      pose proof (try_fill_outcome current r Hact Hr) as Hout.
      cbv zeta in Hout.
      destruct (Order.try_fill current r) as [matched current'].
      cbn [fst snd] in Hout.
      destruct Hout as (Hm0 & Hqne & Hnc & Hnc' & Hcase).
      assert (Hm0' : Qltb 0 matched = true) by now apply Qltb_lt.
      rewrite Hm0' in Hmono |- *.
      pose proof (walk_chain_spec side rest (t + matched) (r - matched)) as Hs2.
      cbv zeta in Hs2. destruct Hs2 as (_ & Hmono2 & _).
      specialize (IH (t + matched) (r - matched)). cbv zeta in IH.
      destruct (PriceLevel.walk_chain rest side (t + matched) (r - matched))
        as [[rest' t'] r'].
      cbn [fst snd] in IH, Hmono, Hmono2 |- *.
      destruct IH as (Hstop & _ & _ & Hncs & Htouched & Hleft).
      assert (Hne : current' <> current).
      { intros Heq. apply Hqne. now rewrite Heq. }
      split; [intros Hno; lra|].
      split; [intros Heq; lra|].
      split; [intros _ Heq; inversion Heq; contradiction|].
      split; [cbn [map]; now rewrite Hnc, Hnc', Hncs|].
      split.
      * intros [|i] o o' Hi Hi' Hneq; cbn in Hi, Hi'.
        -- inversion Hi; subst o. inversion Hi'; subst o'.
           split; [assumption|].
           destruct Hcase as [Hfull|(Hst & Hpos & Hrest)]; [now left|].
           right. split; [assumption|]. split; [assumption|].
           cbn [drop]. rewrite !drop_0. apply Hstop. lra.
        -- destruct (Htouched i o o' Hi Hi' Hneq) as [Hcm Hc].
           split; [assumption|]. cbn [drop]. exact Hc.
      * intros [|i] o Hi Hi' Hcm; cbn in Hi, Hi'.
        -- inversion Hi; subst o. inversion Hi'. contradiction.
        -- cbn [drop]. now apply (Hleft i o).
    + specialize (IH t r). cbv zeta in IH.
      destruct (PriceLevel.walk_chain rest side t r) as [[rest' t'] r'].
      cbn [fst snd] in IH, Hmono |- *.
      destruct IH as (Hstop & Hsame & Hdiff & Hncs & Htouched & Hleft).
      split; [intros Hno; lra|].
      split; [intros Heq; now rewrite (Hsame Heq)|].
      split; [intros Hlt Heq; inversion Heq; now apply (Hdiff Hlt)|].
      split; [cbn [map]; now rewrite Hncs|].
      split.
      * intros [|i] o o' Hi Hi' Hneq; cbn in Hi, Hi'.
        -- congruence.
        -- destruct (Htouched i o o' Hi Hi' Hneq) as [Hcm Hc].
           split; [assumption|]. cbn [drop]. exact Hc.
      * intros [|i] o Hi Hi' Hcm; cbn in Hi, Hi'.
        -- inversion Hi; subst o. congruence.
        -- cbn [drop]. now apply (Hleft i o).
Qed.


(** The scan of [remove_order] and the orders that were not cancelled. *)
Lemma cancel_in_chain_count (id : Z) (chain : list Order.Order) :
  match fst (PriceLevel.cancel_in_chain chain id) with
  | Some _ =>
      exists o, List.find (fun o => Z.eqb (Order.order_id o) id) chain = Some o /\
        (length (List.filter PriceLevel.not_cancelled
                   (snd (PriceLevel.cancel_in_chain chain id)))
         + (if PriceLevel.not_cancelled o then 1 else 0)
         = length (List.filter PriceLevel.not_cancelled chain))%nat
  | None =>
      List.find (fun o => Z.eqb (Order.order_id o) id) chain = None /\
      snd (PriceLevel.cancel_in_chain chain id) = chain
  end.
Proof.
  induction chain as [|current rest IH]; [cbn; auto|].
  cbn [PriceLevel.cancel_in_chain List.find].
  destruct (Z.eqb (Order.order_id current) id) eqn:Hid.
  - cbn [fst snd]. exists current. split; [reflexivity|].
    cbn [List.filter].
    unfold PriceLevel.not_cancelled at 1.
    cbn [Order.set_quantity_status Order.status Order.Status_eqb negb].
    destruct (PriceLevel.not_cancelled current); cbn [length]; lia.
  - destruct (PriceLevel.cancel_in_chain rest id) as [[removed|] rest'];
      cbn [fst snd] in IH |- *.
    + destruct IH as (o & Hfind & Hlen). exists o.
      split; [assumption|]. cbn [List.filter].
      destruct (PriceLevel.not_cancelled current); cbn [length]; lia.
    + destruct IH as [Hfind Hsame]. split; [assumption|]. now rewrite Hsame.
Qed.

Lemma filter_length_by_map {A : Type} (f : A -> bool) (l l' : list A) :
  map f l' = map f l -> length (List.filter f l') = length (List.filter f l).
Proof.
  revert l'. induction l as [|a l IH]; intros [|a' l'] Hmap;
    try discriminate; [reflexivity|].
  cbn [map] in Hmap. inversion Hmap as [[Ha Hl]].
  cbn [List.filter]. rewrite Ha. destruct (f a); cbn [length];
    now rewrite (IH l' Hl).
Qed.

(** X13.  What [order_count_] counts.  If the order count of a level is the
    number of linked orders that were not cancelled, it still is after
    [add_order], after [match_orders] (an order that is filled stays linked
    and counted), and after [remove_order] of an order that was not
    cancelled before.  [remove_order] does not look at the status: on an
    order that is already cancelled it succeeds again and lowers the count
    a second time, which then no longer is that number. *)
Theorem order_count_counts_uncancelled_orders (l : PriceLevel.PriceLevel) :
  PriceLevel.count_ok l ->
  (Z.of_nat (length (PriceLevel.chain_ l)) < 2 ^ 64 - 1)%Z ->
  (forall order, PriceLevel.not_cancelled order = true ->
     PriceLevel.count_ok (snd (PriceLevel.add_order l order))) /\
  (forall side quantity max_price min_price,
     PriceLevel.count_ok
       (snd (PriceLevel.match_orders l side quantity max_price min_price))) /\
  (forall id,
     (forall o, PriceLevel.find_order l id = Some o ->
                PriceLevel.not_cancelled o = true) ->
     PriceLevel.count_ok (snd (PriceLevel.remove_order l id))) /\
  (forall id o, PriceLevel.find_order l id = Some o ->
     PriceLevel.not_cancelled o = false ->
     fst (PriceLevel.remove_order l id) = true /\
     PriceLevel.order_count_ (snd (PriceLevel.remove_order l id))
     = wrap_uint64 (PriceLevel.order_count_ l - 1) /\
     ~ PriceLevel.count_ok (snd (PriceLevel.remove_order l id))).
Proof.
  unfold PriceLevel.count_ok. intros Hc Hlen.
  pose proof (filter_length (A:=Order.Order) PriceLevel.not_cancelled
                (PriceLevel.chain_ l)) as Hfl.
  split; [|split; [|split]].
  - intros order Hnc. unfold PriceLevel.add_order.
    destruct (Qltb eps _); cbn [snd]; [assumption|].
    cbn [PriceLevel.order_count_ PriceLevel.chain_ List.filter].
    rewrite Hnc. cbn [length].
    rewrite wrap_uint64_small by lia. lia.
  - intros side quantity max_price min_price.
    pose proof (match_orders_spec l side quantity max_price min_price) as Hspec.
    cbv zeta in Hspec. destruct Hspec as (_ & _ & _ & _ & Hcount & _).
    rewrite Hcount, Hc. f_equal. symmetry.
    apply filter_length_by_map.
    unfold PriceLevel.match_orders.
    destruct (_ && _ && _); [reflexivity|].
    destruct (_ && _ && _); [reflexivity|].
    pose proof (walk_chain_order side (PriceLevel.chain_ l) 0 quantity) as Hw.
    cbv zeta in Hw.
    destruct (PriceLevel.walk_chain (PriceLevel.chain_ l) side 0 quantity)
      as [[chain' total_matched] remaining].
    cbn [fst snd PriceLevel.chain_] in Hw |- *.
    now destruct Hw as (_ & _ & _ & Hncs & _).
  - intros id Hfound. unfold PriceLevel.remove_order.
    pose proof (cancel_in_chain_count id (PriceLevel.chain_ l)) as Hcc.
    unfold PriceLevel.find_order in Hfound.
    destruct (PriceLevel.cancel_in_chain (PriceLevel.chain_ l) id)
      as [[removed|] chain']; cbn [fst snd] in Hcc |- *; [|assumption].
    destruct Hcc as (o & Hfind & Hlen').
    rewrite (Hfound o Hfind) in Hlen'.
    cbn [PriceLevel.order_count_ PriceLevel.chain_].
    rewrite wrap_uint64_small by lia. lia.
  - intros id o Hfind Hnc. unfold PriceLevel.remove_order.
    pose proof (cancel_in_chain_count id (PriceLevel.chain_ l)) as Hcc.
    unfold PriceLevel.find_order in Hfind.
    destruct (PriceLevel.cancel_in_chain (PriceLevel.chain_ l) id)
      as [[removed|] chain']; cbn [fst snd] in Hcc |- *.
    + destruct Hcc as (o' & Hfind' & Hlen').
      assert (o' = o) by congruence. subst o'. rewrite Hnc in Hlen'.
      cbn [PriceLevel.order_count_ PriceLevel.chain_].
      split; [reflexivity|]. split; [reflexivity|].
      intros Hbad.
      replace (length (List.filter PriceLevel.not_cancelled chain'))
        with (length (List.filter PriceLevel.not_cancelled (PriceLevel.chain_ l)))
        in Hbad by lia.
      rewrite <- Hc in Hbad. unfold wrap_uint64 in Hbad.
      destruct (Z.eq_dec (PriceLevel.order_count_ l) 0%Z) as [Hz|Hnz].
      * rewrite Hz in Hbad. vm_compute in Hbad. discriminate.
      * rewrite Z.mod_small in Hbad by lia. lia.
    + destruct Hcc as [Hnone _]. congruence.
Qed.

Lemma order_count_counts_uncancelled_orders_witness :
  PriceLevel.count_ok Scenario.level_two_sells /\
  (Z.of_nat (length (PriceLevel.chain_ Scenario.level_two_sells))
   < 2 ^ 64 - 1)%Z /\
  PriceLevel.count_ok
    (snd (PriceLevel.match_orders Scenario.level_two_sells Order.BUY 80 0 0)) /\
  PriceLevel.order_count_
    (snd (PriceLevel.match_orders Scenario.level_two_sells Order.BUY 80 0 0))
  = 2%Z.
Proof.
  assert (H : PriceLevel.count_ok Scenario.level_two_sells)
    by (vm_compute; reflexivity).
  assert (Hlen : (Z.of_nat (length (PriceLevel.chain_ Scenario.level_two_sells))
                  < 2 ^ 64 - 1)%Z) by (vm_compute; reflexivity).
  split; [exact H|]. split; [exact Hlen|].
  destruct (order_count_counts_uncancelled_orders _ H Hlen) as (_ & Hm & _).
  split; [exact (Hm Order.BUY 80 0 0)|].
  vm_compute. reflexivity.
Defined.

End PriceLevelFacts.

(** ** More on the order book: ticks, ladders, best prices *)

Section LadderFacts.

Import Num LockFreeOrderBook.
Local Open Scope Q_scope.

Lemma before_irrefl (side : Order.Side) (a : Q) : before side a a = false.
Proof. destruct side; apply Qltb_ge, Qle_refl. Qed.

Lemma before_trans (side : Order.Side) (a b c : Q) :
  before side a b = true -> before side b c = true -> before side a c = true.
Proof.
  destruct side; cbn; rewrite !Qltb_lt; intros H1 H2; lra.
Qed.

Lemma before_false_eq (side : Order.Side) (a b : Q) :
  before side a b = false -> before side b a = false -> a == b.
Proof.
  destruct side; cbn; rewrite !Qltb_ge; intros H1 H2; lra.
Qed.

Lemma before_asym (side : Order.Side) (a b : Q) :
  before side a b = true -> before side b a = false.
Proof.
  destruct side; cbn; rewrite Qltb_lt, Qltb_ge; intros H1; lra.
Qed.

Lemma before_eq_l (side : Order.Side) (a a' b : Q) :
  a == a' -> before side a b = before side a' b.
Proof. intros Ha. destruct side; cbn; now rewrite Ha. Qed.

Lemma before_eq_r (side : Order.Side) (a b b' : Q) :
  b == b' -> before side a b = before side a b'.
Proof. intros Hb. destruct side; cbn; now rewrite Hb. Qed.

(** Lookup after update, at the updated price. *)
Lemma find_upsert_same (side : Order.Side) (price : Q)
  (f : PriceLevel.PriceLevel -> PriceLevel.PriceLevel) (levels : Ladder) :
  find_level side (upsert_level side levels price f) price
  = Some (f (match find_level side levels price with
             | Some l => l
             | None => PriceLevel.make price
             end)).
Proof.
  induction levels as [|[p l] rest IH]; cbn [upsert_level find_level].
  - now rewrite before_irrefl.
  - destruct (before side price p) eqn:H1.
    + cbn [find_level]. now rewrite before_irrefl.
    + destruct (before side p price) eqn:H2; cbn [find_level]; rewrite H1, H2;
        [exact IH | reflexivity].
Qed.

(** Lookup after update, at another price. *)
Lemma find_upsert_other (side : Order.Side) (price price' : Q)
  (f : PriceLevel.PriceLevel -> PriceLevel.PriceLevel) (levels : Ladder) :
  before side price price' = true \/ before side price' price = true ->
  find_level side (upsert_level side levels price f) price'
  = find_level side levels price'.
Proof.
  intros Hne.
  induction levels as [|[p l] rest IH]; cbn [upsert_level find_level].
  - destruct Hne as [H|H]; [rewrite (before_asym _ _ _ H), H | rewrite H];
      reflexivity.
  - destruct (before side price p) eqn:H1.
    + cbn [find_level]. destruct Hne as [H|H].
      * now rewrite (before_asym _ _ _ H), H.
      * rewrite H. now rewrite (before_trans _ _ _ _ H H1).
    + destruct (before side p price) eqn:H2; cbn [find_level].
      * destruct (before side price' p); [reflexivity|].
        destruct (before side p price'); [exact IH | reflexivity].
      * pose proof (before_false_eq _ _ _ H1 H2) as Heq.
        rewrite (before_eq_r side price' p price) by (symmetry; exact Heq).
        rewrite (before_eq_l side p price price') by (symmetry; exact Heq).
        destruct Hne as [H|H].
        -- now rewrite (before_asym _ _ _ H), H.
        -- now rewrite H.
Qed.

Lemma sorted_cons (side : Order.Side) (p : Q) (l : PriceLevel.PriceLevel)
  (rest : Ladder) :
  ladder_sorted side ((p, l) :: rest)
  <-> match rest with
      | [] => True
      | (p', _) :: _ => before side p p' = true
      end /\ ladder_sorted side rest.
Proof. reflexivity. Qed.

Lemma upsert_head (side : Order.Side) (lo price : Q)
  (f : PriceLevel.PriceLevel -> PriceLevel.PriceLevel) (levels : Ladder) :
  match levels with
  | [] => True
  | (p', _) :: _ => before side lo p' = true
  end ->
  before side lo price = true ->
  match upsert_level side levels price f with
  | [] => True
  | (p', _) :: _ => before side lo p' = true
  end.
Proof.
  destruct levels as [|[p l] rest]; cbn [upsert_level]; [auto|].
  intros Hp Hprice.
  destruct (before side price p); [assumption|].
  destruct (before side p price); assumption.
Qed.

Lemma upsert_sorted (side : Order.Side) (price : Q)
  (f : PriceLevel.PriceLevel -> PriceLevel.PriceLevel) (levels : Ladder) :
  ladder_sorted side levels ->
  ladder_sorted side (upsert_level side levels price f).
Proof.
  induction levels as [|[p l] rest IH]; intros Hs; cbn [upsert_level].
  - cbn. auto.
  - destruct (before side price p) eqn:H1.
    + apply (proj2 (sorted_cons _ _ _ _)). split; assumption.
    + destruct (before side p price) eqn:H2.
      * apply (proj1 (sorted_cons _ _ _ _)) in Hs. destruct Hs as [Hhd Hs].
        apply (proj2 (sorted_cons _ _ _ _)). split; [|now apply IH].
        now apply upsert_head.
      * exact Hs.
Qed.

Lemma upsert_keyed (side : Order.Side) (price : Q)
  (f : PriceLevel.PriceLevel -> PriceLevel.PriceLevel) (levels : Ladder) :
  (forall l, PriceLevel.price_ (f l) = PriceLevel.price_ l) ->
  ladder_keyed levels ->
  ladder_keyed (upsert_level side levels price f).
Proof.
  intros Hf. unfold ladder_keyed.
  induction levels as [|[p l] rest IH]; intros Hk; cbn [upsert_level].
  - constructor; [|constructor]. cbn. rewrite Hf. reflexivity.
  - destruct (before side price p).
    + constructor; [|assumption]. cbn. rewrite Hf. reflexivity.
    + inversion Hk as [|? ? Hhd Htl]; subst.
      destruct (before side p price).
      * constructor; [assumption | now apply IH].
      * constructor; [|assumption]. cbn in *. now rewrite Hf.
Qed.

Lemma find_level_keyed (side : Order.Side) (price : Q) (levels : Ladder)
  (l : PriceLevel.PriceLevel) :
  ladder_keyed levels -> find_level side levels price = Some l ->
  PriceLevel.price_ l == price.
Proof.
  unfold ladder_keyed.
  induction levels as [|[p l0] rest IH]; intros Hk Hfind; [discriminate|].
  inversion Hk as [|? ? Hhd Htl]; subst. cbn [find_level] in Hfind.
  destruct (before side price p) eqn:H1; [discriminate|].
  destruct (before side p price) eqn:H2.
  - now apply IH.
  - inversion Hfind; subst l0. cbn in Hhd. rewrite Hhd.
    symmetry. exact (before_false_eq _ _ _ H1 H2).
Qed.

Lemma sorted_head_before (side : Order.Side) (rest : Ladder) :
  forall (p0 : Q) (l0 : PriceLevel.PriceLevel) (p : Q) (l : PriceLevel.PriceLevel),
    ladder_sorted side ((p0, l0) :: rest) -> In (p, l) rest ->
    before side p0 p = true.
Proof.
  induction rest as [|[p1 l1] rest IH]; intros p0 l0 p l Hs Hin; [contradiction|].
  apply (proj1 (sorted_cons _ _ _ _)) in Hs. destruct Hs as [H01 Hs].
  destruct Hin as [Heq|Hin].
  - now inversion Heq; subst.
  - apply (before_trans side p0 p1 p); [assumption|].
    exact (IH p1 l1 p l Hs Hin).
Qed.

(** The scan for the best price on a sorted ladder. *)
Lemma best_price_sorted (side : Order.Side) (levels : Ladder) :
  ladder_sorted side levels ->
  (forall p l, In (p, l) levels -> PriceLevel.has_orders l = true ->
     best_price levels = p \/ before side (best_price levels) p = true) /\
  ((forall p l, In (p, l) levels -> PriceLevel.has_orders l = false) ->
   best_price levels = 0).
Proof.
  induction levels as [|[p0 l0] rest IH]; intros Hs.
  - split; [intros p l []|reflexivity].
  - cbn [best_price]. pose proof Hs as Hs0.
    apply (proj1 (sorted_cons _ _ _ _)) in Hs. destruct Hs as [_ Hs].
    destruct (IH Hs) as [IH1 IH2].
    destruct (PriceLevel.has_orders l0) eqn:Hh.
    + split.
      * intros p l [Heq|Hin] Hl.
        -- left. now inversion Heq.
        -- right. exact (sorted_head_before side rest p0 l0 p l Hs0 Hin).
      * intros Hnone. specialize (Hnone p0 l0 ltac:(now left)). congruence.
    + split.
      * intros p l [Heq|Hin] Hl.
        -- inversion Heq; subst. congruence.
        -- now apply IH1 with l.
      * intros Hnone. apply IH2. intros p l Hin. apply (Hnone p l). now right.
Qed.




#[local] Instance std_round_comp : Proper (Qeq ==> eq) std_round.
Proof.
  intros x y Hxy. unfold std_round.
  assert (Hb : Qle_bool 0 x = Qle_bool 0 y) by now rewrite Hxy.
  rewrite Hb.
  destruct (Qle_bool 0 y).
  - apply Qfloor_comp. now rewrite Hxy.
  - apply Qceiling_comp. now rewrite Hxy.
Qed.





(** The ladders behave as maps ordered by price.  Updating the level
    of a price in a sorted ladder leaves the ladder sorted (bids by
    descending, asks by ascending price); the level found at that price
    afterwards is the updated one, created empty if there was none; and the
    level found at any other price is the one that was there before. *)
Lemma upsert_level_is_map_update (side : Order.Side) (levels : Ladder)
  (price : Q) (f : PriceLevel.PriceLevel -> PriceLevel.PriceLevel) :
  ladder_sorted side levels ->
  ladder_sorted side (upsert_level side levels price f) /\
  find_level side (upsert_level side levels price f) price
  = Some (f (match find_level side levels price with
             | Some l => l
             | None => PriceLevel.make price
             end)) /\
  forall price', ~ price' == price ->
    find_level side (upsert_level side levels price f) price'
    = find_level side levels price'.
Proof.
  intros Hs. split; [now apply upsert_sorted|].
  split; [apply find_upsert_same|].
  intros price' Hne. apply find_upsert_other.
  destruct (before side price price') eqn:H1; [now left|].
  destruct (before side price' price) eqn:H2; [now right|].
  exfalso. apply Hne. symmetry. exact (before_false_eq _ _ _ H1 H2).
Qed.

End LadderFacts.

(** ** More on the order book: adding, cancelling, matching *)

Section BookFacts.

Import Num LockFreeOrderBook.
Local Open Scope Q_scope.

Lemma levels_of_set_levels (side side' : Order.Side) (levels : Ladder)
  (b : LockFreeOrderBook) :
  levels_of side' (set_levels side levels b)
  = if PriceLevel.is_opposite_side side side' then levels_of side' b else levels.
Proof. now destruct side, side'. Qed.

Lemma levels_of_set_lookup (side : Order.Side) (m : gmap Z OrderInfo)
  (valid : bool) (b : LockFreeOrderBook) :
  levels_of side (set_lookup m valid b) = levels_of side b.
Proof. now destruct side. Qed.

Lemma book_ok_sides (b : LockFreeOrderBook) :
  book_ok b <->
  (forall side,
     ladder_sorted side (levels_of side b) /\ ladder_keyed (levels_of side b)) /\
  cache_valid_ b = false.
Proof.
  unfold book_ok. split.
  - intros (H1 & H2 & H3 & H4 & H5). split; [|assumption].
    intros [|]; cbn; split; assumption.
  - intros [H H5].
    destruct (H Order.BUY) as [H1 H2]. destruct (H Order.SELL) as [H3 H4].
    repeat split; assumption.
Qed.

Lemma book_ok_update (side : Order.Side) (levels : Ladder)
  (m : gmap Z OrderInfo) (b : LockFreeOrderBook) :
  book_ok b -> ladder_sorted side levels -> ladder_keyed levels ->
  book_ok (set_lookup m false (set_levels side levels b)).
Proof.
  intros (H1 & H2 & H3 & H4 & H5) Hs Hk.
  destruct side; unfold book_ok; cbn; repeat split; assumption.
Qed.

Lemma add_order_price_ (l : PriceLevel.PriceLevel) (order : Order.Order) :
  PriceLevel.price_ (snd (PriceLevel.add_order l order)) = PriceLevel.price_ l.
Proof. unfold PriceLevel.add_order. now destruct (Qltb eps _). Qed.

Lemma remove_order_price_ (l : PriceLevel.PriceLevel) (id : Z) :
  PriceLevel.price_ (snd (PriceLevel.remove_order l id)) = PriceLevel.price_ l.
Proof.
  unfold PriceLevel.remove_order.
  now destruct (PriceLevel.cancel_in_chain _ _) as [[removed|] chain'].
Qed.

(** An accepted order: where it rests and what is registered for it. *)
Lemma add_order_spec (b : LockFreeOrderBook) (id : Z) (side : Order.Side)
  (price quantity : Q) :
  book_ok b -> 0 < quantity -> 0 < price ->
  exists b',
    add_order b id side price quantity = (true, b') /\
    book_ok b' /\
    order_lookup_ b'
    = <[id := {| info_side := side; info_price := round_to_tick b price |}]>
        (order_lookup_ b) /\
    levels_of (opposite side) b' = levels_of (opposite side) b /\
    (exists old,
       old = match find_level side (levels_of side b) (round_to_tick b price) with
             | Some l => l
             | None => PriceLevel.make (round_to_tick b price)
             end /\
       find_level side (levels_of side b') (round_to_tick b price)
       = Some {| PriceLevel.price_ := PriceLevel.price_ old;
                 PriceLevel.total_quantity_ :=
                   PriceLevel.total_quantity_ old + quantity;
                 PriceLevel.order_count_ :=
                   wrap_uint64 (PriceLevel.order_count_ old + 1);
                 PriceLevel.chain_ :=
                   Order.make id (symbol (config_ b)) side
                     (round_to_tick b price) quantity
                   :: PriceLevel.chain_ old |}) /\
    (forall price', ~ price' == round_to_tick b price ->
       find_level side (levels_of side b') price'
       = find_level side (levels_of side b) price') /\
    config_ b' = config_ b /\ next_order_id_ b' = next_order_id_ b.
Proof.
  intros Hok Hq Hp. unfold add_order.
  assert (Hq' : Qle_bool quantity 0 = false).
  { destruct (Qle_bool quantity 0) eqn:H; [|reflexivity].
    apply Qle_bool_iff in H. lra. }
  assert (Hp' : Qle_bool price 0 = false).
  { destruct (Qle_bool price 0) eqn:H; [|reflexivity].
    apply Qle_bool_iff in H. lra. }
  rewrite Hq', Hp'. cbn [orb].
  set (rounded := round_to_tick b price).
  set (order := Order.make id (symbol (config_ b)) side rounded quantity).
  set (old := match find_level side (levels_of side b) rounded with
              | Some l => l
              | None => PriceLevel.make rounded
              end).
  pose proof (proj1 (book_ok_sides b) Hok) as [Hsides Hcache].
  destruct (Hsides side) as [Hsorted Hkeyed].
  assert (Hprice : PriceLevel.price_ old == rounded).
  { unfold old. destruct (find_level side (levels_of side b) rounded) as [l|] eqn:Hf.
    - exact (find_level_keyed side rounded _ l Hkeyed Hf).
    - reflexivity. }
  assert (Hadd : PriceLevel.add_order old order
                 = (true,
                    {| PriceLevel.price_ := PriceLevel.price_ old;
                       PriceLevel.total_quantity_ :=
                         PriceLevel.total_quantity_ old + quantity;
                       PriceLevel.order_count_ :=
                         wrap_uint64 (PriceLevel.order_count_ old + 1);
                       PriceLevel.chain_ := order :: PriceLevel.chain_ old |})).
  { unfold PriceLevel.add_order.
    assert (Hnear : Qltb eps (Qabs (Order.price order - PriceLevel.price_ old))
                    = false).
    { apply Qltb_ge. apply Qabs_Qle_condition. unfold order. cbn [Order.make Order.price].
      unfold eps. split; lra. }
    rewrite Hnear. reflexivity. }
  rewrite Hadd. cbn [fst].
  eexists. split; [reflexivity|].
  split.
  { apply book_ok_update; [assumption | |].
    - now apply upsert_sorted.
    - apply upsert_keyed; [|assumption]. intros l. apply add_order_price_. }
  split; [reflexivity|].
  split; [now destruct side|].
  split.
  { exists old. split; [reflexivity|].
    rewrite levels_of_set_lookup, levels_of_set_levels.
    assert (Hopp : PriceLevel.is_opposite_side side side = false)
      by now destruct side.
    rewrite Hopp, find_upsert_same. fold old. now rewrite Hadd. }
  split.
  { intros price' Hne. rewrite levels_of_set_lookup, levels_of_set_levels.
    assert (Hopp : PriceLevel.is_opposite_side side side = false)
      by now destruct side.
    rewrite Hopp. apply find_upsert_other.
    destruct (before side rounded price') eqn:H1; [now left|].
    destruct (before side price' rounded) eqn:H2; [now right|].
    exfalso. apply Hne. symmetry. exact (before_false_eq _ _ _ H1 H2). }
  split; reflexivity.
Qed.


Lemma book_ok_empty_book : book_ok Scenario.empty_book.
Proof. unfold book_ok. cbn. repeat split; constructor. Qed.


(** A successful cancel. *)
Lemma cancel_order_spec (b b' : LockFreeOrderBook) (id : Z) :
  cancel_order b id = (true, b') ->
  exists info level,
    order_lookup_ b !! id = Some info /\
    find_level (info_side info) (levels_of (info_side info) b) (info_price info)
    = Some level /\
    fst (PriceLevel.remove_order level id) = true /\
    b' = set_lookup (delete id (order_lookup_ b)) false
           (set_levels (info_side info)
              (upsert_level (info_side info) (levels_of (info_side info) b)
                 (info_price info)
                 (fun l => snd (PriceLevel.remove_order l id))) b).
Proof.
  unfold cancel_order.
  destruct (order_lookup_ b !! id) as [info|] eqn:Hl; [|discriminate].
  destruct (find_level _ _ _) as [level|] eqn:Hf; [|discriminate].
  destruct (fst (PriceLevel.remove_order level id)) eqn:Hr; [|discriminate].
  intros H. inversion H; subst; clear H.
  exists info, level. repeat split; assumption.
Qed.

(** [cancel_order] cannot be repeated: an id that is not in the lookup is
    refused, a refused cancel leaves the book untouched, and after a
    successful cancel the id is gone from the lookup. *)
Lemma cancel_order_refusals (b : LockFreeOrderBook) (id : Z) :
  (order_lookup_ b !! id = None -> cancel_order b id = (false, b)) /\
  (fst (cancel_order b id) = false -> snd (cancel_order b id) = b) /\
  (fst (cancel_order b id) = true ->
   order_lookup_ (snd (cancel_order b id)) = delete id (order_lookup_ b) /\
   cancel_order (snd (cancel_order b id)) id
   = (false, snd (cancel_order b id))).
Proof.
  split; [|split].
  - intros Hnone. unfold cancel_order. now rewrite Hnone.
  - unfold cancel_order.
    destruct (order_lookup_ b !! id) as [info|]; [|reflexivity].
    destruct (find_level _ _ _) as [level|]; [|reflexivity].
    destruct (fst (PriceLevel.remove_order level id)); [discriminate|reflexivity].
  - intros Hok. destruct (cancel_order b id) as [r b'] eqn:Hc.
    cbn [fst snd] in *. subst r.
    destruct (cancel_order_spec b b' id Hc) as (info & level & _ & _ & _ & ->).
    split; [reflexivity|].
    unfold cancel_order at 1. cbn [set_lookup order_lookup_].
    now rewrite lookup_delete_eq.
Qed.

(** X16.  Adding an order and cancelling it again.  In a book of sound
    shape, an accepted order can be cancelled by its id: the cancel
    succeeds, the id leaves the lookup, which is again what it was without
    the id, and the book keeps its shape.  The order itself is not
    unlinked: the chain of its level is the chain from before the order
    was added, with the order, marked CANCELLED and with its quantity
    untouched, in front of it.  A second cancel of the same id is refused
    and changes nothing, and so is the cancel of an id that was never
    registered. *)
Theorem add_then_cancel_unregisters_order (b : LockFreeOrderBook) (id : Z)
  (side : Order.Side) (price quantity : Q) :
  book_ok b -> 0 < quantity -> 0 < price ->
  let b1 := snd (add_order b id side price quantity) in
  let b2 := snd (cancel_order b1 id) in
  fst (cancel_order b1 id) = true /\ book_ok b2 /\
  order_lookup_ b2 = delete id (order_lookup_ b) /\
  (exists l2,
     find_level side (levels_of side b2) (round_to_tick b price) = Some l2 /\
     PriceLevel.chain_ l2
     = Order.set_quantity_status quantity Order.CANCELLED
         (Order.make id (symbol (config_ b)) side (round_to_tick b price)
            quantity)
       :: match find_level side (levels_of side b) (round_to_tick b price) with
          | Some l => PriceLevel.chain_ l
          | None => []
          end) /\
  cancel_order b2 id = (false, b2) /\
  (forall other, order_lookup_ b !! other = None ->
     cancel_order b other = (false, b)).
Proof.
  intros Hok Hq Hp. cbv zeta.
  destruct (add_order_spec b id side price quantity Hok Hq Hp)
    as (b1 & Hadd & Hok1 & Hlook1 & _ & (old & Hold & Hfind) & _).
  rewrite Hadd. cbn [snd].
  set (rounded := round_to_tick b price) in *.
  set (order := Order.make id (symbol (config_ b)) side rounded quantity) in *.
  set (l1 := {| PriceLevel.price_ := PriceLevel.price_ old;
                PriceLevel.total_quantity_ :=
                  PriceLevel.total_quantity_ old + quantity;
                PriceLevel.order_count_ :=
                  wrap_uint64 (PriceLevel.order_count_ old + 1);
                PriceLevel.chain_ := order :: PriceLevel.chain_ old |}) in *.
  assert (Hrem : PriceLevel.remove_order l1 id
                 = (true,
                    {| PriceLevel.price_ := PriceLevel.price_ old;
                       PriceLevel.total_quantity_ :=
                         PriceLevel.total_quantity_ old + quantity - quantity;
                       PriceLevel.order_count_ :=
                         wrap_uint64
                           (wrap_uint64 (PriceLevel.order_count_ old + 1) - 1);
                       PriceLevel.chain_ :=
                         Order.set_quantity_status quantity Order.CANCELLED order
                         :: PriceLevel.chain_ old |})).
  { unfold PriceLevel.remove_order, l1.
    cbn [PriceLevel.chain_ PriceLevel.cancel_in_chain order Order.make
         Order.order_id].
    rewrite Z.eqb_refl. reflexivity. }
  assert (Hcancel : cancel_order b1 id
                    = (true,
                       set_lookup (delete id (order_lookup_ b1)) false
                         (set_levels side
                            (upsert_level side (levels_of side b1) rounded
                               (fun l => snd (PriceLevel.remove_order l id)))
                            b1))).
  { assert (Hl1 : order_lookup_ b1 !! id
                   = Some {| info_side := side; info_price := rounded |})
      by (rewrite Hlook1; apply lookup_insert_eq).
    unfold cancel_order. rewrite Hl1.
    cbn [info_side info_price]. rewrite Hfind, Hrem. reflexivity. }
  rewrite Hcancel. cbn [fst snd].
  split; [reflexivity|].
  pose proof (proj1 (book_ok_sides b1) Hok1) as [Hsides1 _].
  destruct (Hsides1 side) as [Hs1 Hk1].
  split.
  { apply book_ok_update; [assumption | now apply upsert_sorted|].
    apply upsert_keyed; [|assumption]. intros l. apply remove_order_price_. }
  split.
  { cbn [set_lookup order_lookup_]. rewrite Hlook1. apply delete_insert_eq. }
  split.
  { eexists. split.
    - rewrite levels_of_set_lookup, levels_of_set_levels.
      assert (Hopp : PriceLevel.is_opposite_side side side = false)
        by now destruct side.
      rewrite Hopp, find_upsert_same, Hfind, Hrem. reflexivity.
    - cbn [snd PriceLevel.chain_]. rewrite Hold.
      destruct (find_level side (levels_of side b) rounded);
        cbn [PriceLevel.make PriceLevel.chain_]; reflexivity. }
  split.
  { pose proof (cancel_order_refusals b1 id) as (_ & _ & Hrep).
    rewrite Hcancel in Hrep. cbn [fst snd] in Hrep.
    exact (proj2 (Hrep eq_refl)). }
  intros other Hnone. exact (proj1 (cancel_order_refusals b other) Hnone).
Qed.

Lemma add_then_cancel_unregisters_order_witness :
  book_ok Scenario.empty_book /\ 0 < 30 /\ 0 < 100 /\
  fst (cancel_order (snd (add_order Scenario.empty_book 1 Order.SELL 100 30)) 1)
  = true.
Proof.
  assert (Hq : 0 < 30) by lra. assert (Hp : 0 < 100) by lra.
  split; [exact book_ok_empty_book|]. split; [exact Hq|]. split; [exact Hp|].
  destruct (add_then_cancel_unregisters_order Scenario.empty_book 1
              Order.SELL 100 30 book_ok_empty_book Hq Hp) as [Hc _].
  exact Hc.
Defined.

(** The loop over the levels in [match_market_order]. *)
Lemma match_levels_spec (side : Order.Side) (stop : Q -> bool)
  (max_price min_price : Q) (levels : Ladder) :
  forall (mq tv rq : Q) (mc : Z),
    let '(levels', mq', tv', rq', mc') :=
      match_levels levels side stop max_price min_price mq tv rq mc in
    mq' + rq' == mq + rq /\ mq <= mq' /\ (0 <= rq -> 0 <= rq') /\
    map fst levels' = map fst levels /\
    (ladder_keyed levels -> ladder_keyed levels').
Proof.
  induction levels as [|[price level] rest IH]; intros mq tv rq mc.
  - cbn. repeat split; try lra; auto.
  - cbn [match_levels].
    destruct (Qle_bool rq 0) eqn:Hrq; [repeat split; try lra; auto|].
    destruct (stop price); [repeat split; try lra; auto|].
    assert (Hrq0 : 0 <= rq).
    { destruct (Qlt_le_dec rq 0) as [Hneg|]; [|assumption].
      assert (Qle_bool rq 0 = true) by (apply Qle_bool_iff; lra). congruence. }
    destruct (PriceLevel.has_orders level).
    + pose proof (match_orders_spec level side rq max_price min_price) as Hm.
      cbv zeta in Hm.
      destruct (PriceLevel.match_orders level side rq max_price min_price)
        as [matched level'].
      cbn [fst snd] in Hm.
      destruct Hm as (Hm0 & Hmq & _ & _ & _ & Hpr & _).
      specialize (Hmq Hrq0).
      destruct (Qltb 0 matched) eqn:Hpos.
      * specialize (IH (mq + matched) (tv + matched * price) (rq - matched)
                      (wrap_uint64 (mc + 1))).
        destruct (match_levels rest side stop max_price min_price
                    (mq + matched) (tv + matched * price) (rq - matched)
                    (wrap_uint64 (mc + 1))) as [[[[rest' mq'] tv'] rq'] mc'].
        destruct IH as (Hsum & Hle & Hnn & Hkeys & Hkeyed).
        split; [lra|]. split; [lra|]. split; [intros _; apply Hnn; lra|].
        split; [cbn [map fst]; now rewrite Hkeys|].
        unfold ladder_keyed. intros Hk.
        inversion Hk as [|? ? Hhd Htl]; subst.
        constructor; [cbn in *; now rewrite Hpr | now apply Hkeyed].
      * specialize (IH mq tv rq mc).
        destruct (match_levels rest side stop max_price min_price mq tv rq mc)
          as [[[[rest' mq'] tv'] rq'] mc'].
        destruct IH as (Hsum & Hle & Hnn & Hkeys & Hkeyed).
        split; [lra|]. split; [lra|]. split; [assumption|].
        split; [cbn [map fst]; now rewrite Hkeys|].
        unfold ladder_keyed. intros Hk.
        inversion Hk as [|? ? Hhd Htl]; subst.
        constructor; [cbn in *; now rewrite Hpr | now apply Hkeyed].
    + specialize (IH mq tv rq mc).
      destruct (match_levels rest side stop max_price min_price mq tv rq mc)
        as [[[[rest' mq'] tv'] rq'] mc'].
      destruct IH as (Hsum & Hle & Hnn & Hkeys & Hkeyed).
      split; [lra|]. split; [lra|]. split; [assumption|].
      split; [cbn [map fst]; now rewrite Hkeys|].
      unfold ladder_keyed. intros Hk.
      inversion Hk as [|? ? Hhd Htl]; subst.
      constructor; [assumption | now apply Hkeyed].
Qed.

Lemma sorted_keys (side : Order.Side) (levels levels' : Ladder) :
  map fst levels' = map fst levels ->
  ladder_sorted side levels -> ladder_sorted side levels'.
Proof.
  revert levels'.
  induction levels as [|[p l] rest IH]; intros [|[p' l'] rest'] Hk Hs;
    try discriminate; [exact I|].
  cbn [map fst] in Hk. inversion Hk as [[Hp Hrest]]. subst p'.
  apply (proj1 (sorted_cons _ _ _ _)) in Hs. destruct Hs as [Hhd Hs].
  apply (proj2 (sorted_cons _ _ _ _)). split; [|now apply IH].
  destruct rest as [|[p1 l1] rest]; destruct rest' as [|[p1' l1'] rest'];
    try discriminate; [exact I|].
  cbn [map fst] in Hrest. now inversion Hrest; subst.
Qed.

(** What [match_market_order] returns and leaves behind. *)
Lemma match_market_order_spec (b : LockFreeOrderBook) (side : Order.Side)
  (quantity max_price min_price : Q) :
  let r := fst (match_market_order b side quantity max_price min_price) in
  let b' := snd (match_market_order b side quantity max_price min_price) in
  0 <= matched_quantity r /\
  (0 <= quantity -> matched_quantity r <= quantity) /\
  (fully_filled r = true ->
   0 < matched_quantity r /\ quantity - matched_quantity r <= eps) /\
  (matched_quantity r == 0 -> average_price r = 0 /\ fully_filled r = false) /\
  levels_of side b' = levels_of side b /\
  order_lookup_ b' = order_lookup_ b /\
  config_ b' = config_ b /\ next_order_id_ b' = next_order_id_ b /\
  (book_ok b -> book_ok b').
Proof.
  cbv zeta. unfold match_market_order.
  set (stop := match side with
               | Order.BUY => fun price => Qltb 0 max_price && Qltb max_price price
               | Order.SELL => fun price => Qltb 0 min_price && Qltb price min_price
               end).
  pose proof (match_levels_spec side stop max_price min_price
                (levels_of (opposite side) b) 0 0 quantity 0) as Hm.
  destruct (match_levels (levels_of (opposite side) b) side stop max_price
              min_price 0 0 quantity 0) as [[[[levels' mq] tv] rq] mc].
  destruct Hm as (Hsum & Hle & Hnn & Hkeys & Hkeyed).
  assert (Hbook : book_ok b -> forall valid m,
            valid = false ->
            book_ok (set_lookup m valid (set_levels (opposite side) levels' b))).
  { intros Hok valid m ->.
    pose proof (proj1 (book_ok_sides b) Hok) as [Hsides Hcache].
    destruct (Hsides (opposite side)) as [Hs Hk].
    apply book_ok_update; [assumption | | now apply Hkeyed].
    now apply (sorted_keys _ (levels_of (opposite side) b)). }
  destruct (Qltb 0 mq) eqn:Hpos; cbn [fst snd matched_quantity fully_filled
                                       average_price].
  - apply Qltb_lt in Hpos.
    split; [lra|]. split; [intros H0; specialize (Hnn H0); lra|].
    split; [intros Hff; apply Qle_bool_iff in Hff; split; lra|].
    split; [intros Hz; lra|].
    split; [now destruct side|]. split; [reflexivity|].
    split; [reflexivity|]. split; [reflexivity|].
    intros Hok. now apply Hbook.
  - apply Qltb_ge in Hpos.
    split; [lra|]. split; [intros H0; specialize (Hnn H0); lra|].
    split; [discriminate|]. split; [intros _; split; reflexivity|].
    split; [now destruct side|]. split; [reflexivity|].
    split; [reflexivity|]. split; [reflexivity|].
    intros Hok.
    pose proof (proj1 (book_ok_sides b) Hok) as [_ Hcache].
    specialize (Hbook Hok (cache_valid_ b) (order_lookup_ b) Hcache).
    destruct b; exact Hbook.
Qed.

(** X17.  [match_market_order] never matches more than was asked for: the
    matched quantity lies between 0 and the requested quantity, the order
    is reported as fully filled only when something matched and what is
    missing is within the tolerance, and when nothing matched the average
    price is 0.  Matching touches neither the ladder of the incoming side
    nor the lookup, and the book keeps its shape. *)
Theorem match_market_order_within_request (b : LockFreeOrderBook)
  (side : Order.Side) (quantity max_price min_price : Q) :
  0 <= quantity ->
  let r := fst (match_market_order b side quantity max_price min_price) in
  let b' := snd (match_market_order b side quantity max_price min_price) in
  0 <= matched_quantity r <= quantity /\
  (fully_filled r = true ->
   0 < matched_quantity r /\ quantity - matched_quantity r <= eps) /\
  (matched_quantity r == 0 -> average_price r = 0 /\ fully_filled r = false) /\
  levels_of side b' = levels_of side b /\
  order_lookup_ b' = order_lookup_ b /\
  (book_ok b -> book_ok b').
Proof.
  intros Hq. cbv zeta.
  pose proof (match_market_order_spec b side quantity max_price min_price)
    as (H1 & H2 & H3 & H4 & H5 & H6 & _ & _ & H7).
  cbv zeta in *.
  split; [split; [exact H1 | exact (H2 Hq)]|]. split; [exact H3|].
  split; [exact H4|]. split; [exact H5|]. split; [exact H6 | exact H7].
Qed.

Lemma match_market_order_within_request_witness :
  0 <= 100 /\
  0 <= matched_quantity
         (fst (match_market_order Scenario.book_two_asks Order.BUY 100 0 0))
    <= 100.
Proof.
  assert (H : 0 <= 100) by lra.
  split; [exact H|].
  exact (proj1 (match_market_order_within_request Scenario.book_two_asks
                  Order.BUY 100 0 0 H)).
Defined.

(** X18.  The best prices.  In a book of sound shape the best-price cache
    is never valid, [get_best_bid] and [get_best_ask] scan the ladders:
    the best bid is not below the price of any bid level that has orders,
    the best ask is not above the price of any ask level that has orders,
    and each is 0 when no level of its side has orders. *)
Theorem best_prices_are_extremal (b : LockFreeOrderBook) :
  book_ok b ->
  (forall p l, In (p, l) (bid_levels_ b) -> PriceLevel.has_orders l = true ->
     p <= fst (get_best_bid b)) /\
  (forall p l, In (p, l) (ask_levels_ b) -> PriceLevel.has_orders l = true ->
     fst (get_best_ask b) <= p) /\
  ((forall p l, In (p, l) (bid_levels_ b) -> PriceLevel.has_orders l = false) ->
   fst (get_best_bid b) = 0) /\
  ((forall p l, In (p, l) (ask_levels_ b) -> PriceLevel.has_orders l = false) ->
   fst (get_best_ask b) = 0).
Proof.
  intros (Hbs & _ & Has & _ & Hcache).
  unfold get_best_bid, get_best_ask. rewrite Hcache. cbn [fst].
  destruct (best_price_sorted Order.BUY (bid_levels_ b) Hbs) as [Hb1 Hb2].
  destruct (best_price_sorted Order.SELL (ask_levels_ b) Has) as [Ha1 Ha2].
  split; [|split; [|split; assumption]].
  - intros p l Hin Hl. destruct (Hb1 p l Hin Hl) as [->|Hlt];
      [apply Qle_refl|]. cbn in Hlt. apply Qltb_lt in Hlt. lra.
  - intros p l Hin Hl. destruct (Ha1 p l Hin Hl) as [->|Hlt];
      [apply Qle_refl|]. cbn in Hlt. apply Qltb_lt in Hlt. lra.
Qed.

Lemma book_ok_book_two_asks : book_ok Scenario.book_two_asks.
Proof.
  unfold Scenario.book_two_asks.
  destruct (add_order_spec Scenario.empty_book 1 Order.SELL 100 30
              book_ok_empty_book ltac:(lra) ltac:(lra))
    as (b1 & Hadd1 & Hok1 & _).
  rewrite Hadd1. cbn [snd].
  destruct (add_order_spec b1 2 Order.SELL (10001 # 100) 80
              Hok1 ltac:(lra) ltac:(lra))
    as (b2 & Hadd2 & Hok2 & _).
  now rewrite Hadd2.
Qed.

Lemma best_prices_are_extremal_witness :
  book_ok Scenario.book_two_asks /\
  fst (get_best_bid Scenario.book_two_asks) = 0.
Proof.
  split; [exact book_ok_book_two_asks|].
  assert (Hbids : bid_levels_ Scenario.book_two_asks = [])
    by (vm_compute; reflexivity).
  refine (proj1 (proj2 (proj2 (best_prices_are_extremal Scenario.book_two_asks
                                 book_ok_book_two_asks))) _).
  intros p l Hin. rewrite Hbids in Hin. destruct Hin.
Defined.

End BookFacts.

(** ** Limit orders, modification, and the execution simulator *)

Section BookOrders.

Import Num LockFreeOrderBook.
Local Open Scope Q_scope.

Lemma round_to_tick_config (b b' : LockFreeOrderBook) (price : Q) :
  config_ b' = config_ b -> round_to_tick b' price = round_to_tick b price.
Proof. intros Hc. unfold round_to_tick. now rewrite Hc. Qed.

(** X19.  [match_limit_order] accounts for the whole order: the matched
    quantity lies between 0 and the order's quantity; what is left above
    the tolerance rests in the book, registered under the order's id at the
    limit price rounded to the tick and linked at the head of that level;
    and when no more than the tolerance is left, the order is reported as
    fully filled and nothing is added to the book. *)
Theorem match_limit_order_rests_remainder (b : LockFreeOrderBook) (id : Z)
  (side : Order.Side) (price quantity : Q) :
  book_ok b -> 0 < quantity -> 0 < price ->
  let r := fst (match_limit_order b id side price quantity) in
  let b' := snd (match_limit_order b id side price quantity) in
  0 <= matched_quantity r <= quantity /\ book_ok b' /\
  (eps < quantity - matched_quantity r ->
   order_lookup_ b' !! id
   = Some {| info_side := side; info_price := round_to_tick b price |} /\
   exists l',
     find_level side (levels_of side b') (round_to_tick b price) = Some l' /\
     hd_error (PriceLevel.chain_ l')
     = Some (Order.make id (symbol (config_ b)) side (round_to_tick b price)
               (quantity - matched_quantity r))) /\
  (quantity - matched_quantity r <= eps ->
   fully_filled r = true /\ order_lookup_ b' = order_lookup_ b /\
   levels_of side b' = levels_of side b).
Proof.
  intros Hok Hq Hp. cbv zeta. unfold match_limit_order.
  assert (Hmm : exists max_price min_price,
             match side with
             | Order.BUY => match_market_order b side quantity price 0
             | Order.SELL => match_market_order b side quantity 0 price
             end = match_market_order b side quantity max_price min_price).
  { destruct side; eauto. }
  destruct Hmm as (max_price & min_price & ->).
  pose proof (match_market_order_spec b side quantity max_price min_price)
    as (H0 & Hle & _ & _ & Hside & Hlook & Hcfg & _ & Hbook).
  cbv zeta in *.
  destruct (match_market_order b side quantity max_price min_price)
    as [result b1].
  cbn [fst snd] in *.
  specialize (Hle ltac:(lra)). specialize (Hbook Hok).
  destruct (Qltb eps (quantity - matched_quantity result)) eqn:Hrem.
  - apply Qltb_lt in Hrem. cbn [fst snd].
    assert (Hrem0 : 0 < quantity - matched_quantity result)
      by (unfold eps in Hrem; lra).
    destruct (add_order_spec b1 id side price
                (quantity - matched_quantity result) Hbook Hrem0 Hp)
      as (b2 & Hadd & Hok2 & Hlook2 & _ & (old & Hold & Hfind) & _).
    rewrite Hadd. cbn [snd].
    rewrite (round_to_tick_config b b1 price Hcfg) in Hlook2, Hfind.
    rewrite Hcfg in Hfind.
    split; [split; assumption|]. split; [assumption|]. split.
    + intros _. split; [rewrite Hlook2; apply lookup_insert_eq|].
      eexists. split; [exact Hfind | reflexivity].
    + intros Hsmall. lra.
  - apply Qltb_ge in Hrem. cbn [fst snd set_fully_filled matched_quantity
                                 fully_filled].
    split; [split; assumption|]. split; [assumption|]. split.
    + intros Hbig. lra.
    + intros _. repeat split; assumption.
Qed.

Lemma match_limit_order_rests_remainder_witness :
  book_ok Scenario.book_two_asks /\ 0 < 50 /\ 0 < 100 /\
  book_ok (snd (match_limit_order Scenario.book_two_asks 9 Order.BUY 100 50)).
Proof.
  assert (Hq : 0 < 50) by lra. assert (Hp : 0 < 100) by lra.
  split; [exact book_ok_book_two_asks|]. split; [exact Hq|].
  split; [exact Hp|].
  exact (proj1 (proj2 (match_limit_order_rests_remainder
    Scenario.book_two_asks 9 Order.BUY 100 50 book_ok_book_two_asks Hq Hp))).
Defined.

Lemma cancel_order_book_ok (b b' : LockFreeOrderBook) (id : Z) :
  book_ok b -> cancel_order b id = (true, b') ->
  book_ok b' /\ config_ b' = config_ b /\ next_order_id_ b' = next_order_id_ b.
Proof.
  intros Hok Hc.
  destruct (cancel_order_spec b b' id Hc) as (info & level & _ & _ & _ & ->).
  pose proof (proj1 (book_ok_sides b) Hok) as [Hsides _].
  destruct (Hsides (info_side info)) as [Hs Hk].
  split; [|split; reflexivity].
  apply book_ok_update; [assumption | now apply upsert_sorted|].
  apply upsert_keyed; [|assumption]. intros l. apply remove_order_price_.
Qed.

(** X20.  [modify_order] rests the replacement under a fresh internal id.
    After a successful modification the order linked at the head of the
    target level carries the id taken from [next_order_id_], not the
    caller's id; the lookup holds an entry for the caller's id at the
    target price as given and, beside it, the entry of the internal id at
    the rounded price; the internal id counter has moved on by one. *)
Theorem modify_order_rests_under_internal_id (b b' : LockFreeOrderBook)
  (id : Z) (new_quantity new_price : Q) :
  book_ok b -> modify_order b id new_quantity new_price = (true, b') ->
  exists info,
    order_lookup_ b !! id = Some info /\ 0 < new_quantity /\
    let target := if Qltb 0 new_price then new_price else info_price info in
    let new_id := next_order_id_ b in
    book_ok b' /\
    next_order_id_ b' = wrap_uint64 (new_id + 1) /\
    order_lookup_ b' !! id
    = Some {| info_side := info_side info; info_price := target |} /\
    (new_id <> id ->
     order_lookup_ b' !! new_id
     = Some {| info_side := info_side info;
               info_price := round_to_tick b target |}) /\
    exists l',
      find_level (info_side info) (levels_of (info_side info) b')
        (round_to_tick b target) = Some l' /\
      hd_error (PriceLevel.chain_ l')
      = Some (Order.make new_id (symbol (config_ b)) (info_side info)
                (round_to_tick b target) new_quantity).
Proof.
  intros Hok. unfold modify_order.
  destruct (order_lookup_ b !! id) as [info|] eqn:Hl; [|discriminate].
  destruct (Qle_bool new_quantity 0) eqn:Hq; [discriminate|].
  assert (Hq0 : 0 < new_quantity).
  { destruct (Qlt_le_dec 0 new_quantity) as [|Hle]; [assumption|].
    apply Qle_bool_iff in Hle. congruence. }
  set (target := if Qltb 0 new_price then new_price else info_price info).
  destruct (cancel_order b id) as [cancelled b1] eqn:Hc.
  destruct cancelled; cbn [negb]; [|discriminate].
  destruct (cancel_order_book_ok b b1 id Hok Hc) as (Hok1 & Hcfg1 & Hnext1).
  rewrite Hnext1.
  set (b2 := set_next_order_id (wrap_uint64 (next_order_id_ b + 1)) b1).
  assert (Hok2 : book_ok b2) by (destruct Hok1 as (?&?&?&?&?); repeat split; assumption).
  assert (Hcfg2 : config_ b2 = config_ b) by exact Hcfg1.
  destruct (Qlt_le_dec 0 target) as [Hp|Hp].
  2:{ unfold add_order.
      assert (Hp' : Qle_bool target 0 = true) by now apply Qle_bool_iff.
      rewrite Hp', orb_true_r. discriminate. }
  destruct (add_order_spec b2 (next_order_id_ b) (info_side info) target
              new_quantity Hok2 Hq0 Hp)
    as (b3 & Hadd & Hok3 & Hlook3 & _ & (old & Hold & Hfind) & _ & Hcfg3 & Hnext3).
  rewrite Hadd. intros H. inversion H; subst b'; clear H.
  rewrite (round_to_tick_config b b2 target Hcfg2) in Hlook3, Hfind.
  rewrite Hcfg2 in Hfind.
  exists info. split; [reflexivity|]. split; [assumption|]. cbv zeta.
  split.
  { destruct Hok3 as (?&?&?&?&Hcache). rewrite Hcache.
    repeat split; assumption. }
  split; [cbn [set_lookup next_order_id_]; now rewrite Hnext3|].
  split; [cbn [set_lookup order_lookup_]; apply lookup_insert_eq|].
  split.
  { intros Hne. cbn [set_lookup order_lookup_].
    rewrite lookup_insert_ne by congruence.
    rewrite Hlook3. apply lookup_insert_eq. }
  rewrite levels_of_set_lookup.
  eexists. split; [exact Hfind | reflexivity].
Qed.

Lemma modify_order_rests_under_internal_id_witness :
  book_ok Scenario.book_two_asks /\
  exists b',
    modify_order Scenario.book_two_asks 2 50 0 = (true, b') /\
    next_order_id_ b' = wrap_uint64 (next_order_id_ Scenario.book_two_asks + 1).
Proof.
  split; [exact book_ok_book_two_asks|].
  assert (Hm : modify_order Scenario.book_two_asks 2 50 0
               = (true, snd (modify_order Scenario.book_two_asks 2 50 0)))
    by (vm_compute; reflexivity).
  exists (snd (modify_order Scenario.book_two_asks 2 50 0)).
  split; [exact Hm|].
  destruct (modify_order_rests_under_internal_id Scenario.book_two_asks _
              2 50 0 book_ok_book_two_asks Hm)
    as (info & _ & _ & _ & Hnext & _).
  exact Hnext.
Defined.

End BookOrders.

Section ExecutionFacts.

Import Num Events ExecutionSim.
Local Open Scope Q_scope.

Lemma validate_nonneg (c : MarketSimulationConfig) :
  0 <= commission_per_share (validate c) /\
  0 <= commission_percentage (validate c) /\
  0 <= bid_ask_spread_bps (validate c) /\
  0 <= slippage_factor (validate c) /\
  0 < min_fill_ratio (validate c) <= 1.
Proof.
  unfold validate.
  cbn [commission_per_share commission_percentage bid_ask_spread_bps
       slippage_factor min_fill_ratio].
  repeat split.
  - destruct (Qltb (commission_per_share c) 0) eqn:H;
      [lra | now apply Qltb_ge in H].
  - destruct (Qltb (commission_percentage c) 0) eqn:H;
      [lra | now apply Qltb_ge in H].
  - destruct (Qltb (bid_ask_spread_bps c) 0) eqn:H;
      [lra | now apply Qltb_ge in H].
  - destruct (Qltb (slippage_factor c) 0) eqn:H;
      [lra | now apply Qltb_ge in H].
  - destruct (Qle_bool (min_fill_ratio c) 0) eqn:H1; cbn [orb]; [lra|].
    destruct (Qltb 1 (min_fill_ratio c)) eqn:H2; [lra|].
    destruct (Qlt_le_dec 0 (min_fill_ratio c)) as [|Hle]; [assumption|].
    apply Qle_bool_iff in Hle. congruence.
  - destruct (Qle_bool (min_fill_ratio c) 0) eqn:H1; cbn [orb]; [lra|].
    destruct (Qltb 1 (min_fill_ratio c)) eqn:H2; [lra|].
    now apply Qltb_ge in H2.
Qed.

Lemma calculate_execution_price_side (c : MarketSimulationConfig) (quoted : Q) :
  0 <= slippage_factor c -> 0 <= bid_ask_spread_bps c -> 0 <= quoted ->
  calculate_execution_price c quoted false <= quoted /\
  quoted <= calculate_execution_price c quoted true /\
  calculate_execution_price c quoted true - quoted
  == quoted - calculate_execution_price c quoted false.
Proof.
  intros Hs Hb Hq. unfold calculate_execution_price.
  assert (H1 : 0 <= quoted * slippage_factor c)
    by (apply Qmult_le_0_compat; assumption).
  assert (H2 : 0 <= quoted * (bid_ask_spread_bps c / 10000) / 2).
  { assert (H : 0 <= quoted * bid_ask_spread_bps c)
      by (apply Qmult_le_0_compat; assumption).
    assert (Heq : quoted * (bid_ask_spread_bps c / 10000) / 2
                  == (quoted * bid_ask_spread_bps c) * (1 # 20000)) by field.
    rewrite Heq. apply Qmult_le_0_compat; lra. }
  assert (H3 : - quoted * slippage_factor c == - (quoted * slippage_factor c))
    by ring.
  destruct (Qltb 0 (bid_ask_spread_bps c)); repeat split; lra.
Qed.

Lemma calculate_commission_nonneg (c : MarketSimulationConfig)
  (quantity price : Q) :
  0 <= commission_per_share c -> 0 <= commission_percentage c ->
  0 <= quantity -> 0 <= price ->
  0 <= calculate_commission c quantity price.
Proof.
  intros Hs Hp Hq Hpr. unfold calculate_commission.
  assert (H1 : 0 <= quantity * commission_per_share c)
    by (apply Qmult_le_0_compat; assumption).
  assert (H2 : 0 <= quantity * price * (commission_percentage c / 100)).
  { apply Qmult_le_0_compat; [apply Qmult_le_0_compat; assumption|].
    assert (Heq : commission_percentage c / 100
                  == commission_percentage c * (1 # 100)) by field.
    rewrite Heq. apply Qmult_le_0_compat; lra. }
  destruct (Qltb 0 (commission_percentage c)); lra.
Qed.

(** X21.  The simple execution path under a validated configuration, for a
    signal of non-negative suggested quantity, a non-negative market price
    and a second generator draw from 0 (included) to 1 (excluded): every
    signal that is not BUY - SELL, but also HOLD and EXIT - is executed as
    a sell; the executed quantity is
    never above the suggested quantity and never below the minimum fill
    ratio times it; a buy is priced at or above the market price and a sell
    at or below it; and the commission is not negative as long as the
    execution price is not (a slippage factor above 1 makes the price of a
    sell negative). *)
Theorem execute_simple_order_fill (c : MarketSimulationConfig)
  (signal : TradingSignalEvent) (market_price draw1 draw2 : Q) :
  0 <= sig_suggested_quantity signal -> 0 <= market_price ->
  0 <= draw2 < 1 ->
  let fill := execute_simple_order (validate c) signal market_price draw1 draw2 in
  te_symbol fill = sig_symbol signal /\
  te_is_buy fill
  = match sig_signal signal with Events.BUY => true | _ => false end /\
  min_fill_ratio (validate c) * sig_suggested_quantity signal
  <= te_quantity fill <= sig_suggested_quantity signal /\
  (if te_is_buy fill then market_price <= te_price fill
   else te_price fill <= market_price) /\
  (0 <= te_price fill -> 0 <= te_commission fill).
Proof.
  intros Hq Hp Hd. cbv zeta.
  destruct (validate_nonneg c) as (Hc1 & Hc2 & Hc3 & Hc4 & Hr0 & Hr1).
  unfold execute_simple_order.
  cbn [te_symbol te_is_buy te_quantity te_price te_commission].
  set (c' := validate c) in *.
  set (is_buy := is_buy_signal (sig_signal signal)).
  destruct (calculate_execution_price_side c' market_price Hc4 Hc3 Hp)
    as (Hsell & Hbuy & _).
  set (qty := if simulate_partial_fills c'
                 && Qltb draw1 (partial_fill_probability c')
              then sig_suggested_quantity signal
                   * (min_fill_ratio c' + (1 - min_fill_ratio c') * draw2)
              else sig_suggested_quantity signal).
  assert (Hqty : min_fill_ratio c' * sig_suggested_quantity signal <= qty
                 /\ qty <= sig_suggested_quantity signal).
  { unfold qty.
    destruct (simulate_partial_fills c'
              && Qltb draw1 (partial_fill_probability c')).
    - set (s := sig_suggested_quantity signal) in *.
      set (m := min_fill_ratio c') in *.
      assert (H1 : 0 <= s * ((1 - m) * draw2)).
      { apply Qmult_le_0_compat; [assumption|].
        apply Qmult_le_0_compat; lra. }
      assert (H2 : 0 <= s * ((1 - m) * (1 - draw2))).
      { apply Qmult_le_0_compat; [assumption|].
        apply Qmult_le_0_compat; lra. }
      assert (E1 : s * (m + (1 - m) * draw2) == m * s + s * ((1 - m) * draw2))
        by ring.
      assert (E2 : s * (m + (1 - m) * draw2) == s - s * ((1 - m) * (1 - draw2)))
        by ring.
      split; lra.
    - assert (H1 : 0 <= (1 - min_fill_ratio c') * sig_suggested_quantity signal)
        by (apply Qmult_le_0_compat; lra).
      split; [|apply Qle_refl].
      assert (E : (1 - min_fill_ratio c') * sig_suggested_quantity signal
                  == sig_suggested_quantity signal
                     - min_fill_ratio c' * sig_suggested_quantity signal) by ring.
      lra. }
  assert (Hqty0 : 0 <= qty).
  { assert (H : 0 <= min_fill_ratio c' * sig_suggested_quantity signal)
      by (apply Qmult_le_0_compat; lra). lra. }
  split; [reflexivity|]. split; [reflexivity|]. split; [exact Hqty|].
  split.
  - destruct is_buy; assumption.
  - intros Hprice. apply calculate_commission_nonneg; assumption.
Qed.

Lemma execute_simple_order_fill_witness :
  let hold := {| sig_strategy_id := "sma"; sig_symbol := "AAPL";
                 sig_signal := Events.HOLD; sig_confidence := 1;
                 sig_suggested_quantity := 100 |} in
  0 <= sig_suggested_quantity hold /\ 0 <= 100 /\ 0 <= 1 # 2 < 1 /\
  te_is_buy (execute_simple_order (validate default_config) hold 100
               (1 # 2) (1 # 2)) = false.
Proof.
  cbv zeta.
  assert (H1 : 0 <= sig_suggested_quantity
                      {| sig_strategy_id := "sma"; sig_symbol := "AAPL";
                         sig_signal := Events.HOLD; sig_confidence := 1;
                         sig_suggested_quantity := 100 |}) by (cbn; lra).
  assert (H2 : 0 <= 100) by lra.
  assert (H3 : 0 <= 1 # 2 < 1) by (split; lra).
  split; [exact H1|]. split; [exact H2|]. split; [exact H3|].
  exact (proj1 (proj2 (execute_simple_order_fill default_config _ 100
                         (1 # 2) (1 # 2) H1 H2 H3))).
Defined.

(** X22.  The order book execution path: a market order for the suggested
    quantity is matched against the book of the symbol; a fill is produced
    exactly when something matched, its quantity is positive and not above
    the suggested quantity, it carries the matched quantity and the average
    price, and a signal that is not BUY is matched as a sell. *)
Theorem execute_order_book_order_fill (c : MarketSimulationConfig)
  (order_book : LockFreeOrderBook.LockFreeOrderBook)
  (signal : TradingSignalEvent) :
  0 <= sig_suggested_quantity signal ->
  let side :=
    match sig_signal signal with
    | Events.BUY => Order.BUY
    | _ => Order.SELL
    end in
  let matched :=
    LockFreeOrderBook.match_market_order order_book side
      (sig_suggested_quantity signal) 0 0 in
  snd (execute_order_book_order c order_book signal) = snd matched /\
  match fst (execute_order_book_order c order_book signal) with
  | Some fill =>
      0 < te_quantity fill <= sig_suggested_quantity signal /\
      te_quantity fill = LockFreeOrderBook.matched_quantity (fst matched) /\
      te_price fill = LockFreeOrderBook.average_price (fst matched) /\
      te_is_buy fill
      = match sig_signal signal with Events.BUY => true | _ => false end
  | None => LockFreeOrderBook.matched_quantity (fst matched) == 0
  end.
Proof.
  intros Hq. cbv zeta. unfold execute_order_book_order.
  assert (Hside : (if is_buy_signal (sig_signal signal)
                   then Order.BUY else Order.SELL)
                  = match sig_signal signal with
                    | Events.BUY => Order.BUY
                    | _ => Order.SELL
                    end) by now destruct (sig_signal signal).
  rewrite Hside.
  set (side := match sig_signal signal with
               | Events.BUY => Order.BUY
               | _ => Order.SELL
               end).
  pose proof (match_market_order_spec order_book side
                (sig_suggested_quantity signal) 0 0) as (H0 & Hle & _).
  cbv zeta in H0, Hle. specialize (Hle Hq).
  destruct (LockFreeOrderBook.match_market_order order_book side
              (sig_suggested_quantity signal) 0 0) as [result book'].
  cbn [fst snd] in *.
  destruct (Qltb 0 (LockFreeOrderBook.matched_quantity result)) eqn:Hpos;
    cbn [fst snd].
  - apply Qltb_lt in Hpos. split; [reflexivity|].
    cbn [te_quantity te_price te_is_buy].
    split; [split; assumption|]. split; [reflexivity|]. split; [reflexivity|].
    unfold side. now destruct (sig_signal signal).
  - apply Qltb_ge in Hpos. split; [reflexivity | lra].
Qed.

Lemma execute_order_book_order_fill_witness :
  let buy := {| sig_strategy_id := "sma"; sig_symbol := "AAPL";
                sig_signal := Events.BUY; sig_confidence := 1;
                sig_suggested_quantity := 100 |} in
  0 <= sig_suggested_quantity buy /\
  snd (execute_order_book_order default_config Scenario.book_two_asks buy)
  = snd (LockFreeOrderBook.match_market_order Scenario.book_two_asks
           Order.BUY 100 0 0).
Proof.
  cbv zeta.
  assert (H1 : 0 <= sig_suggested_quantity
                      {| sig_strategy_id := "sma"; sig_symbol := "AAPL";
                         sig_signal := Events.BUY; sig_confidence := 1;
                         sig_suggested_quantity := 100 |}) by (cbn; lra).
  split; [exact H1|].
  pose proof (execute_order_book_order_fill default_config
                Scenario.book_two_asks _ H1) as H.
  cbv zeta in H. cbn [sig_signal sig_suggested_quantity] in H.
  destruct H as [H _]. exact H.
Defined.

End ExecutionFacts.

(** ** More on positions and the portfolio ledger *)

Section PositionInvariants.

Import Num Position.
Local Open Scope Q_scope.

Lemma update_pnl_consistent (p : Position) (latest_price : Q) :
  pnl_consistent (update_pnl p latest_price).
Proof. unfold pnl_consistent, update_pnl. cbn. reflexivity. Qed.

Lemma adjust_position_shape (p : Position) (delta price : Q) :
  let p' := snd (adjust_position p delta price) in
  no_dust p' /\ pnl_consistent p' /\
  symbol_ p' = symbol_ p /\ current_price_ p' = current_price_ p /\
  quantity_ p' = (if Qltb eps (Qabs (quantity_ p + delta))
                  then quantity_ p + delta else 0) /\
  (is_flat p' = true -> quantity_ p' = 0 /\ unrealized_pnl_ p' = 0).
Proof.
  cbv zeta. unfold adjust_position.
  destruct (Qltb eps (Qabs (quantity_ p + delta))) eqn:Hbig; cbn [snd].
  - apply Qltb_lt in Hbig.
    split; [right; exact Hbig|].
    split; [apply update_pnl_consistent|].
    split; [reflexivity|]. split; [reflexivity|]. split; [reflexivity|].
    unfold is_flat, update_pnl. cbn [quantity_]. intros Hflat.
    apply Qltb_lt in Hflat. lra.
  - split; [left; reflexivity|].
    split; [unfold pnl_consistent; cbn; reflexivity|].
    repeat split; reflexivity.
Qed.

(** X23.  Opening a position from nothing and closing it with the opposite
    trade of the same size: the second trade realizes the price difference
    times the signed quantity, the position adds exactly that to its
    realized P&L, and it ends flat with quantity 0 and no unrealized P&L. *)
Theorem open_then_close_realizes_difference
  (sym : string) (q open_price close_price : Q) :
  eps < Qabs q ->
  let opened := snd (adjust_position (make sym 0 0) q open_price) in
  let closed := adjust_position opened (- q) close_price in
  fst closed == (close_price - open_price) * q /\
  realized_pnl_ (snd closed) == (close_price - open_price) * q /\
  quantity_ (snd closed) = 0 /\ unrealized_pnl_ (snd closed) = 0 /\
  is_flat (snd closed) = true.
Proof.
  intros Hq. cbv zeta.
  destruct (adjust_position_fresh sym q open_price Hq)
    as (_ & Hqty & Hentry & _ & _ & _).
  cbv zeta in Hqty, Hentry.
  set (opened := snd (adjust_position (make sym 0 0) q open_price)) in *.
  assert (Hreal0 : realized_pnl_ opened = 0).
  { unfold opened, adjust_position.
    cbn [make quantity_ realized_pnl_].
    change (Qneqb 0 0) with false. cbn [andb].
    destruct (Qltb eps (Qabs (0 + q))); reflexivity. }
  assert (Hnz : ~ q == 0).
  { intros Hz. rewrite Hz in Hq. vm_compute in Hq. discriminate. }
  assert (Hopp : quantity_ opened * (- q) < 0).
  { rewrite Hqty.
    destruct (Qlt_le_dec 0 q) as [Hpos|Hneg].
    - assert (0 < q * q) by (apply Qmult_lt_0_compat; assumption).
      assert (E : q * - q == - (q * q)) by ring. lra.
    - assert (Hneg' : 0 < - q) by lra.
      assert (0 < (- q) * (- q)) by (apply Qmult_lt_0_compat; assumption).
      assert (E : q * - q == - ((- q) * (- q))) by ring. lra. }
  destruct (adjust_position_realized opened (- q) close_price Hopp)
    as [Hfst Hreal].
  destruct (adjust_position_shape opened (- q) close_price)
    as (_ & _ & _ & _ & Hqty2 & Hflat).
  cbv zeta in Hqty2, Hflat.
  assert (Hsmall : Qltb eps (Qabs (quantity_ opened + - q)) = false).
  { assert (E : quantity_ opened + - q == 0) by (rewrite Hqty; ring).
    rewrite E. reflexivity. }
  rewrite Hsmall in Hqty2.
  assert (Hisflat : is_flat (snd (adjust_position opened (- q) close_price))
                    = true)
    by (unfold is_flat; rewrite Hqty2; reflexivity).
  assert (Hval : fst (adjust_position opened (- q) close_price)
                 == (close_price - open_price) * q).
  { rewrite Hfst. unfold std_min.
    assert (Habs : Qabs (- q) == Qabs q) by apply Qabs_opp.
    assert (Habs2 : Qabs (quantity_ opened) == Qabs q) by now rewrite Hqty.
    assert (Hmin : (if Qltb (Qabs (quantity_ opened)) (Qabs (- q))
                    then Qabs (quantity_ opened) else Qabs (- q)) == Qabs q)
      by (destruct (Qltb (Qabs (quantity_ opened)) (Qabs (- q)));
          [exact Habs2 | exact Habs]).
    rewrite Hmin, Hentry.
    assert (Hs : Qltb 0 (quantity_ opened) = Qltb 0 q) by now rewrite Hqty.
    rewrite Hs.
    destruct (Qltb 0 q) eqn:Hpos.
    - apply Qltb_lt in Hpos. rewrite Qabs_pos by lra. ring.
    - apply Qltb_ge in Hpos. rewrite Qabs_neg by lra. ring. }
  split; [exact Hval|].
  split; [rewrite Hreal, Hreal0, Hval; ring|].
  split; [exact Hqty2|].
  split; [exact (proj2 (Hflat Hisflat)) | exact Hisflat].
Qed.

Lemma open_then_close_realizes_difference_witness :
  eps < Qabs 100 /\
  fst (adjust_position (snd (adjust_position (make "AAPL" 0 0) 100 150))
         (- (100)) 160)
  == (160 - 150) * 100.
Proof.
  assert (H : eps < Qabs 100) by (vm_compute; reflexivity).
  split; [exact H|].
  exact (proj1 (open_then_close_realizes_difference "AAPL" 100 150 160 H)).
Defined.

End PositionInvariants.

Section LedgerRuns.

Import Num Events Position PositionManager.
Local Open Scope Q_scope.

Ltac split_cases :=
  repeat match goal with
         | |- context [if ?b then _ else _] => destruct b
         | |- context [match ?x with Some _ => _ | None => _ end] => destruct x
         end.

(** The fields a fill leaves alone, and those it always sets. *)
Lemma on_trade_execution_frame pm ev :
  initial_capital_ (on_trade_execution pm ev) = initial_capital_ pm /\
  trade_history_ (on_trade_execution pm ev) = trade_history_ pm ++ [ev] /\
  equity_curve_ (on_trade_execution pm ev) = equity_curve_ pm /\
  equity_cache_valid_ (on_trade_execution pm ev) = false /\
  total_pnl (portfolio_stats_ (on_trade_execution pm ev))
  = total_pnl (portfolio_stats_ pm).
Proof.
  unfold on_trade_execution, update_position_on_fill_lockfree,
    get_or_create_position, update_portfolio_statistics, remove_flat_position.
  cbv zeta.
  destruct (positions_ pm !! te_symbol ev) as [p0|] eqn:Hold;
    cbn [push_trade with_stats positions_ portfolio_stats_];
    rewrite Hold;
    match goal with
    | |- context [adjust_position ?a ?b ?c] =>
        destruct (adjust_position a b c) as [r p]
    end;
    cbn [fst snd andb negb];
    split_cases; cbn; repeat split; reflexivity.
Qed.

(** What a bar does besides marking the position. *)
Lemma on_market_data_frame pm e :
  initial_capital_ (on_market_data pm e) = initial_capital_ pm /\
  trade_history_ (on_market_data pm e) = trade_history_ pm /\
  total_pnl (portfolio_stats_ (on_market_data pm e))
  = total_pnl (portfolio_stats_ pm) /\
  available_cash (portfolio_stats_ (on_market_data pm e))
  = available_cash (portfolio_stats_ pm) /\
  total_equity (portfolio_stats_ (on_market_data pm e))
  - total_market_value (portfolio_stats_ (on_market_data pm e))
  == total_equity (portfolio_stats_ pm)
     - total_market_value (portfolio_stats_ pm) /\
  (positions_ pm !! md_symbol e = None -> on_market_data pm e = pm) /\
  (cache_coherent pm ->
   cache_coherent (on_market_data pm e) /\
   (positions_ pm !! md_symbol e <> None ->
    equity_curve_ (on_market_data pm e)
    = equity_curve_ pm
      ++ [total_equity (portfolio_stats_ (on_market_data pm e))])).
Proof.
  destruct pm as [ic st pos th ec cte ecv].
  unfold on_market_data, get_total_equity, cache_coherent.
  cbn [positions_].
  destruct (pos !! md_symbol e) as [p|] eqn:Hold.
  2:{ repeat split; try reflexivity; tauto. }
  cbv zeta.
  destruct (Qltb eps _) eqn:Hchg; destruct ecv;
    cbv beta iota delta
      [invalidate_cache with_cache with_stats with_positions push_equity
       add_total_equity add_total_market_value initial_capital_
       trade_history_ equity_curve_ portfolio_stats_ total_pnl
       available_cash total_equity total_market_value equity_cache_valid_
       cached_total_equity_ fst snd];
    (split; [reflexivity|]); (split; [reflexivity|]); (split; [reflexivity|]);
    (split; [reflexivity|]); (split; [ring|]); (split; [discriminate|]);
    intros Hco; split; intros _;
    try reflexivity; try (now apply Hco);
    rewrite (Hco eq_refl); reflexivity.
Qed.

Lemma fills_of_app (ops1 ops2 : list ledger_op) :
  fills_of (ops1 ++ ops2) = fills_of ops1 ++ fills_of ops2.
Proof. unfold fills_of. apply flat_map_app. Qed.

Lemma run_ops_snoc (pm : PositionManager) (ops : list ledger_op)
  (op : ledger_op) :
  run_ops pm (ops ++ [op]) = apply_op (run_ops pm ops) op.
Proof. unfold run_ops. now rewrite fold_left_app. Qed.

(** X24.  The trade history is the log of the fills: after any run of bars
    and fills it is the history from before followed by the fills of the
    run, each once and in order; bars leave it alone. *)
Theorem trade_history_records_every_fill
  (pm : PositionManager) (ops : list ledger_op) :
  get_trade_history (run_ops pm ops) = get_trade_history pm ++ fills_of ops.
Proof.
  unfold get_trade_history.
  induction ops as [|op ops IH] using rev_ind.
  - cbn. now rewrite app_nil_r.
  - rewrite run_ops_snoc, fills_of_app.
    destruct op as [e|e]; cbn [apply_op fills_of flat_map app].
    + destruct (on_market_data_frame (run_ops pm ops) e) as (_ & Hh & _).
      rewrite Hh, IH. now rewrite app_nil_r.
    + destruct (on_trade_execution_frame (run_ops pm ops) e) as (_ & Hh & _).
      rewrite Hh, IH. now rewrite app_assoc.
Qed.

Lemma cache_coherent_run (c : Q) (ops : list ledger_op) :
  cache_coherent (run_ops (make c) ops).
Proof.
  induction ops as [|op ops IH] using rev_ind.
  - intros _. reflexivity.
  - rewrite run_ops_snoc. destruct op as [e|e]; cbn [apply_op].
    + now apply on_market_data_frame.
    + destruct (on_trade_execution_frame (run_ops (make c) ops) e)
        as (_ & _ & _ & Hv & _).
      unfold cache_coherent. rewrite Hv. discriminate.
Qed.

(** X25.  The equity cache is never stale.  In every ledger reached from
    the constructor by bars and fills, [get_total_equity] returns the
    equity total of the statistics block; a bar for a symbol that has an
    entry in the position map appends exactly one point to the equity
    curve, the equity total after the bar; a bar for any other symbol
    changes nothing at all. *)
Theorem equity_cache_is_never_stale (c : Q) (ops : list ledger_op)
  (e : MarketDataEvent) :
  let pm := run_ops (make c) ops in
  fst (get_total_equity pm) = total_equity (portfolio_stats_ pm) /\
  (positions_ pm !! md_symbol e <> None ->
   get_equity_curve (on_market_data pm e)
   = get_equity_curve pm
     ++ [total_equity (portfolio_stats_ (on_market_data pm e))]) /\
  (positions_ pm !! md_symbol e = None -> on_market_data pm e = pm).
Proof.
  cbv zeta. pose proof (cache_coherent_run c ops) as Hco.
  split; [|split].
  - unfold get_total_equity.
    destruct (equity_cache_valid_ (run_ops (make c) ops)) eqn:Hv;
      [now apply Hco | reflexivity].
  - apply on_market_data_frame. exact Hco.
  - apply on_market_data_frame.
Qed.

(** X26.  Equity is the initial capital plus the market value of the
    positions.  In every ledger reached from the constructor by bars and
    fills the equity total equals the initial capital plus the market-value
    total: bars and fills move the two totals by the same amounts, and the
    cash paid or received by the fills never enters the equity. *)
Theorem equity_is_capital_plus_market_value (c : Q) (ops : list ledger_op) :
  let stats := portfolio_stats_ (run_ops (make c) ops) in
  total_equity stats == c + total_market_value stats.
Proof.
  cbv zeta.
  induction ops as [|op ops IH] using rev_ind.
  - cbn. ring.
  - rewrite run_ops_snoc. destruct op as [e|e]; cbn [apply_op].
    + destruct (on_market_data_frame (run_ops (make c) ops) e)
        as (_ & _ & _ & _ & Hdiff & _).
      lra.
    + destruct (aggregates_on_trade_execution (run_ops (make c) ops) e)
        as (_ & Heq & Hmv).
      cbv zeta in Heq, Hmv. rewrite Heq, Hmv.
      destruct (Qltb eps _); lra.
Qed.

Lemma total_cash_flow_snoc (fills : list TradeExecutionEvent)
  (e : TradeExecutionEvent) :
  total_cash_flow (fills ++ [e]) = total_cash_flow fills + cash_flow e.
Proof. unfold total_cash_flow. now rewrite fold_left_app. Qed.

(** X27.  The cash account is the sum of the trade flows.  After any run of
    bars and fills the available cash is the cash from before plus, for
    each fill of the run, the value of the trade - paid by a buy, received
    by a sell - less the commission; bars do not move cash, and nothing is
    checked against the cash being sufficient. *)
Theorem cash_is_sum_of_trade_flows
  (pm : PositionManager) (ops : list ledger_op) :
  get_available_cash (run_ops pm ops)
  == get_available_cash pm + total_cash_flow (fills_of ops).
Proof.
  unfold get_available_cash.
  induction ops as [|op ops IH] using rev_ind.
  - cbn. ring.
  - rewrite run_ops_snoc, fills_of_app.
    destruct op as [e|e]; cbn [apply_op fills_of flat_map app].
    + destruct (on_market_data_frame (run_ops pm ops) e)
        as (_ & _ & _ & Hcash & _).
      rewrite Hcash, IH. now rewrite app_nil_r.
    + destruct (aggregates_on_trade_execution (run_ops pm ops) e)
        as (Hcash & _).
      cbv zeta in Hcash. rewrite Hcash, total_cash_flow_snoc, IH.
      unfold cash_flow. ring.
Qed.

(** X28.  The stored total P&L is never written by bars or fills:
    [get_total_pnl] returns what it returned before the run, 0 for every
    ledger reached from the constructor, whatever has been realized; the
    sum of realized and unrealized P&L is only computed in the snapshot of
    [get_portfolio_statistics]. *)
Theorem total_pnl_is_never_updated
  (pm : PositionManager) (c : Q) (ops : list ledger_op) :
  get_total_pnl (run_ops pm ops) = get_total_pnl pm /\
  get_total_pnl (run_ops (make c) ops) = 0 /\
  total_pnl (get_portfolio_statistics (run_ops pm ops))
  = get_total_realized_pnl (run_ops pm ops)
    + get_total_unrealized_pnl (run_ops pm ops).
Proof.
  assert (H : forall pm0, get_total_pnl (run_ops pm0 ops) = get_total_pnl pm0).
  { intros pm0. unfold get_total_pnl.
    induction ops as [|op ops IH] using rev_ind; [reflexivity|].
    rewrite run_ops_snoc. destruct op as [e|e]; cbn [apply_op].
    - destruct (on_market_data_frame (run_ops pm0 ops) e) as (_ & _ & Hp & _).
      now rewrite Hp.
    - destruct (on_trade_execution_frame (run_ops pm0 ops) e)
        as (_ & _ & _ & _ & Hp).
      now rewrite Hp. }
  split; [apply H|]. split; [now rewrite H | reflexivity].
Qed.

(** The positions of the map after one operation, given their shape
    before. *)
Lemma positions_shape_apply_op (pm : PositionManager) (op : ledger_op) :
  map_Forall (fun sym p => symbol_ p = sym /\ no_dust p /\ pnl_consistent p)
    (positions_ pm) ->
  map_Forall (fun sym p => symbol_ p = sym /\ no_dust p /\ pnl_consistent p)
    (positions_ (apply_op pm op)).
Proof.
  intros Hall. destruct op as [e|e]; cbn [apply_op].
  - rewrite positions_on_market_data.
    destruct (positions_ pm !! md_symbol e) as [p|] eqn:Hold; [|assumption].
    apply map_Forall_insert_2; [|assumption].
    destruct (Hall _ _ Hold) as (Hsym & Hdust & _).
    split; [exact Hsym|]. split; [exact Hdust|]. apply update_pnl_consistent.
  - rewrite positions_on_trade_execution. cbv zeta.
    destruct (positions_ pm !! te_symbol e) as [p0|] eqn:Hold.
    + destruct (adjust_position_shape p0 (signed_quantity e) (te_price e))
        as (Hdust & Hcons & Hsym & _).
      cbv zeta in Hdust, Hcons, Hsym.
      destruct (is_flat _).
      * now apply map_Forall_delete.
      * apply map_Forall_insert_2; [|assumption].
        destruct (Hall _ _ Hold) as (Hsym0 & _).
        split; [congruence|]. split; assumption.
    + destruct (adjust_position_shape (Position.make (te_symbol e) 0 0)
                  (signed_quantity e) (te_price e))
        as (Hdust & Hcons & Hsym & _).
      cbv zeta in Hdust, Hcons, Hsym.
      apply map_Forall_insert_2; [|assumption].
      split; [exact Hsym|]. split; assumption.
Qed.

(** X29.  The shape of the position map.  In every ledger reached from the
    constructor by bars and fills, each position is stored under its own
    symbol, holds a quantity that is exactly 0 or above the tolerance, and
    carries an unrealized P&L that agrees with its quantity, entry price
    and mark; [has_position] holds exactly for the symbols whose entry has
    a quantity other than 0. *)
Theorem positions_keep_their_shape (c : Q) (ops : list ledger_op)
  (sym : string) :
  let pm := run_ops (make c) ops in
  (forall p, get_position_snapshot pm sym = Some p ->
     symbol_ p = sym /\ no_dust p /\ pnl_consistent p) /\
  (has_position pm sym = true <->
   exists p, get_position_snapshot pm sym = Some p /\ quantity_ p <> 0).
Proof.
  cbv zeta.
  assert (Hall : map_Forall
                   (fun sym p => symbol_ p = sym /\ no_dust p /\ pnl_consistent p)
                   (positions_ (run_ops (make c) ops))).
  { induction ops as [|op ops IH] using rev_ind.
    - cbn. apply map_Forall_empty.
    - rewrite run_ops_snoc. now apply positions_shape_apply_op. }
  unfold get_position_snapshot, has_position.
  split; [intros p Hp; exact (Hall _ _ Hp)|].
  destruct (positions_ (run_ops (make c) ops) !! sym) as [p|] eqn:Hp.
  - destruct (Hall _ _ Hp) as (_ & Hdust & _).
    unfold is_flat. split.
    + intros Hflat. exists p. split; [reflexivity|].
      intros Hz. rewrite Hz in Hflat. vm_compute in Hflat. discriminate.
    + intros (p' & Heq & Hnz). inversion Heq; subst p'.
      destruct Hdust as [Hz|Hbig]; [contradiction|].
      apply negb_true_iff, Qltb_ge. lra.
  - split; [discriminate|]. intros (p' & Heq & _). discriminate.
Qed.

(** X30.  A round trip leaves no position behind.  On a ledger without an
    entry for the symbol, a buy above the tolerance followed by a sell of
    the same quantity restores the position map exactly - the entry created
    by the buy is erased by the sell - so [has_position] is false again;
    the cash ends at the cash from before plus the price difference times
    the quantity, less the two commissions. *)
Theorem round_trip_leaves_no_position
  (pm : PositionManager) (sym : string)
  (q open_price close_price commission1 commission2 : Q) :
  positions_ pm !! sym = None -> eps < q ->
  let buy := {| te_symbol := sym; te_quantity := q; te_price := open_price;
                te_commission := commission1; te_is_buy := true |} in
  let sell := {| te_symbol := sym; te_quantity := q; te_price := close_price;
                 te_commission := commission2; te_is_buy := false |} in
  let pm' := on_trade_execution (on_trade_execution pm buy) sell in
  positions_ pm' = positions_ pm /\ has_position pm' sym = false /\
  has_position (on_trade_execution pm buy) sym = true /\
  get_available_cash pm'
  == get_available_cash pm + (close_price - open_price) * q
     - commission1 - commission2.
Proof.
  intros Hnone Hq. cbv zeta.
  set (buy := {| te_symbol := sym; te_quantity := q; te_price := open_price;
                 te_commission := commission1; te_is_buy := true |}).
  set (sell := {| te_symbol := sym; te_quantity := q; te_price := close_price;
                  te_commission := commission2; te_is_buy := false |}).
  assert (Hq0 : 0 < q) by (unfold eps in Hq; lra).
  assert (Habs : eps < Qabs (q * 1)).
  { rewrite Qabs_pos by lra. lra. }
  pose proof (positions_on_trade_execution pm buy) as Hpos1.
  cbv zeta in Hpos1. cbn [buy te_symbol] in Hpos1. rewrite Hnone in Hpos1.
  unfold signed_quantity in Hpos1. cbn [buy te_quantity te_is_buy te_price] in Hpos1.
  destruct (adjust_position_fresh sym (q * 1) open_price Habs)
    as (_ & Hqty & _ & _ & _ & Hnotflat).
  cbv zeta in Hqty, Hnotflat.
  set (opened := snd (adjust_position (Position.make sym 0 0) (q * 1) open_price))
    in *.
  pose proof (positions_on_trade_execution (on_trade_execution pm buy) sell)
    as Hpos2.
  cbv zeta in Hpos2. cbn [sell te_symbol] in Hpos2.
  rewrite Hpos1, lookup_insert_eq in Hpos2.
  unfold signed_quantity in Hpos2.
  cbn [sell te_quantity te_is_buy te_price] in Hpos2.
  destruct (adjust_position_shape opened (q * -(1)) close_price)
    as (_ & _ & _ & _ & Hqty2 & _).
  cbv zeta in Hqty2.
  assert (Hsmall : Qltb eps (Qabs (quantity_ opened + q * -(1))) = false).
  { assert (E : quantity_ opened + q * -(1) == 0) by (rewrite Hqty; ring).
    rewrite E. reflexivity. }
  rewrite Hsmall in Hqty2.
  assert (Hflat : is_flat (snd (adjust_position opened (q * -(1)) close_price))
                  = true)
    by (unfold is_flat; rewrite Hqty2; reflexivity).
  rewrite Hflat in Hpos2.
  assert (Hmap : positions_ (on_trade_execution (on_trade_execution pm buy) sell)
                 = positions_ pm).
  { rewrite Hpos2, delete_insert_eq. now apply delete_id. }
  split; [exact Hmap|].
  split; [unfold has_position; now rewrite Hmap, Hnone|].
  split.
  { unfold has_position. rewrite Hpos1, lookup_insert_eq.
    now rewrite Hnotflat. }
  unfold get_available_cash.
  destruct (aggregates_on_trade_execution (on_trade_execution pm buy) sell)
    as (Hc2 & _).
  destruct (aggregates_on_trade_execution pm buy) as (Hc1 & _).
  cbv zeta in Hc1, Hc2. rewrite Hc2, Hc1. cbn. ring.
Qed.

Lemma round_trip_leaves_no_position_witness :
  positions_ (make 100000) !! "AAPL" = None /\ eps < 100 /\
  positions_ (on_trade_execution
                (on_trade_execution (make 100000) Scenario.buy_100_at_150)
                Scenario.sell_100_at_160)
  = positions_ (make 100000).
Proof.
  assert (H1 : positions_ (make 100000) !! "AAPL" = None) by reflexivity.
  assert (H2 : eps < 100) by (vm_compute; reflexivity).
  split; [exact H1|]. split; [exact H2|].
  exact (proj1 (round_trip_leaves_no_position (make 100000) "AAPL"
                  100 150 160 5 5 H1 H2)).
Defined.

End LedgerRuns.
